(** * claudex: analysis scripts of the skill marketplace

    A shallow embedding of the Python scripts of the repository and the
    properties their specification states about them:

    - [Planner]: remediation_planner.py (priority score, severity buckets);
    - [Float64], [Num]: the floats and the numbers of Python;
    - [Sqale]: analyzers/technical_debt.py (the A-E letter grade);
    - [Regex], [Py]: regular expressions and the operations of Python on
      JSON documents that the scripts use;
    - [Marketplace]: scripts/validate-marketplace.py (checks, exit status,
      version pattern);
    - [Processor]: cc-insights/scripts/conversation-processor.py
      (incremental processing, error handling, the conversations table);
    - [Search]: cc-insights/scripts/search-conversations.py and
      rag_indexer.py (semantic search, database connections).

    Python dictionaries are finite maps ([gmap]) or lists of items, a raised
    exception is the [Raise] case of the result type [res]. *)

From Stdlib Require Import ZArith QArith Qround Qpower Qabs Lia Lqa List Bool Ascii String Floats.
From stdpp Require Import gmap strings list sorting pretty.

Open Scope Z_scope.


(** ** Python values and exceptions *)

(** The exceptions the modelled code can raise, all of them subclasses of
    [Exception]. *)
Inductive exn : Type :=
| KeyError
| TypeError
| AttributeError
| ValueError
| OSError
| UnicodeDecodeError
| UnicodeEncodeError
| JSONDecodeError
| RecursionError
| IntegrityError
| OperationalError
| OverflowError
| ZeroDivisionError.

(** The outcome of a call: a value, or a raised exception. *)
Inductive res (A : Type) : Type :=
| Ok (a : A)
| Raise (e : exn).
Arguments Ok {A} a.
Arguments Raise {A} e.

Definition bind {A B : Type} (r : res A) (k : A -> res B) : res B :=
  match r with
  | Ok a => k a
  | Raise e => Raise e
  end.

Notation "x <- r ;; k" := (bind r (fun x => k))
  (at level 100, r at next level, right associativity).

(** [for x in l: acc = f acc x], where the body may raise. *)
Fixpoint for_each {A S : Type} (f : S -> A -> res S) (l : list A) (s : S) : res S :=
  match l with
  | [] => Ok s
  | x :: l' => s' <- f s x ;; for_each f l' s'
  end.

(** The values a finding dictionary holds. *)
Inductive value : Type :=
| VStr (s : string)
| VInt (z : Z).

#[global] Instance value_eq_dec : EqDecision value.
Proof. solve_decision. Defined.

(** [v == 'literal'] *)
Definition is_str (v : value) (s : string) : bool := bool_decide (v = VStr s).

(** A dictionary with string keys. *)
Abbreviation dict := (gmap string value).

(** [d.get(k, dflt)] *)
Definition get (d : dict) (k : string) (dflt : value) : value :=
  default dflt (d !! k).

(** [d[k]] *)
Definition getitem (d : dict) (k : string) : res value :=
  match d !! k with
  | Some v => Ok v
  | None => Raise KeyError
  end.

(** [table.get(v, dflt)] for a table whose keys are string literals: a key
    that is not a string is equal to none of them. *)
Definition table_get {A : Type} (table : gmap string A) (v : value) (dflt : A) : A :=
  match v with
  | VStr s => default dflt (table !! s)
  | VInt _ => dflt
  end.

(** [v in [s1, s2, ...]] for a list of string literals. *)
Definition in_strs (v : value) (l : list string) : bool :=
  existsb (is_str v) l.

(** ** remediation_planner.py *)

Module Planner.

(** A finding is a dictionary; findings are objects on the heap, shared by
    reference between the lists that hold them. *)
Abbreviation finding := dict.
Definition ref := nat.
Definition heap := ref -> finding.

Definition upd (h : heap) (r : ref) (f : finding) : heap :=
  fun r' => if decide (r' = r) then f else h r'.

Definition severity_impact : gmap string Z :=
  {[ "critical" := 10; "high" := 7; "medium" := 4; "low" := 2 ]}.

Definition effort_values : gmap string Z :=
  {[ "low" := 2; "medium" := 5; "high" := 8 ]}.

(** calculate_priority_score, lines 168-196: the local variable [score]. *)
Definition linear_score (f : finding) : Z :=
  let impact := table_get severity_impact (get f "severity" (VStr "low")) 1 in
  let category := get f "category" (VStr "") in
  let frequency :=
    if in_strs category ["security"; "testing"] then 10
    else if in_strs category ["quality"; "performance"] then 6
    else 3 in
  let effort := table_get effort_values (get f "effort" (VStr "medium")) 5 in
  impact * 10 + frequency * 5 - effort * 2.

(** calculate_priority_score, line 198: [return max(0, score)]. *)
Definition calculate_priority_score (f : finding) : Z :=
  Z.max 0 (linear_score f).

(** *** The formula in the words of the specification

    Impact by severity (critical 10, high 7, medium 4, low 2, any other
    value 1; a finding with no severity counts as low), frequency by
    category, effort by the effort field. *)

Definition impact_of (f : finding) : Z :=
  let sev := f !! "severity" in
  if decide (sev = Some (VStr "critical")) then 10
  else if decide (sev = Some (VStr "high")) then 7
  else if decide (sev = Some (VStr "medium")) then 4
  else if decide (sev = Some (VStr "low")) then 2
  else if decide (sev = None) then 2
  else 1.

Definition frequency_of (f : finding) : Z :=
  let cat := f !! "category" in
  if decide (cat = Some (VStr "security") \/ cat = Some (VStr "testing")) then 10
  else if decide (cat = Some (VStr "quality") \/ cat = Some (VStr "performance")) then 6
  else 3.

Definition effort_of (f : finding) : Z :=
  let eff := f !! "effort" in
  if decide (eff = Some (VStr "low")) then 2
  else if decide (eff = Some (VStr "medium")) then 5
  else if decide (eff = Some (VStr "high")) then 8
  else 5.

(** *** generate_remediation_plan *)

(** The argument [findings: Dict[str, List[Dict]]] in iteration order: each
    category with the references of its findings. *)
Definition findings_by_category := list (string * list ref).

(** Lines 33-37: every finding is tagged with its category, in place, and
    appended to [all_findings]. *)
Definition tag (category : string) (st : heap * list ref) (r : ref) : heap * list ref :=
  (upd st.1 r (<["category" := VStr category]> (st.1 r)), st.2 ++ [r]).

Definition flatten (findings : findings_by_category) (h : heap) : heap * list ref :=
  fold_left (fun st cf => fold_left (tag cf.1) cf.2 st) findings (h, []).

(** Lines 40-41: the score is stored in the finding. *)
Definition store_score (h : heap) (r : ref) : heap :=
  upd h r (<["priority_score" := VInt (calculate_priority_score (h r))]> (h r)).

Definition score_all (all : list ref) (h : heap) : heap :=
  fold_left store_score all h.

(** [x['priority_score']] of a scored finding. *)
Definition priority_score (h : heap) (r : ref) : Z :=
  match h r !! "priority_score" with
  | Some (VInt z) => z
  | _ => 0
  end.

(** Line 44: [list.sort(key=..., reverse=True)] is stable; findings of equal
    score keep their order. *)
Fixpoint insert_desc {A : Type} (key : A -> Z) (x : A) (l : list A) : list A :=
  match l with
  | [] => [x]
  | y :: l' => if key x <? key y then y :: insert_desc key x l' else x :: y :: l'
  end.

Definition sort_desc {A : Type} (key : A -> Z) (l : list A) : list A :=
  foldr (insert_desc key) [] l.

(** Lines 47-50: [[f for f in all_findings if f['severity'] == sev]]. *)
Fixpoint select (h : heap) (sev : string) (all : list ref) : res (list ref) :=
  match all with
  | [] => Ok []
  | r :: rest =>
      v <- getitem (h r) "severity" ;;
      tl <- select h sev rest ;;
      Ok (if is_str v sev then r :: tl else tl)
  end.

Record buckets : Type := Buckets {
  all_findings : list ref;
  p0_issues : list ref;
  p1_issues : list ref;
  p2_issues : list ref;
  p3_issues : list ref
}.

(** Lines 32-50. *)
Definition prioritize (findings : findings_by_category) (h : heap) : res (heap * buckets) :=
  let '(h1, all) := flatten findings h in
  let h2 := score_all all h1 in
  let sorted := sort_desc (priority_score h2) all in
  p0 <- select h2 "critical" sorted ;;
  p1 <- select h2 "high" sorted ;;
  p2 <- select h2 "medium" sorted ;;
  p3 <- select h2 "low" sorted ;;
  Ok (h2, Buckets sorted p0 p1 p2 p3).

(** [s.upper()] on ASCII letters. *)
Definition upper_ascii (c : ascii) : ascii :=
  let n := nat_of_ascii c in
  if ((97 <=? n) && (n <=? 122))%nat then ascii_of_nat (n - 32) else c.

Fixpoint upper (s : string) : string :=
  match s with
  | EmptyString => EmptyString
  | String c s' => String (upper_ascii c) (upper s')
  end.

(** [v.upper()]: only strings have the method. *)
Definition value_upper (v : value) : res string :=
  match v with
  | VStr s => Ok (upper s)
  | VInt _ => Raise AttributeError
  end.

(** One finding printed under a priority heading: its number, the finding
    and the effort label. *)
Record entry : Type := Entry {
  number : nat;
  printed : ref;
  effort_label : string
}.

(** The sections of the plan, in the order they are written; a section is
    written only when its bucket is not empty. *)
Inductive section : Type :=
| Priority0 (entries : list entry)
| Priority1 (entries : list entry) (more : nat)
| Priority2 (total : nat) (by_type : list (string * nat))
| Priority3 (total : nat).

(** [for i, finding in enumerate(issues, start)], lines 58-66 and 74-78. *)
Fixpoint render_entries (h : heap) (i : nat) (issues : list ref) : res (list entry) :=
  match issues with
  | [] => Ok []
  | r :: rest =>
      e <- value_upper (get (h r) "effort" (VStr "unknown")) ;;
      tl <- render_entries h (S i) rest ;;
      Ok (Entry i r e :: tl)
  end.

(** Lines 93-98: the findings of P2 grouped by subcategory, groups in order
    of first appearance. *)
Fixpoint add_to_group (subcat : value) (groups : list (value * nat)) : list (value * nat) :=
  match groups with
  | [] => [(subcat, 1%nat)]
  | (k, n) :: rest =>
      if decide (k = subcat) then (k, S n) :: rest else (k, n) :: add_to_group subcat rest
  end.

Definition group_by_subcategory (h : heap) (issues : list ref) : list (value * nat) :=
  fold_left (fun groups r => add_to_group (get (h r) "subcategory" (VStr "Other")) groups)
            issues [].

(** Lines 101-102: [subcat.replace(...)] needs a string. *)
Fixpoint render_groups (groups : list (value * nat)) : res (list (string * nat)) :=
  match groups with
  | [] => Ok []
  | (VStr s, n) :: rest => tl <- render_groups rest ;; Ok ((s, n) :: tl)
  | (VInt _, _) :: _ => Raise AttributeError
  end.

Definition when {A : Type} (b : bool) (x : res (list A)) : res (list A) :=
  if b then x else Ok [].

Definition nonempty {A : Type} (l : list A) : bool :=
  match l with [] => false | _ => true end.

(** Lines 52-113, the priority sections of the plan. *)
Definition render (h : heap) (b : buckets) : res (list section) :=
  s0 <- when (nonempty (p0_issues b))
          (es <- render_entries h 1 (p0_issues b) ;; Ok [Priority0 es]) ;;
  s1 <- when (nonempty (p1_issues b))
          (es <- render_entries h 1 (take 10 (p1_issues b)) ;;
           Ok [Priority1 es (length (p1_issues b) - 10)]) ;;
  s2 <- when (nonempty (p2_issues b))
          (gs <- render_groups (group_by_subcategory h (p2_issues b)) ;;
           Ok [Priority2 (length (p2_issues b)) gs]) ;;
  s3 <- when (nonempty (p3_issues b)) (Ok [Priority3 (length (p3_issues b))]) ;;
  Ok (s0 ++ s1 ++ s2 ++ s3).

Definition generate_remediation_plan (findings : findings_by_category) (h : heap)
  : res (heap * buckets * list section) :=
  hb <- prioritize findings h ;;
  doc <- render hb.1 hb.2 ;;
  Ok (hb.1, hb.2, doc).


(** *** Properties of the score *)

Lemma severity_impact_lookup (s : string) :
  severity_impact !! s =
    if decide (s = "critical") then Some 10
    else if decide (s = "high") then Some 7
    else if decide (s = "medium") then Some 4
    else if decide (s = "low") then Some 2
    else None.
Proof.
  unfold severity_impact.
  rewrite !lookup_insert, lookup_singleton.
  repeat case_decide; congruence.
Qed.

Lemma effort_values_lookup (s : string) :
  effort_values !! s =
    if decide (s = "low") then Some 2
    else if decide (s = "medium") then Some 5
    else if decide (s = "high") then Some 8
    else None.
Proof.
  unfold effort_values.
  rewrite !lookup_insert, lookup_singleton.
  repeat case_decide; congruence.
Qed.

Lemma impact_eq (f : finding) :
  table_get severity_impact (get f "severity" (VStr "low")) 1 = impact_of f.
Proof.
  unfold impact_of, get, table_get.
  destruct (f !! "severity") as [[s|z]|]; simpl;
    rewrite ?severity_impact_lookup;
    repeat case_decide; simplify_eq; try reflexivity; try congruence.
Qed.

Lemma effort_eq (f : finding) :
  table_get effort_values (get f "effort" (VStr "medium")) 5 = effort_of f.
Proof.
  unfold effort_of, get, table_get.
  destruct (f !! "effort") as [[s|z]|]; simpl;
    rewrite ?effort_values_lookup;
    repeat case_decide; simplify_eq; try reflexivity; try congruence.
Qed.

Lemma is_str_true (v : value) (s : string) : is_str v s = true <-> v = VStr s.
Proof. unfold is_str. apply bool_decide_eq_true. Qed.

Lemma is_str_false (v : value) (s : string) : is_str v s = false <-> v <> VStr s.
Proof. unfold is_str. apply bool_decide_eq_false. Qed.

Lemma frequency_eq (f : finding) :
  (if in_strs (get f "category" (VStr "")) ["security"; "testing"] then 10
   else if in_strs (get f "category" (VStr "")) ["quality"; "performance"] then 6
   else 3) = frequency_of f.
Proof.
  unfold frequency_of, get, in_strs. cbn [existsb].
  destruct (f !! "category") as [v|]; cbn [default];
    repeat match goal with
      | |- context [is_str ?v ?s] =>
          let E := fresh "E" in
          destruct (is_str v s) eqn:E;
          [apply is_str_true in E | apply is_str_false in E]
      end; cbn [orb];
    unfold id in *; repeat case_decide; try reflexivity; exfalso; intuition congruence.
Qed.

Lemma linear_score_formula (f : finding) :
  linear_score f = impact_of f * 10 + frequency_of f * 5 - effort_of f * 2.
Proof.
  unfold linear_score. cbv zeta.
  rewrite impact_eq, effort_eq, frequency_eq. reflexivity.
Qed.

Lemma score_formula (f : finding) :
  calculate_priority_score f =
    Z.max 0 (impact_of f * 10 + frequency_of f * 5 - effort_of f * 2).
Proof. unfold calculate_priority_score. by rewrite linear_score_formula. Qed.

Lemma impact_bounds (f : finding) : 1 <= impact_of f <= 10.
Proof. unfold impact_of. repeat case_decide; lia. Qed.

Lemma frequency_bounds (f : finding) : 3 <= frequency_of f <= 10.
Proof. unfold frequency_of. repeat case_decide; lia. Qed.

Lemma effort_bounds (f : finding) : 2 <= effort_of f <= 8.
Proof. unfold effort_of. repeat case_decide; lia. Qed.

(** *** The stable descending sort *)

(** [Desc key a b]: [a] may stand before [b] in non-increasing key order. *)
Definition Desc {A : Type} (key : A -> Z) (a b : A) : Prop := key b <= key a.

Section Sorting.
Context {A : Type} (key : A -> Z).

Lemma insert_desc_perm (x : A) (l : list A) : insert_desc key x l ≡ₚ x :: l.
Proof.
  induction l as [|y l IH]; simpl; [reflexivity|].
  destruct (key x <? key y); [|reflexivity].
  rewrite IH. apply Permutation_swap.
Qed.

Lemma sort_desc_perm (l : list A) : sort_desc key l ≡ₚ l.
Proof.
  induction l as [|x l IH]; simpl; [reflexivity|].
  rewrite insert_desc_perm. by rewrite IH.
Qed.

Lemma insert_desc_sorted (x : A) (l : list A) :
  StronglySorted (Desc key) l -> StronglySorted (Desc key) (insert_desc key x l).
Proof.
  induction l as [|y l IH]; simpl; intros Hs.
  - repeat constructor.
  - apply StronglySorted_inv in Hs as [Hs Hy].
    destruct (key x <? key y) eqn:E.
    + apply Z.ltb_lt in E. constructor; [by apply IH|].
      rewrite insert_desc_perm. constructor; [unfold Desc; lia | done].
    + apply Z.ltb_ge in E. constructor; [by constructor|].
      constructor; [unfold Desc; lia|].
      eapply Forall_impl; [exact Hy|]. unfold Desc. intros z Hz. simpl in Hz. lia.
Qed.

Lemma sort_desc_sorted (l : list A) : StronglySorted (Desc key) (sort_desc key l).
Proof.
  induction l as [|x l IH]; simpl; [constructor|].
  by apply insert_desc_sorted.
Qed.

Lemma sorted_sublist (R : relation A) (l1 l2 : list A) :
  l1 `sublist_of` l2 -> StronglySorted R l2 -> StronglySorted R l1.
Proof.
  induction 1 as [|x l1 l2 Hsub IH|x l1 l2 Hsub IH]; intros Hs.
  - constructor.
  - apply StronglySorted_inv in Hs as [Hs Hx].
    constructor; [by apply IH|].
    apply Forall_forall. intros y Hy. rewrite Forall_forall in Hx.
    apply Hx. eapply elem_of_sublist; eauto.
  - apply StronglySorted_inv in Hs as [Hs _]. by apply IH.
Qed.

(** The sort is stable: it leaves a list that is already in order as it is. *)
Lemma sort_desc_stable (l : list A) :
  StronglySorted (Desc key) l -> sort_desc key l = l.
Proof.
  induction 1 as [|x l Hs IH Hx]; simpl; [reflexivity|].
  rewrite IH. destruct l as [|y l]; simpl; [reflexivity|].
  apply Forall_cons in Hx as [Hy _]. unfold Desc in Hy.
  destruct (key x <? key y) eqn:E; [apply Z.ltb_lt in E; lia | reflexivity].
Qed.
End Sorting.

(** *** The heap after tagging and scoring *)

Lemma score_ignores_stored (f : finding) (v : value) :
  calculate_priority_score (<["priority_score" := v]> f) = calculate_priority_score f.
Proof.
  unfold calculate_priority_score, linear_score, get.
  by rewrite !lookup_insert_ne.
Qed.

Lemma flatten_inner (category : string) (fs : list ref) (st : heap * list ref) :
  (fold_left (tag category) fs st).2 = st.2 ++ fs
  /\ forall r k, k <> "category" ->
       (fold_left (tag category) fs st).1 r !! k = st.1 r !! k.
Proof.
  revert st. induction fs as [|r0 fs IH]; intros st; simpl.
  - split; [by rewrite app_nil_r | done].
  - destruct (IH (tag category st r0)) as [IH1 IH2]. split.
    + rewrite IH1. simpl. by rewrite <- app_assoc.
    + intros r k Hk. rewrite IH2 by done. simpl. unfold upd.
      case_decide; subst; [by rewrite lookup_insert_ne | done].
Qed.

Lemma flatten_outer (findings : findings_by_category) (st : heap * list ref) :
  (fold_left (fun st cf => fold_left (tag cf.1) cf.2 st) findings st).2
    = st.2 ++ concat (findings.*2)
  /\ forall r k, k <> "category" ->
       (fold_left (fun st cf => fold_left (tag cf.1) cf.2 st) findings st).1 r !! k
         = st.1 r !! k.
Proof.
  revert st. induction findings as [|[c fs] findings IH]; intros st; simpl.
  - split; [by rewrite app_nil_r | done].
  - destruct (IH (fold_left (tag c) fs st)) as [IH1 IH2].
    destruct (flatten_inner c fs st) as [F1 F2]. split.
    + rewrite IH1, F1. by rewrite <- app_assoc.
    + intros r k Hk. rewrite IH2, F2; done.
Qed.

(** [all_findings] holds the findings of every category, in order. *)
Lemma flatten_refs (findings : findings_by_category) (h : heap) :
  (flatten findings h).2 = concat (findings.*2).
Proof. unfold flatten. by rewrite (proj1 (flatten_outer findings (h, []))). Qed.

(** Tagging changes no field but the category. *)
Lemma flatten_frame (findings : findings_by_category) (h : heap) (r : ref) (k : string) :
  k <> "category" -> (flatten findings h).1 r !! k = h r !! k.
Proof. intros Hk. unfold flatten. by rewrite (proj2 (flatten_outer findings (h, []))). Qed.

(** Scoring changes no field but the stored score, and the score of a
    finding does not depend on the stored one. *)
Lemma score_all_frame (all : list ref) (h : heap) (r : ref) :
  (forall k, k <> "priority_score" -> score_all all h r !! k = h r !! k)
  /\ calculate_priority_score (score_all all h r) = calculate_priority_score (h r).
Proof.
  unfold score_all. revert h. induction all as [|r0 all IH]; intros h; simpl; [done|].
  destruct (IH (store_score h r0)) as [IH1 IH2]. split.
  - intros k Hk. rewrite IH1 by done. unfold store_score, upd.
    case_decide; subst; [by rewrite lookup_insert_ne | done].
  - rewrite IH2. unfold store_score, upd.
    case_decide; subst; [apply score_ignores_stored | done].
Qed.

Lemma score_all_other (all : list ref) (h : heap) (r : ref) :
  r ∉ all -> score_all all h r = h r.
Proof.
  unfold score_all. revert h. induction all as [|r0 all IH]; intros h Hr; simpl; [done|].
  apply not_elem_of_cons in Hr as [Hne Hr].
  rewrite IH by done. unfold store_score, upd. by rewrite decide_False.
Qed.

(** After the loop every listed finding stores its own score. *)
Lemma score_all_stored (all : list ref) (h : heap) (r : ref) :
  r ∈ all ->
  score_all all h r !! "priority_score"
    = Some (VInt (calculate_priority_score (score_all all h r))).
Proof.
  rewrite (proj2 (score_all_frame all h r)).
  revert h. induction all as [|r0 all IH]; intros h Hin; [by apply elem_of_nil in Hin|].
  change (score_all (r0 :: all) h) with (score_all all (store_score h r0)).
  destruct (decide (r ∈ all)) as [Hr|Hr].
  - rewrite IH by done. unfold store_score, upd.
    case_decide; subst; [by rewrite score_ignores_stored | done].
  - apply elem_of_cons in Hin as [->|?]; [|done].
    rewrite score_all_other by done.
    unfold store_score, upd. rewrite decide_True by done.
    by rewrite lookup_insert_eq.
Qed.

Lemma priority_score_stored (all : list ref) (h : heap) (r : ref) :
  r ∈ all ->
  priority_score (score_all all h) r = calculate_priority_score (score_all all h r).
Proof. intros Hr. unfold priority_score. by rewrite score_all_stored. Qed.

(** *** The buckets *)

(** [select] is the filter on the severity; it raises [KeyError] when a
    finding has no severity. *)
Definition has_severity (h : heap) (sev : string) (r : ref) : Prop :=
  h r !! "severity" = Some (VStr sev).

#[global] Instance has_severity_dec h sev r : Decision (has_severity h sev r).
Proof. unfold has_severity. apply _. Defined.

Lemma select_ok (h : heap) (sev : string) (all : list ref) :
  Forall (fun r => is_Some (h r !! "severity")) all ->
  select h sev all = Ok (filter (has_severity h sev) all).
Proof.
  induction 1 as [|r all [v Hv] Hall IH]; simpl; [done|].
  unfold getitem. rewrite Hv. simpl. rewrite IH. simpl.
  rewrite filter_cons.
  destruct (is_str v sev) eqn:E.
  - apply is_str_true in E. subst. by rewrite decide_True.
  - apply is_str_false in E. rewrite decide_False; [done|].
    unfold has_severity. congruence.
Qed.

Lemma select_inv (h : heap) (sev : string) (all l : list ref) :
  select h sev all = Ok l ->
  Forall (fun r => is_Some (h r !! "severity")) all.
Proof.
  revert l. induction all as [|r all IH]; simpl; intros l Hsel; [constructor|].
  unfold getitem in Hsel. destruct (h r !! "severity") as [v|] eqn:Hv; [|done].
  simpl in Hsel. destruct (select h sev all) as [tl|] eqn:Htl; [|done].
  constructor; [by eexists | by eapply IH].
Qed.

Lemma select_raise (h : heap) (sev : string) (all : list ref) (e : exn) :
  select h sev all = Raise e -> e = KeyError.
Proof.
  induction all as [|r all IH]; simpl; [done|].
  unfold getitem. destruct (h r !! "severity") as [v|]; simpl; [|congruence].
  destruct (select h sev all) as [tl|e'] eqn:Htl; simpl; [done|].
  intros [= <-]. by apply IH.
Qed.

Lemma render_entries_printed (h : heap) (issues : list ref) (i : nat) (es : list entry) :
  render_entries h i issues = Ok es ->
  printed <$> es = issues /\ number <$> es = seq i (length issues).
Proof.
  revert i es. induction issues as [|r issues IH]; simpl; intros i es Hr.
  - by injection Hr as <-.
  - destruct (value_upper _) as [e|]; [|done]. simpl in Hr.
    destruct (render_entries h (S i) issues) as [tl|] eqn:Htl; [|done].
    injection Hr as <-. destruct (IH _ _ Htl) as [IH1 IH2].
    rewrite !fmap_cons, IH1, IH2. done.
Qed.

(** A string, or nothing: the fields on which the plan calls a string method. *)
Definition str_or_missing (o : option value) : Prop :=
  match o with
  | Some (VInt _) => False
  | _ => True
  end.

Lemma render_entries_ok (h : heap) (issues : list ref) (i : nat) :
  Forall (fun r => str_or_missing (h r !! "effort")) issues ->
  exists es, render_entries h i issues = Ok es.
Proof.
  intros Hall. revert i. induction Hall as [|r issues Hr Hall IH]; intros i; simpl.
  - by eexists.
  - destruct (IH (S i)) as [tl ->]. unfold get.
    destruct (h r !! "effort") as [[s|z]|]; simpl in *; try done; by eexists.
Qed.

Lemma add_to_group_keys (v : value) (groups : list (value * nat)) (k : value) :
  k ∈ (add_to_group v groups).*1 -> k = v \/ k ∈ groups.*1.
Proof.
  induction groups as [|[k' n] groups IH]; simpl.
  - intros ->%list_elem_of_singleton. by left.
  - case_decide; subst; simpl; rewrite !elem_of_cons; naive_solver.
Qed.

Lemma group_keys (h : heap) (issues : list ref) (groups : list (value * nat)) (k : value) :
  k ∈ (fold_left (fun groups r =>
          add_to_group (get (h r) "subcategory" (VStr "Other")) groups) issues groups).*1 ->
  k ∈ groups.*1 \/ exists r, r ∈ issues /\ k = get (h r) "subcategory" (VStr "Other").
Proof.
  revert groups. induction issues as [|r issues IH]; simpl; intros groups Hk; [by left|].
  apply IH in Hk as [Hk|(r' & Hr' & ->)].
  - apply add_to_group_keys in Hk as [->|Hk]; [right|by left].
    exists r. split; [left | done].
  - right. exists r'. split; [by right | done].
Qed.

Lemma render_groups_ok (groups : list (value * nat)) :
  Forall (fun k => exists s, k = VStr s) groups.*1 ->
  exists gs, render_groups groups = Ok gs.
Proof.
  induction groups as [|[k n] groups IH]; simpl; intros Hall; [by eexists|].
  apply Forall_cons in Hall as [[s ->] Hall].
  destruct (IH Hall) as [gs ->]. by eexists.
Qed.

(** *** The plan *)

(** What the plan asks of its input: a severity on every finding (line 47
    reads [f['severity']]), and strings where it calls string methods. *)
Definition well_formed (h : heap) (findings : findings_by_category) : Prop :=
  forall r, r ∈ concat (findings.*2) ->
    is_Some (h r !! "severity")
    /\ str_or_missing (h r !! "effort")
    /\ str_or_missing (h r !! "subcategory").

(** What a section of the plan prints, against the buckets. *)
Definition section_of (h : heap) (b : buckets) (s : section) : Prop :=
  match s with
  | Priority0 es =>
      printed <$> es = p0_issues b
      /\ StronglySorted (Desc (priority_score h)) (printed <$> es)
  | Priority1 es more =>
      printed <$> es = take 10 (p1_issues b)
      /\ StronglySorted (Desc (priority_score h)) (printed <$> es)
      /\ more = (length (p1_issues b) - 10)%nat
  | Priority2 total _ => total = length (p2_issues b)
  | Priority3 total => total = length (p3_issues b)
  end.

(** The outcome of lines 32-50 on the heap and the buckets. *)
Definition prioritized (findings : findings_by_category) (h h' : heap) (b : buckets) : Prop :=
  all_findings b ≡ₚ concat (findings.*2)
  /\ StronglySorted (Desc (priority_score h')) (all_findings b)
  /\ (forall r k, k <> "category" -> k <> "priority_score" -> h' r !! k = h r !! k)
  /\ (forall r, r ∈ all_findings b ->
        priority_score h' r = calculate_priority_score (h' r))
  /\ p0_issues b = filter (has_severity h' "critical") (all_findings b)
  /\ p1_issues b = filter (has_severity h' "high") (all_findings b)
  /\ p2_issues b = filter (has_severity h' "medium") (all_findings b)
  /\ p3_issues b = filter (has_severity h' "low") (all_findings b).

Lemma prioritize_frame (findings : findings_by_category) (h : heap) (r : ref) (k : string) :
  k <> "category" -> k <> "priority_score" ->
  score_all (flatten findings h).2 (flatten findings h).1 r !! k = h r !! k.
Proof.
  intros Hc Hp. rewrite (proj1 (score_all_frame _ _ r)) by done.
  by apply flatten_frame.
Qed.

Lemma prioritize_spec (findings : findings_by_category) (h : heap) :
  match prioritize findings h with
  | Ok (h', b) => prioritized findings h h' b
  | Raise e =>
      e = KeyError /\ exists r, r ∈ concat (findings.*2) /\ h r !! "severity" = None
  end.
Proof.
  unfold prioritize.
  destruct (flatten findings h) as [h1 all] eqn:Hfl.
  assert (Hall : all = concat (findings.*2)).
  { by rewrite <- (flatten_refs findings h), Hfl. }
  assert (Hframe : forall r k, k <> "category" -> k <> "priority_score" ->
            score_all all h1 r !! k = h r !! k).
  { intros r k Hc Hp. pose proof (prioritize_frame findings h r k Hc Hp) as Hf.
    by rewrite Hfl in Hf. }
  set (h2 := score_all all h1) in *.
  set (sorted := sort_desc (priority_score h2) all).
  assert (Hperm : sorted ≡ₚ all) by apply sort_desc_perm.
  destruct (decide (Forall (fun r => is_Some (h2 r !! "severity")) sorted)) as [Hsev|Hsev].
  - rewrite !select_ok by done. simpl.
    unfold prioritized. simpl. repeat split; try done.
    + subst all. exact Hperm.
    + apply sort_desc_sorted.
    + intros r Hr. apply priority_score_stored.
      eapply elem_of_Permutation_proper; [symmetry; exact Hperm | exact Hr].
  - destruct (select h2 "critical" sorted) as [p0|e] eqn:H0.
    { apply select_inv in H0. done. }
    simpl. split; [by eapply select_raise|].
    apply not_Forall_Exists in Hsev; [|apply _].
    apply Exists_exists in Hsev as (r & Hr & Hnone).
    exists r. split.
    { subst all. eapply elem_of_Permutation_proper; [symmetry; exact Hperm | exact Hr]. }
    rewrite <- Hframe by done.
    apply eq_None_not_Some. exact Hnone.
Qed.

Lemma filter_severity_sorted (h : heap) (sev : string) (l : list ref) :
  StronglySorted (Desc (priority_score h)) l ->
  StronglySorted (Desc (priority_score h)) (filter (has_severity h sev) l).
Proof. apply sorted_sublist, sublist_filter. Qed.

Lemma render_spec (h : heap) (b : buckets) (doc : list section) :
  StronglySorted (Desc (priority_score h)) (p0_issues b) ->
  StronglySorted (Desc (priority_score h)) (p1_issues b) ->
  render h b = Ok doc ->
  Forall (section_of h b) doc.
Proof.
  intros S0 S1. unfold render, when.
  destruct (nonempty (p0_issues b)).
  2: destruct (nonempty (p1_issues b)).
  1: destruct (render_entries h 1 (p0_issues b)) as [es0|] eqn:E0; [|done];
     destruct (nonempty (p1_issues b)).
  all: try (destruct (render_entries h 1 (take 10 (p1_issues b))) as [es1|] eqn:E1; [|done]).
  all: destruct (nonempty (p2_issues b)).
  all: try (destruct (render_groups _) as [gs|]; [|done]).
  all: destruct (nonempty (p3_issues b)); simpl; intros [= <-].
  all: repeat apply Forall_cons_2; try apply Forall_nil_2; simpl; try done.
  all: try (apply render_entries_printed in E0 as [E0 _]; rewrite E0; done).
  all: apply render_entries_printed in E1 as [E1 _]; rewrite E1;
       (split; [done|]; split; [|done]);
       eapply sorted_sublist; [apply sublist_take | done].
Qed.

Lemma render_ok (findings : findings_by_category) (h h' : heap) (b : buckets) :
  prioritized findings h h' b -> well_formed h findings ->
  exists doc, render h' b = Ok doc.
Proof.
  intros (Hperm & _ & Hframe & _ & H0 & H1 & H2 & _) Hwf.
  assert (Hin : forall sev r, r ∈ filter (has_severity h' sev) (all_findings b) ->
                  r ∈ concat (findings.*2)).
  { intros sev r Hr. apply list_elem_of_filter in Hr as [_ Hr].
    eapply elem_of_Permutation_proper; [symmetry; exact Hperm | exact Hr]. }
  assert (Heff : forall sev l, l `sublist_of` filter (has_severity h' sev) (all_findings b) ->
                   Forall (fun r => str_or_missing (h' r !! "effort")) l).
  { intros sev l Hl. apply Forall_forall. intros r Hr.
    rewrite Hframe by done. apply Hwf, (Hin sev). by eapply elem_of_sublist. }
  unfold render, when.
  assert (E0 : exists es, render_entries h' 1 (p0_issues b) = Ok es).
  { apply render_entries_ok. rewrite H0. by apply (Heff "critical"). }
  assert (E1 : exists es, render_entries h' 1 (take 10 (p1_issues b)) = Ok es).
  { apply render_entries_ok. rewrite H1. apply (Heff "high"), sublist_take. }
  assert (E2 : exists gs, render_groups (group_by_subcategory h' (p2_issues b)) = Ok gs).
  { apply render_groups_ok, Forall_forall. intros k Hk.
    apply group_keys in Hk as [Hk|(r & Hr & ->)]; [by apply elem_of_nil in Hk|].
    rewrite H2 in Hr. apply Hin, Hwf in Hr as (_ & _ & Hsub).
    unfold get. rewrite Hframe by done.
    destruct (h r !! "subcategory") as [[s|z]|]; simpl in *; try done; by eexists. }
  destruct E0 as [es0 ->], E1 as [es1 ->], E2 as [gs ->].
  destruct (nonempty (p0_issues b)), (nonempty (p1_issues b)),
    (nonempty (p2_issues b)), (nonempty (p3_issues b)); simpl; by eexists.
Qed.

(** C7. The priority score is the clamped linear formula
    max(0, impact*10 + frequency*5 - effort*2) with impact read from the
    severity, frequency from the category and effort from the effort field;
    and the plan, which is produced for every well-formed input, holds in
    P0..P3 exactly the findings whose severity is critical, high, medium,
    low, each bucket and each printed section in non-increasing order of the
    stored priority score. *)
Theorem priority_formula_and_severity_buckets
  (f : finding) (findings : findings_by_category) (h : heap) :
  calculate_priority_score f
    = Z.max 0 (impact_of f * 10 + frequency_of f * 5 - effort_of f * 2)
  /\ match generate_remediation_plan findings h with
     | Ok (h', b, doc) =>
         prioritized findings h h' b
         /\ StronglySorted (Desc (priority_score h')) (p0_issues b)
         /\ StronglySorted (Desc (priority_score h')) (p1_issues b)
         /\ StronglySorted (Desc (priority_score h')) (p2_issues b)
         /\ StronglySorted (Desc (priority_score h')) (p3_issues b)
         /\ Forall (section_of h' b) doc
     | Raise e => ~ well_formed h findings
     end.
Proof.
  split; [apply score_formula|].
  unfold generate_remediation_plan.
  pose proof (prioritize_spec findings h) as Hp.
  destruct (prioritize findings h) as [[h' b]|e]; simpl.
  - pose proof Hp as (_ & Hs & _ & _ & H0 & H1 & H2 & H3).
    assert (S0 : StronglySorted (Desc (priority_score h')) (p0_issues b)).
    { rewrite H0. by apply filter_severity_sorted. }
    assert (S1 : StronglySorted (Desc (priority_score h')) (p1_issues b)).
    { rewrite H1. by apply filter_severity_sorted. }
    destruct (render h' b) as [doc|e] eqn:Hr; simpl.
    + split; [exact Hp|]. split; [exact S0|]. split; [exact S1|].
      split; [rewrite H2; by apply filter_severity_sorted|].
      split; [rewrite H3; by apply filter_severity_sorted|].
      by eapply render_spec.
    + intros Hwf. destruct (render_ok _ _ _ _ Hp Hwf) as [doc Hdoc]. congruence.
  - destruct Hp as (_ & r & Hr & Hnone). intros Hwf.
    destruct (Hwf r Hr) as [[v Hv] _]. congruence.
Qed.

(** C10. The linear sum is at least 9 for every finding (impact at least 1,
    frequency at least 3, effort at most 8), so the score is at least 9 and
    the clamp at 0 leaves the sum as it is. *)
Theorem priority_score_at_least_9 (f : finding) :
  1 * 10 <= impact_of f * 10
  /\ 3 * 5 <= frequency_of f * 5
  /\ effort_of f * 2 <= 8 * 2
  /\ 9 <= linear_score f
  /\ 9 <= calculate_priority_score f
  /\ calculate_priority_score f = linear_score f.
Proof.
  pose proof (impact_bounds f). pose proof (frequency_bounds f).
  pose proof (effort_bounds f). pose proof (linear_score_formula f).
  unfold calculate_priority_score. lia.
Qed.

(** The bound is met: an unrecognized severity, a category outside the
    two lists and a high effort score 9. *)
Example priority_score_9 :
  calculate_priority_score
    {[ "severity" := VStr "info"; "category" := VStr "docs"; "effort" := VStr "high" ]} = 9.
Proof. vm_compute. reflexivity. Qed.

(** A run of the planner: four findings in two categories, one of them
    listed under both (the same object, so the later category wins). *)
Definition example_heap : heap := fun r =>
  match r with
  | 0%nat => {[ "severity" := VStr "high"; "effort" := VStr "low"; "title" := VStr "a" ]}
  | 1%nat => {[ "severity" := VStr "critical"; "effort" := VStr "high" ]}
  | 2%nat => {[ "severity" := VStr "high"; "effort" := VStr "high" ]}
  | _ => {[ "severity" := VStr "low" ]}
  end.

Definition example_findings : findings_by_category :=
  [("quality", [0; 2; 3]%nat); ("security", [1; 2]%nat)].

Example example_plan :
  match generate_remediation_plan example_findings example_heap with
  | Ok (h', b, doc) =>
      all_findings b = [1; 2; 2; 0; 3]%nat
      /\ priority_score h' <$> all_findings b = [134; 104; 104; 96; 40]
      /\ doc = [Priority0 [Entry 1 1%nat "HIGH"];
                Priority1 [Entry 1 2%nat "HIGH"; Entry 2 2%nat "HIGH"; Entry 3 0%nat "LOW"] 0;
                Priority3 1]
  | Raise _ => False
  end.
Proof. vm_compute. repeat split; reflexivity. Qed.

Lemma example_well_formed : well_formed example_heap example_findings.
Proof.
  intros r Hr. simpl in Hr.
  repeat (apply elem_of_cons in Hr as [->|Hr]; [vm_compute; eauto|]).
  by apply elem_of_nil in Hr.
Qed.

End Planner.

(** ** Binary floating point (IEEE 754 binary64, Python's [float]) *)

Module Float64.

(** A float: a finite number, which is a rational, an infinity, or the
    value that is not a number. Zero has no sign here: the code asks for
    none. *)
Inductive float64 : Type :=
| Fin (q : Q)
| Inf (negative : bool)
| NaN.

(** The integer part of the binary logarithm of a positive rational. *)
Definition ilog2 (x : Q) : Z :=
  let k := Z.log2 (Qnum x) - Z.log2 (Zpos (Qden x)) in
  if Qle_bool (2 ^ k) x then k else k - 1.

(** The nearest integer, the even one of two that are as near. *)
Definition nearest_even (m : Q) : Z :=
  let f := Qfloor m in
  match (m - inject_Z f ?= 1 # 2)%Q with
  | Lt => f
  | Gt => f + 1
  | Eq => if Z.even f then f else f + 1
  end.

(** A positive rational to the nearest float: 53 bits, exponents from
    -1022 to 1023, the subnormal numbers below. *)
Definition scale (x : Q) : Z := Z.max (ilog2 x) (-1022) - 52.

Definition rounded (x : Q) : Q :=
  (inject_Z (nearest_even (x / 2 ^ scale x)) * 2 ^ scale x)%Q.

Definition round_positive (x : Q) : float64 :=
  if Qle_bool (2 ^ 1024) (rounded x) then Inf false else Fin (Qred (rounded x)).

Definition opp (f : float64) : float64 :=
  match f with
  | Fin q => Fin (Qred (- q))
  | Inf negative => Inf (negb negative)
  | NaN => NaN
  end.

Definition round (x : Q) : float64 :=
  let x := Qred x in
  match (x ?= 0)%Q with
  | Eq => Fin 0
  | Gt => round_positive x
  | Lt => opp (round_positive (- x))
  end.

(** *** Powers of two *)

Lemma pow2_pos (k : Z) : (0 < 2 ^ k)%Q.
Proof. by apply Qpower_0_lt. Qed.

Lemma pow2_add (a b : Z) : (2 ^ (a + b) == 2 ^ a * 2 ^ b)%Q.
Proof. by apply Qpower_plus. Qed.

Lemma pow2_sub (a b : Z) : (2 ^ (a - b) == 2 ^ a / 2 ^ b)%Q.
Proof. by apply Qpower_minus. Qed.

Lemma pow2_le (a b : Z) : a <= b -> (2 ^ a <= 2 ^ b)%Q.
Proof. intros H. apply Qpower_le_compat_l; [done | lra]. Qed.

Lemma pow2_lt (a b : Z) : a < b -> (2 ^ a < 2 ^ b)%Q.
Proof. intros H. apply Qpower_lt_compat_l; [done | lra]. Qed.

Lemma pow2_succ (a : Z) : (2 ^ (a + 1) == 2 * 2 ^ a)%Q.
Proof. rewrite pow2_add. change (2 ^ 1)%Q with 2%Q. ring. Qed.

Lemma pow2_Z (k : Z) : 0 <= k -> (2 ^ k == inject_Z (2 ^ k))%Q.
Proof. intros H. by rewrite Zpower_Qpower. Qed.

(** *** The logarithm *)

Lemma Q_as_fraction (x : Q) : (x == inject_Z (Qnum x) / inject_Z (Zpos (Qden x)))%Q.
Proof. destruct x as [p q]. unfold Qeq, Qdiv, Qmult, Qinv, inject_Z. simpl. lia. Qed.

Lemma ilog2_spec (x : Q) :
  (0 < x)%Q -> (2 ^ ilog2 x <= x /\ x < 2 ^ (ilog2 x + 1))%Q.
Proof.
  intros Hx.
  assert (Hp : 0 < Qnum x) by (destruct x; unfold Qlt in Hx; simpl in *; lia).
  set (p := Qnum x) in *. set (q := Zpos (Qden x)).
  assert (Hq : 0 < q) by done.
  pose proof (Z.log2_spec p Hp) as [Hp1 Hp2].
  pose proof (Z.log2_spec q Hq) as [Hq1 Hq2].
  pose proof (Z.log2_nonneg p) as Ha. pose proof (Z.log2_nonneg q) as Hb.
  set (a := Z.log2 p) in *. set (b := Z.log2 q) in *.
  assert (Hxq : (x == inject_Z p / inject_Z q)%Q) by apply Q_as_fraction.
  assert (Hqpos : (0 < inject_Z q)%Q) by (unfold Qlt, inject_Z; simpl; lia).
  (* p and q between powers of two, as rationals *)
  assert (Pp1 : (2 ^ a <= inject_Z p)%Q).
  { rewrite pow2_Z by done. by rewrite <- Zle_Qle. }
  assert (Pp2 : (inject_Z p < 2 ^ (a + 1))%Q).
  { rewrite pow2_Z by lia. rewrite <- Zlt_Qlt. by rewrite <- Z.add_1_r in Hp2. }
  assert (Pq1 : (2 ^ b <= inject_Z q)%Q).
  { rewrite pow2_Z by done. by rewrite <- Zle_Qle. }
  assert (Pq2 : (inject_Z q < 2 ^ (b + 1))%Q).
  { rewrite pow2_Z by lia. rewrite <- Zlt_Qlt. by rewrite <- Z.add_1_r in Hq2. }
  assert (Hxq' : (x * inject_Z q == inject_Z p)%Q).
  { rewrite Hxq. field. lra. }
  (* x between 2^(a-b-1) and 2^(a-b+1) *)
  assert (Hup : (x < 2 ^ (a - b + 1))%Q).
  { replace (a - b + 1) with ((a + 1) - b) by lia. rewrite pow2_sub.
    pose proof (pow2_pos b). apply Qlt_shift_div_l; [done|]. nra. }
  assert (Hlow : (2 ^ (a - b - 1) < x)%Q).
  { replace (a - b - 1) with (a - (b + 1)) by lia. rewrite pow2_sub.
    pose proof (pow2_pos (b + 1)). apply Qlt_shift_div_r; [done|]. nra. }
  unfold ilog2. fold p q a b.
  destruct (Qle_bool (2 ^ (a - b)) x) eqn:E.
  - apply Qle_bool_iff in E. done.
  - assert (x < 2 ^ (a - b))%Q.
    { apply Qnot_le_lt. intros H. apply Qle_bool_iff in H. congruence. }
    replace (a - b - 1 + 1) with (a - b) by lia. split; [by apply Qlt_le_weak | done].
Qed.

(** The logarithm of a number between two powers of two. *)
Lemma ilog2_unique (x : Q) (e : Z) :
  (2 ^ e <= x)%Q -> (x < 2 ^ (e + 1))%Q -> ilog2 x = e.
Proof.
  intros H1 H2.
  assert (Hx : (0 < x)%Q) by (pose proof (pow2_pos e); lra).
  destruct (ilog2_spec x Hx) as [L1 L2].
  destruct (Z.lt_trichotomy (ilog2 x) e) as [H|[H|H]]; [|done|].
  - pose proof (pow2_le (ilog2 x + 1) e ltac:(lia)). lra.
  - pose proof (pow2_le (e + 1) (ilog2 x) ltac:(lia)). lra.
Qed.

Lemma ilog2_mono (x y : Q) : (0 < x)%Q -> (x <= y)%Q -> ilog2 x <= ilog2 y.
Proof.
  intros Hx Hxy.
  destruct (ilog2_spec x Hx) as [X1 X2].
  destruct (ilog2_spec y ltac:(lra)) as [Y1 Y2].
  destruct (Z_le_gt_dec (ilog2 x) (ilog2 y)) as [H|H]; [done|].
  pose proof (pow2_le (ilog2 y + 1) (ilog2 x) ltac:(lia)). lra.
Qed.

(** *** Rounding to an integer *)

Lemma floor_bounds (m : Q) :
  (inject_Z (Qfloor m) <= m /\ m < inject_Z (Qfloor m) + 1)%Q.
Proof.
  split; [apply Qfloor_le|].
  pose proof (Qlt_floor m) as H. by rewrite inject_Z_plus in H.
Qed.

Lemma nearest_even_cases (m : Q) :
  let f := Qfloor m in
  (nearest_even m = f /\ (m - inject_Z f <= 1 # 2)%Q)
  \/ (nearest_even m = f + 1 /\ (1 # 2 <= m - inject_Z f)%Q).
Proof.
  cbv zeta. unfold nearest_even.
  destruct (Qcompare_spec (m - inject_Z (Qfloor m)) (1 # 2)) as [H|H|H].
  - destruct (Z.even (Qfloor m)); [left | right]; (split; [done | lra]).
  - left. split; [done | lra].
  - right. split; [done | lra].
Qed.

Lemma nearest_even_near (m : Q) :
  (m - (1 # 2) <= inject_Z (nearest_even m) /\ inject_Z (nearest_even m) <= m + (1 # 2))%Q.
Proof.
  destruct (floor_bounds m) as [F1 F2].
  destruct (nearest_even_cases m) as [[-> H]|[-> H]]; rewrite ?inject_Z_plus;
    change (inject_Z 1) with 1%Q; lra.
Qed.

Lemma nearest_even_int (m : Q) (z : Z) : (m == inject_Z z)%Q -> nearest_even m = z.
Proof.
  intros Hm. unfold nearest_even.
  assert (Hf : Qfloor m = z) by (rewrite Hm; apply Qfloor_Z).
  rewrite Hf.
  destruct (Qcompare_spec (m - inject_Z z) (1 # 2)) as [H|H|H]; [lra | done | lra].
Qed.

Lemma nearest_even_mono (m m' : Q) : (m <= m')%Q -> nearest_even m <= nearest_even m'.
Proof.
  intros Hm. pose proof (Qfloor_resp_le _ _ Hm) as Hf.
  destruct (floor_bounds m) as [F1 F2]. destruct (floor_bounds m') as [F1' F2'].
  destruct (Z_lt_le_dec (Qfloor m) (Qfloor m')) as [Hlt|Hge].
  - destruct (nearest_even_cases m) as [[-> _]|[-> _]];
    destruct (nearest_even_cases m') as [[-> _]|[-> _]]; lia.
  - assert (Heq : Qfloor m' = Qfloor m) by lia.
    unfold nearest_even. rewrite Heq.
    destruct (Qcompare_spec (m - inject_Z (Qfloor m)) (1 # 2)) as [H|H|H];
    destruct (Qcompare_spec (m' - inject_Z (Qfloor m)) (1 # 2)) as [H'|H'|H'];
      try lia; try lra; destruct (Z.even (Qfloor m)); lia.
Qed.

Lemma nearest_even_le (m : Q) (z : Z) : (m <= inject_Z z)%Q -> nearest_even m <= z.
Proof.
  intros H. rewrite <- (nearest_even_int (inject_Z z) z) by done.
  by apply nearest_even_mono.
Qed.

Lemma nearest_even_ge (m : Q) (z : Z) : (inject_Z z <= m)%Q -> z <= nearest_even m.
Proof.
  intros H. rewrite <- (nearest_even_int (inject_Z z) z) at 1 by done.
  by apply nearest_even_mono.
Qed.

(** *** Rounding a positive number *)

(** Half the distance of two floats next to each other, relative to the
    numbers: 2^-53. *)
Definition u : Q := (2 ^ (-53))%Q.

Lemma half_pow2 (s : Z) : (2 ^ (s - 1) == 2 ^ s * (1 # 2))%Q.
Proof. rewrite pow2_sub. change (2 ^ 1)%Q with 2%Q. field. Qed.

Lemma rounded_near (x : Q) :
  (x - 2 ^ (scale x - 1) <= rounded x /\ rounded x <= x + 2 ^ (scale x - 1))%Q.
Proof.
  unfold rounded. set (s := scale x). pose proof (pow2_pos s) as Hs.
  destruct (nearest_even_near (x / 2 ^ s)) as [N1 N2].
  set (n := inject_Z (nearest_even (x / 2 ^ s))) in *.
  assert (Hx : (x == x / 2 ^ s * 2 ^ s)%Q) by (field; lra).
  rewrite half_pow2. set (m := (x / 2 ^ s)%Q) in *. nra.
Qed.

Lemma ilog2_normal (x : Q) : (2 ^ (-1022) <= x)%Q -> -1022 <= ilog2 x.
Proof.
  intros Hx. rewrite <- (ilog2_unique (2 ^ (-1022)) (-1022)).
  - apply ilog2_mono; [apply pow2_pos | done].
  - lra.
  - by apply pow2_lt.
Qed.

(** In the range of the normal numbers the error is at most [u] times the
    number. *)
Lemma rounded_normal (x : Q) :
  (2 ^ (-1022) <= x)%Q -> (x * (1 - u) <= rounded x /\ rounded x <= x * (1 + u))%Q.
Proof.
  intros Hx. pose proof (ilog2_normal x Hx) as He.
  assert (Hpos : (0 < x)%Q) by (pose proof (pow2_pos (-1022)); lra).
  destruct (ilog2_spec x Hpos) as [L1 _].
  destruct (rounded_near x) as [R1 R2].
  assert (Hs : (2 ^ (scale x - 1) == 2 ^ ilog2 x * u)%Q).
  { unfold scale, u. rewrite Z.max_l by lia.
    replace (ilog2 x - 52 - 1) with (ilog2 x + -53) by lia. apply pow2_add. }
  rewrite Hs in R1, R2.
  assert (Hu : (0 < u)%Q) by apply pow2_pos.
  set (p := (2 ^ ilog2 x)%Q) in *. nra.
Qed.

Lemma scale_small (x : Q) : (0 < x)%Q -> (x <= 2 ^ (-1022))%Q -> scale x = -1074.
Proof.
  intros Hpos Hx. unfold scale.
  assert (ilog2 x <= -1022); [|lia].
  rewrite <- (ilog2_unique (2 ^ (-1022)) (-1022)).
  - by apply ilog2_mono.
  - lra.
  - by apply pow2_lt.
Qed.

(** Below the normal numbers the results are non-negative and stay
    below them. *)
Lemma rounded_small (x : Q) :
  (0 < x)%Q -> (x <= 2 ^ (-1022))%Q -> (0 <= rounded x /\ rounded x <= 2 ^ (-1022))%Q.
Proof.
  intros Hpos Hx. unfold rounded. rewrite (scale_small x Hpos Hx).
  pose proof (pow2_pos (-1074)) as Hs.
  assert (H0 : 0 <= nearest_even (x / 2 ^ (-1074))).
  { apply nearest_even_ge. apply Qle_shift_div_l; [done|].
    change (inject_Z 0) with 0%Q. lra. }
  assert (H1 : nearest_even (x / 2 ^ (-1074)) <= 2 ^ 52).
  { apply nearest_even_le. apply Qle_shift_div_r; [done|].
    rewrite <- pow2_Z, <- pow2_add by done. done. }
  rewrite Zle_Qle in H0, H1. rewrite <- pow2_Z in H1 by done.
  set (n := inject_Z (nearest_even (x / 2 ^ (-1074)))) in *.
  change (inject_Z 0) with 0%Q in H0.
  assert (Hp : (2 ^ (-1022) == 2 ^ 52 * 2 ^ (-1074))%Q) by (by rewrite <- pow2_add).
  rewrite Hp. split; [apply Qmult_le_0_compat; lra|].
  apply Qmult_le_compat_r; lra.
Qed.

(** A multiple of a power of two that is no smaller than the distance of
    the floats around the number is a float. *)
Lemma rounded_exact (x : Q) (z k : Z) :
  (x == inject_Z z * 2 ^ k)%Q -> scale x <= k -> (rounded x == x)%Q.
Proof.
  intros Hx Hk. unfold rounded. set (s := scale x) in *.
  pose proof (pow2_pos s) as Hs.
  assert (Hm : (x / 2 ^ s == inject_Z (z * 2 ^ (k - s)))%Q).
  { rewrite inject_Z_mult, <- pow2_Z by lia. rewrite Hx, pow2_sub. field. lra. }
  rewrite (nearest_even_int _ _ Hm), <- Hm. field. lra.
Qed.

(** The largest float is 2^1024 - 2^971; what is nearer to 2^1024 than to
    it, or as near, is out of range. *)
Definition out_of_range : Q := (2 ^ 1024 - 2 ^ 970)%Q.

Lemma scale_in_range (x : Q) : (0 < x)%Q -> (x < 2 ^ 1024)%Q -> scale x <= 971.
Proof.
  intros Hpos Hx. unfold scale. destruct (ilog2_spec x Hpos) as [L1 _].
  assert (ilog2 x < 1024); [|lia].
  destruct (Z_lt_le_dec (ilog2 x) 1024) as [H|H]; [done|].
  pose proof (pow2_le 1024 (ilog2 x) H). lra.
Qed.

Lemma rounded_in_range (x : Q) :
  (0 < x)%Q -> (x < out_of_range)%Q -> (rounded x < 2 ^ 1024)%Q.
Proof.
  unfold out_of_range. intros Hpos Hx. pose proof (pow2_pos 970).
  destruct (rounded_near x) as [_ R2].
  pose proof (pow2_le (scale x - 1) 970) as Hs.
  pose proof (scale_in_range x Hpos ltac:(lra)). specialize (Hs ltac:(lia)). lra.
Qed.

Lemma rounded_out_of_range (x : Q) :
  (out_of_range <= x)%Q -> (2 ^ 1024 <= rounded x)%Q.
Proof.
  intros Hx.
  assert (Hbig : (2 ^ 1023 <= out_of_range)%Q).
  { unfold out_of_range. rewrite (pow2_succ 1023 : (2 ^ 1024 == _)%Q).
    pose proof (pow2_le 970 1023 ltac:(lia)). lra. }
  assert (Hpos : (0 < x)%Q) by (pose proof (pow2_pos 1023); lra).
  destruct (ilog2_spec x Hpos) as [L1 L2].
  assert (He : 1023 <= ilog2 x).
  { rewrite <- (ilog2_unique (2 ^ 1023) 1023);
      [apply ilog2_mono; [apply pow2_pos | lra] | lra | by apply pow2_lt]. }
  unfold rounded, scale. rewrite Z.max_l by lia.
  set (s := ilog2 x - 52). pose proof (pow2_pos s) as Hs.
  destruct (Z_le_gt_dec 1024 (ilog2 x)) as [Hge|Hlt].
  - (* at least 2^1024 *)
    assert (Hn : 2 ^ 52 <= nearest_even (x / 2 ^ s)).
    { apply nearest_even_ge. apply Qle_shift_div_l; [done|].
      rewrite <- pow2_Z, <- pow2_add by done.
      by replace (52 + s) with (ilog2 x) by (unfold s; lia). }
    rewrite Zle_Qle in Hn. rewrite <- pow2_Z in Hn by done.
    apply Qle_trans with (2 ^ 52 * 2 ^ s)%Q.
    + rewrite <- pow2_add. apply pow2_le. unfold s. lia.
    + apply Qmult_le_compat_r; lra.
  - (* between the largest float and 2^1024 *)
    assert (s = 971) as -> by (unfold s; lia).
    assert (Hn : 2 ^ 53 <= nearest_even (x / 2 ^ 971)).
    { assert (Ht : nearest_even (inject_Z (2 ^ 53) - (1 # 2)) = 2 ^ 53)
        by (vm_compute; reflexivity).
      rewrite <- Ht at 1. apply nearest_even_mono. apply Qle_shift_div_l; [done|].
      unfold out_of_range in Hx. rewrite <- pow2_Z by done.
      assert (H1 : (2 ^ 1024 == 2 ^ 53 * 2 ^ 971)%Q) by (by rewrite <- pow2_add).
      assert (H2 : (2 ^ 970 == (1 # 2) * 2 ^ 971)%Q).
      { rewrite (half_pow2 971 : (2 ^ 970 == _)%Q). ring. }
      rewrite H1, H2 in Hx. lra. }
    rewrite Zle_Qle in Hn. rewrite <- pow2_Z in Hn by done.
    assert (H1 : (2 ^ 1024 == 2 ^ 53 * 2 ^ 971)%Q) by (by rewrite <- pow2_add).
    rewrite H1. apply Qmult_le_compat_r; lra.
Qed.

(** Rounding keeps the order. *)
Lemma rounded_mono (x x' : Q) : (0 < x)%Q -> (x <= x')%Q -> (rounded x <= rounded x')%Q.
Proof.
  intros Hpos Hle. assert (Hpos' : (0 < x')%Q) by lra.
  pose proof (ilog2_mono x x' Hpos Hle) as He.
  destruct (ilog2_spec x Hpos) as [L1 L2]. destruct (ilog2_spec x' Hpos') as [L1' L2'].
  unfold rounded.
  destruct (Z.eq_dec (scale x) (scale x')) as [Heq|Hne].
  - rewrite <- Heq. set (s := scale x). pose proof (pow2_pos s) as Hs.
    apply Qmult_le_compat_r; [|lra]. rewrite <- Zle_Qle. apply nearest_even_mono.
    apply Qle_shift_div_l; [done|].
    assert (E : (x / 2 ^ s * 2 ^ s == x)%Q) by (field; lra). by rewrite E.
  - assert (Hs' : scale x' = ilog2 x' - 52 /\ scale x + 1 <= scale x').
    { unfold scale in *. lia. }
    destruct Hs' as [Hs' Hlt].
    set (s := scale x) in *. set (s' := scale x') in *.
    pose proof (pow2_pos s) as Hs. pose proof (pow2_pos s') as Hsp.
    apply Qle_trans with (2 ^ (s + 53))%Q.
    + rewrite (Z.add_comm s 53), pow2_add. apply Qmult_le_compat_r; [|lra].
      rewrite (pow2_Z 53) by done. rewrite <- Zle_Qle. apply nearest_even_le.
      apply Qle_shift_div_r; [done|]. rewrite <- (pow2_Z 53), <- pow2_add by done.
      pose proof (pow2_le (ilog2 x + 1) (53 + s) ltac:(unfold s, scale; lia)). lra.
    + apply Qle_trans with (2 ^ (52 + s'))%Q; [apply pow2_le; lia|].
      rewrite pow2_add. apply Qmult_le_compat_r; [|lra].
      rewrite (pow2_Z 52) by done. rewrite <- Zle_Qle. apply nearest_even_ge.
      apply Qle_shift_div_l; [done|]. rewrite <- (pow2_Z 52), <- pow2_add by done.
      by replace (52 + s') with (ilog2 x') by lia.
Qed.

Lemma rounded_nonneg (x : Q) : (0 < x)%Q -> (0 <= rounded x)%Q.
Proof.
  intros Hpos. unfold rounded. pose proof (pow2_pos (scale x)) as Hs.
  apply Qmult_le_0_compat; [|lra].
  change 0%Q with (inject_Z 0). rewrite <- Zle_Qle. apply nearest_even_ge.
  change (inject_Z 0) with 0%Q. apply Qle_shift_div_l; [done | lra].
Qed.

(** *** Rounding *)

Lemma round_eq (x x' : Q) : (x == x')%Q -> round x = round x'.
Proof. intros H. unfold round. by rewrite (Qred_complete _ _ H). Qed.

Lemma round_zero (x : Q) : (x == 0)%Q -> round x = Fin 0.
Proof. intros H. by rewrite (round_eq x 0 H). Qed.

Lemma round_pos (x : Q) : (0 < x)%Q -> round x = round_positive (Qred x).
Proof.
  intros H. unfold round. cbv zeta.
  destruct (Qcompare_spec (Qred x) 0) as [E|E|E]; rewrite Qred_correct in E; [lra | lra | done].
Qed.

Lemma round_neg (x : Q) : (x < 0)%Q -> round x = opp (round_positive (- Qred x)).
Proof.
  intros H. unfold round. cbv zeta.
  destruct (Qcompare_spec (Qred x) 0) as [E|E|E]; rewrite Qred_correct in E; [lra | done | lra].
Qed.

Lemma round_positive_fin (x : Q) :
  (0 < x)%Q -> (x < out_of_range)%Q -> round_positive x = Fin (Qred (rounded x)).
Proof.
  intros Hpos Hx. unfold round_positive.
  destruct (Qle_bool (2 ^ 1024) (rounded x)) eqn:E; [|done].
  apply Qle_bool_iff in E. pose proof (rounded_in_range x Hpos Hx). lra.
Qed.

Lemma round_positive_inf (x : Q) : (out_of_range <= x)%Q -> round_positive x = Inf false.
Proof.
  intros Hx. unfold round_positive.
  by rewrite (proj2 (Qle_bool_iff _ _) (rounded_out_of_range x Hx)).
Qed.

(** What is out of range is rounded to infinity. *)
Lemma round_overflow (x : Q) : (out_of_range <= x)%Q -> round x = Inf false.
Proof.
  intros Hx.
  assert (Hpos : (0 < out_of_range)%Q).
  { unfold out_of_range. pose proof (pow2_lt 970 1024 ltac:(lia)). lra. }
  rewrite round_pos by lra. apply round_positive_inf. by rewrite Qred_correct.
Qed.

(** A number that is not negative and in range is rounded to a float that
    is not negative; the error is at most [u] times the number when this
    is in the range of the normal numbers, and the float is below them
    when the number is. *)
Lemma round_fin (x : Q) :
  (0 <= x)%Q -> (x < out_of_range)%Q ->
  exists y, round x = Fin y /\ (0 <= y)%Q
    /\ ((x <= 2 ^ (-1022))%Q -> (y <= 2 ^ (-1022))%Q)
    /\ ((2 ^ (-1022) <= x)%Q -> (x * (1 - u) <= y)%Q /\ (y <= x * (1 + u))%Q).
Proof.
  intros Hx Hrange. destruct (Qle_lt_or_eq _ _ Hx) as [Hpos|Hz].
  - pose proof (Qred_correct x) as Hr.
    rewrite round_pos, round_positive_fin by (rewrite ?Hr; done).
    eexists. split; [reflexivity|]. rewrite Qred_correct.
    split; [apply rounded_nonneg; by rewrite Hr|]. split.
    + intros Hs. apply rounded_small; by rewrite Hr.
    + intros Hn. rewrite <- Hr at 1 4. apply rounded_normal. by rewrite Hr.
  - exists 0%Q. split; [by apply round_zero|]. split; [lra|].
    pose proof (pow2_pos (-1022)). split; [intros _; lra | intros ?; lra].
Qed.

(** Half an integer below 2^52 is a float. *)
Lemma round_half (x : Q) (z : Z) :
  (x == inject_Z z * (1 # 2))%Q -> 0 <= z < 2 ^ 53 -> round x = Fin (Qred x).
Proof.
  intros Hx [Hz0 Hz].
  assert (Hz' : (inject_Z z < 2 ^ 53)%Q) by (rewrite (pow2_Z 53), <- Zlt_Qlt; done).
  assert (Hz0' : (0 <= inject_Z z)%Q) by (change 0%Q with (inject_Z 0); by rewrite <- Zle_Qle).
  assert (H52 : (2 ^ 53 == 2 * 2 ^ 52)%Q) by apply (pow2_succ 52).
  destruct (Qle_lt_or_eq _ _ Hz0') as [Hpos|Hzero].
  - assert (Hxpos : (0 < x)%Q) by lra.
    assert (Hx52 : (x < 2 ^ 52)%Q) by lra.
    pose proof (Qred_correct x) as Hr.
    assert (Hrange : (Qred x < out_of_range)%Q).
    { rewrite Hr. unfold out_of_range.
      pose proof (pow2_le 970 1023 ltac:(lia)). pose proof (pow2_lt 52 1023 ltac:(lia)).
      pose proof (pow2_succ 1023 : (2 ^ 1024 == _)%Q). lra. }
    rewrite round_pos, round_positive_fin by first [done | rewrite Hr; done].
    f_equal. transitivity (Qred (Qred x)); [|apply Qred_complete, Qred_correct].
    apply Qred_complete. apply (rounded_exact _ z (-1)).
    + rewrite Hr, Hx. done.
    + destruct (ilog2_spec (Qred x) ltac:(by rewrite Hr)) as [L1 _].
      assert (ilog2 (Qred x) < 52); [|unfold scale; lia].
      destruct (Z_lt_le_dec (ilog2 (Qred x)) 52) as [H|H]; [done|].
      pose proof (pow2_le 52 _ H). lra.
  - assert (Hx0 : (x == 0)%Q) by lra.
    rewrite (round_zero x Hx0). f_equal. symmetry. apply (Qred_complete x 0 Hx0).
Qed.

(** Rounding keeps the order. *)
Lemma round_mono (x x' : Q) :
  (0 <= x)%Q -> (x <= x')%Q -> (x' < out_of_range)%Q ->
  exists y y', round x = Fin y /\ round x' = Fin y' /\ (0 <= y)%Q /\ (y <= y')%Q.
Proof.
  intros Hx Hle Hrange.
  destruct (round_fin x' ltac:(lra) Hrange) as (y' & Hy' & Hy'0 & _).
  destruct (Qle_lt_or_eq _ _ Hx) as [Hpos|Hz].
  - pose proof (Qred_correct x) as Hr. pose proof (Qred_correct x') as Hr'.
    exists (Qred (rounded (Qred x))), (Qred (rounded (Qred x'))).
    rewrite !round_pos, !round_positive_fin by (rewrite ?Hr, ?Hr'; lra).
    split; [done|]. split; [done|].
    split; [rewrite Qred_correct; apply rounded_nonneg; by rewrite Hr|].
    apply Qred_le. apply rounded_mono; rewrite ?Hr, ?Hr'; done.
  - exists 0%Q, y'. split; [by apply round_zero|]. split; [done|]. split; [lra | done].
Qed.

(** The float of a number that is not positive is not positive. *)
Lemma round_nonpos (x : Q) :
  (x <= 0)%Q -> (exists y, round x = Fin y /\ (y <= 0)%Q) \/ round x = Inf true.
Proof.
  intros Hx. destruct (Qle_lt_or_eq _ _ Hx) as [Hneg|Hz].
  - rewrite round_neg by done. unfold round_positive.
    destruct (Qle_bool _ _); [by right|]. left. eexists. split; [reflexivity|].
    rewrite Qred_correct. rewrite Qred_correct.
    assert (0 <= rounded (- Qred x))%Q; [|lra].
    apply rounded_nonneg. rewrite Qred_correct. lra.
  - left. exists 0%Q. split; [by apply round_zero | lra].
Qed.

Lemma Qred_idem (x : Q) : Qred (Qred x) = Qred x.
Proof. apply Qred_complete, Qred_correct. Qed.

Lemma opp_opp_red (x : Q) : (- - Qred x)%Q = Qred x.
Proof. destruct (Qred x) as [n d]. unfold Qopp. simpl. by rewrite Z.opp_involutive. Qed.

Lemma round_opp (x : Q) : round (- x) = opp (round x).
Proof.
  destruct (Qcompare_spec x 0) as [E|E|E].
  - rewrite (round_zero x E), (round_zero (- x)) by (rewrite E; reflexivity). done.
  - rewrite (round_neg x E), (round_pos (- x)) by lra.
    rewrite Qred_opp. unfold round_positive. destruct (Qle_bool _ _); cbn [opp negb]; [done|].
    f_equal. by rewrite !Qred_opp, opp_opp_red, !Qred_idem.
  - rewrite (round_pos x E), (round_neg (- x)) by lra.
    by rewrite Qred_opp, opp_opp_red.
Qed.

Lemma round_neg_fin (x e : Q) : round (- x) = Fin e -> round x = Fin (Qred (- e)).
Proof.
  intros H. rewrite (round_eq x (- - x)) by ring. by rewrite round_opp, H.
Qed.

(** *** The operations *)

Definition is_negative (x : Q) : bool := negb (Qle_bool 0 x).

Definition add (a b : float64) : float64 :=
  match a, b with
  | NaN, _ | _, NaN => NaN
  | Inf s, Inf s' => if Bool.eqb s s' then Inf s else NaN
  | Inf s, Fin _ | Fin _, Inf s => Inf s
  | Fin x, Fin y => round (x + y)
  end.

Definition mul (a b : float64) : float64 :=
  match a, b with
  | NaN, _ | _, NaN => NaN
  | Inf s, Inf s' => Inf (xorb s s')
  | Inf s, Fin x | Fin x, Inf s => if Qeq_bool x 0 then NaN else Inf (xorb s (is_negative x))
  | Fin x, Fin y => round (x * y)
  end.

(** The quotient by a float that is not zero. *)
Definition div (a b : float64) : float64 :=
  match a, b with
  | NaN, _ | _, NaN => NaN
  | Inf _, Inf _ => NaN
  | Inf s, Fin y => Inf (xorb s (is_negative y))
  | Fin _, Inf _ => Fin 0
  | Fin x, Fin y => round (x / y)
  end.

(** [a <= z] *)
Definition le (a : float64) (z : Z) : bool :=
  match a with
  | Fin x => Qle_bool x (inject_Z z)
  | Inf negative => negative
  | NaN => false
  end.

(** [a == z] *)
Definition eqb (a : float64) (z : Z) : bool :=
  match a with
  | Fin x => Qeq_bool x (inject_Z z)
  | _ => false
  end.

(** *** The model and the binary64 format of the standard library *)

Definition of_spec (f : spec_float) : float64 :=
  match f with
  | S754_zero _ => Fin 0
  | S754_infinity s => Inf s
  | S754_nan => NaN
  | S754_finite s m e =>
      Fin (Qred ((if s then -1 else 1) * inject_Z (Zpos m) * 2 ^ e))
  end.

(** The float next to an integer. *)
Definition spec_of_Z (z : Z) : spec_float := binary_normalize 53 1024 z 0 false.

Definition spec_div (a b : Z) : spec_float := SFdiv 53 1024 (spec_of_Z a) (spec_of_Z b).

Example round_as_the_format_does :
  round (1 # 3) = of_spec (spec_div 1 3)
  /\ round (2 # 3) = of_spec (spec_div 2 3)
  /\ round (1 # 10) = of_spec (spec_div 1 10)
  /\ round (1000 # 50) = of_spec (spec_div 1000 50)
  /\ round (6255283340113999 # 50) = of_spec (spec_div 6255283340113999 50)
  /\ round (2 ^ 53 + 1) = of_spec (spec_of_Z (2 ^ 53 + 1))
  /\ round (2 ^ 53 + 3) = of_spec (spec_of_Z (2 ^ 53 + 3))
  /\ round (- (2 ^ 60 + 129)) = of_spec (spec_of_Z (- (2 ^ 60 + 129)))
  /\ round (inject_Z (10 ^ 400)) = of_spec (spec_of_Z (10 ^ 400))
  /\ round (inject_Z (2 ^ 1024 - 2 ^ 970)) = of_spec (spec_of_Z (2 ^ 1024 - 2 ^ 970))
  /\ round (inject_Z (2 ^ 1024 - 2 ^ 970 - 1)) = of_spec (spec_of_Z (2 ^ 1024 - 2 ^ 970 - 1))
  /\ round (1 / inject_Z (2 ^ 1074 * 3)) = Fin 0
  /\ round (2 / inject_Z (2 ^ 1074 * 3)) = Fin (2 ^ (-1074))
  /\ round (3 / 2 ^ 1074) = Fin (Qred (3 * 2 ^ (-1074))).
Proof. vm_compute. repeat split; reflexivity. Qed.

Example operations_as_the_format_does :
  let dev := spec_div 6255283340113999 50 in
  let q := SFdiv 53 1024 (spec_of_Z 12510566680228) dev in
  div (Fin 12510566680228) (round (6255283340113999 # 50)) = of_spec q
  /\ mul (of_spec q) (Fin 100) = of_spec (SFmul 53 1024 q (spec_of_Z 100))
  /\ add (round (1 # 10)) (round (2 # 10))
      = of_spec (SFadd 53 1024 (spec_div 1 10) (spec_div 2 10))
  /\ mul (round (1 # 3)) (Fin 100) = of_spec (SFmul 53 1024 (spec_div 1 3) (spec_of_Z 100))
  /\ div (Fin 8) (round (1000 # 50)) = of_spec (SFdiv 53 1024 (spec_of_Z 8) (spec_div 1000 50)).
Proof. vm_compute. repeat split; reflexivity. Qed.

End Float64.

(** ** The numbers of Python *)

Module Num.

(** An [int], which has no bound, or a [float]. *)
Inductive num : Type :=
| PyInt (z : Z)
| PyFloat (f : Float64.float64).

(** A result that is out of the range of the floats is an OverflowError
    where an integer is turned into a float or divided by an integer. *)
Definition finite (f : Float64.float64) : res Float64.float64 :=
  match f with
  | Float64.Inf _ => Raise OverflowError
  | _ => Ok f
  end.

(** The float of a number: the one next to it for an integer. *)
Definition to_float (n : num) : res Float64.float64 :=
  match n with
  | PyInt z => finite (Float64.round (inject_Z z))
  | PyFloat f => Ok f
  end.

(** [a + b] *)
Definition add (a b : num) : res num :=
  match a, b with
  | PyInt x, PyInt y => Ok (PyInt (x + y))
  | _, _ => x <- to_float a ;; y <- to_float b ;; Ok (PyFloat (Float64.add x y))
  end.

(** [a * b] *)
Definition mul (a b : num) : res num :=
  match a, b with
  | PyInt x, PyInt y => Ok (PyInt (x * y))
  | _, _ => x <- to_float a ;; y <- to_float b ;; Ok (PyFloat (Float64.mul x y))
  end.

(** [a / b]: the quotient of two integers is rounded once. *)
Definition true_divide (a b : num) : res num :=
  match a, b with
  | PyInt x, PyInt y =>
      if y =? 0 then Raise ZeroDivisionError
      else f <- finite (Float64.round (inject_Z x / inject_Z y)) ;; Ok (PyFloat f)
  | _, _ =>
      x <- to_float a ;; y <- to_float b ;;
      if Float64.eqb y 0 then Raise ZeroDivisionError
      else Ok (PyFloat (Float64.div x y))
  end.

(** [a <= z] and [a == z] for an integer [z]: the numbers themselves are
    compared. *)
Definition le (a : num) (z : Z) : bool :=
  match a with
  | PyInt x => x <=? z
  | PyFloat f => Float64.le f z
  end.

Definition eqb (a : num) (z : Z) : bool :=
  match a with
  | PyInt x => x =? z
  | PyFloat f => Float64.eqb f z
  end.

(** [sum(l)]: from the integer 0, left to right. (From Python 3.12 on the
    floats are added with a correction term, which is zero as long as the
    additions are exact.) *)
Definition sum (l : list num) : res num := for_each add l (PyInt 0).

(** *** Numbers that are computed without rounding *)

(** The number [n] is the rational [q]. *)
Definition represents (n : num) (q : Q) : Prop :=
  match n with
  | PyInt z => (inject_Z z == q)%Q
  | PyFloat (Float64.Fin x) => (x == q)%Q
  | PyFloat _ => False
  end.

(** Half an integer below 2^53 is turned into a float as it is. *)
Lemma to_float_exact (n : num) (q : Q) (k : Z) :
  represents n q -> (q == inject_Z k * (1 # 2))%Q -> 0 <= k < 2 ^ 53 ->
  exists x, to_float n = Ok (Float64.Fin x) /\ (x == q)%Q.
Proof.
  intros Hn Hq Hk. destruct n as [z|[x| |]]; simpl in Hn; try done.
  - exists (Qred (inject_Z z)). simpl.
    rewrite (Float64.round_half (inject_Z z) k) by (rewrite ?Hn; done).
    split; [done|]. by rewrite Qred_correct.
  - by exists x.
Qed.

(** The sum of two such numbers is exact as long as it is below 2^52. *)
Lemma add_exact (a b : num) (qa qb : Q) (ka kb : Z) :
  represents a qa -> represents b qb ->
  (qa == inject_Z ka * (1 # 2))%Q -> (qb == inject_Z kb * (1 # 2))%Q ->
  0 <= ka -> 0 <= kb -> ka + kb < 2 ^ 53 ->
  exists c, add a b = Ok c /\ represents c (qa + qb).
Proof.
  intros Ha Hb Hqa Hqb Hka Hkb Hk.
  destruct (to_float_exact a qa ka Ha Hqa ltac:(lia)) as (x & Hx & Ex).
  destruct (to_float_exact b qb kb Hb Hqb ltac:(lia)) as (y & Hy & Ey).
  assert (Hfloat : (x <- to_float a ;; y <- to_float b ;; Ok (PyFloat (Float64.add x y)))
                   = Ok (PyFloat (Float64.Fin (Qred (x + y))))).
  { rewrite Hx, Hy. simpl. f_equal. f_equal.
    apply (Float64.round_half _ (ka + kb)); [|lia].
    rewrite Ex, Ey, Hqa, Hqb, inject_Z_plus. ring. }
  assert (Hsum : represents (PyFloat (Float64.Fin (Qred (x + y)))) (qa + qb)).
  { simpl. by rewrite Qred_correct, Ex, Ey. }
  destruct a as [za|fa], b as [zb|fb]; unfold add; try (rewrite Hfloat; eauto).
  exists (PyInt (za + zb)). split; [done|]. simpl in *. by rewrite inject_Z_plus, Ha, Hb.
Qed.

End Num.

(** ** analyzers/technical_debt.py *)

Module Sqale.
Import Num.

Inductive rating : Type := A | B | C | D | E.

(** The hours of the severities: three integers and the float 0.5. *)
Definition severity_hours : gmap string num :=
  {[ "critical" := PyInt 8; "high" := PyInt 4; "medium" := PyInt 2;
     "low" := PyFloat (Float64.Fin (1 # 2)) ]}.

(** calculate_sqale_rating, lines 33-76. *)
Definition calculate_sqale_rating (all_findings : list dict) (total_loc : Z) : res rating :=
  total_remediation_hours <-
    Num.sum (map (fun finding =>
                    table_get severity_hours (get finding "severity" (VStr "low"))
                      (PyFloat (Float64.Fin (1 # 2))))
                 all_findings) ;;
  development_hours <- true_divide (PyInt total_loc) (PyInt 50) ;;
  debt_ratio <-
    (if Num.eqb development_hours 0 then Ok (PyInt 0)
     else quotient <- true_divide total_remediation_hours development_hours ;;
          Num.mul quotient (PyInt 100)) ;;
  Ok (if Num.le debt_ratio 5 then A
      else if Num.le debt_ratio 10 then B
      else if Num.le debt_ratio 20 then C
      else if Num.le debt_ratio 50 then D
      else E).

(** *** The rating in the words of the specification *)

(** Remediation hours of one finding: critical 8, high 4, medium 2, low or
    unrecognized (or no severity at all) 0.5. *)
Definition hours_of (f : dict) : Q :=
  let sev := f !! "severity" in
  if decide (sev = Some (VStr "critical")) then 8%Q
  else if decide (sev = Some (VStr "high")) then 4%Q
  else if decide (sev = Some (VStr "medium")) then 2%Q
  else (1 # 2)%Q.

(** H, the sum over the findings. *)
Fixpoint total_hours (findings : list dict) : Q :=
  match findings with
  | [] => 0%Q
  | f :: rest => (hours_of f + total_hours rest)%Q
  end.

(** The debt ratio 100 * H / (total_loc / 50), taken to be 0 when
    total_loc is 0. *)
Definition debt_ratio (findings : list dict) (total_loc : Z) : Q :=
  if decide (total_loc = 0) then 0%Q
  else (100 * total_hours findings / (inject_Z total_loc / 50))%Q.

(** The letter of a debt ratio: A up to 5, B in (5, 10], C in (10, 20],
    D in (20, 50], E above. *)
Definition letter (ratio : Q) : rating :=
  if Qle_bool ratio 5 then A
  else if Qle_bool ratio 10 then B
  else if Qle_bool ratio 20 then C
  else if Qle_bool ratio 50 then D
  else E.

(** A is the best letter, E the worst. *)
Definition rank (r : rating) : nat :=
  match r with A => 0 | B => 1 | C => 2 | D => 3 | E => 4 end.

(** The relative error of the ratio that the code computes with three
    roundings. *)
Definition eps : Q := (2 ^ (-50))%Q.

(** The sum of a list of rationals, from 0, left to right. *)
Definition sum (l : list Q) : Q := fold_left Qplus l 0%Q.

Lemma sum_from (l : list Q) (a : Q) : (fold_left Qplus l a == a + sum l)%Q.
Proof.
  unfold sum. revert a. induction l as [|x l IH]; intros a; simpl.
  - ring.
  - rewrite IH, (IH (0 + x)%Q). ring.
Qed.

Lemma letter_spec (r : Q) :
  (letter r = A <-> r <= 5)%Q
  /\ (letter r = B <-> 5 < r /\ r <= 10)%Q
  /\ (letter r = C <-> 10 < r /\ r <= 20)%Q
  /\ (letter r = D <-> 20 < r /\ r <= 50)%Q
  /\ (letter r = E <-> 50 < r)%Q.
Proof.
  unfold letter.
  repeat match goal with
    | |- context [Qle_bool ?x ?b] =>
        let E := fresh "E" in
        destruct (Qle_bool x b) eqn:E;
        [apply Qle_bool_iff in E
        |apply not_true_iff_false in E; rewrite Qle_bool_iff in E; apply Qnot_le_lt in E]
    end; repeat split; try done; intros; try lra; exfalso; lra.
Qed.

Lemma letter_monotone (p q : Q) : (p <= q)%Q -> (rank (letter p) <= rank (letter q))%nat.
Proof.
  intros Hpq. unfold letter.
  repeat match goal with
    | |- context [Qle_bool ?x ?b] =>
        let E := fresh "E" in
        destruct (Qle_bool x b) eqn:E;
        [apply Qle_bool_iff in E
        |apply not_true_iff_false in E; rewrite Qle_bool_iff in E; apply Qnot_le_lt in E]
    end; simpl; try lia; exfalso; lra.
Qed.

Lemma letter_eq (p q : Q) : (p == q)%Q -> letter p = letter q.
Proof.
  intros H. unfold letter.
  assert (Hb : forall b, Qle_bool p b = Qle_bool q b).
  { intros b. apply eq_true_iff_eq. rewrite !Qle_bool_iff. by rewrite H. }
  by rewrite !Hb.
Qed.

(** *** The hours *)

(** The hours of one finding, as line 53 looks them up. *)
Definition hours (finding : dict) : num :=
  table_get severity_hours (get finding "severity" (VStr "low")) (PyFloat (Float64.Fin (1 # 2))).

Lemma severity_hours_lookup (s : string) :
  severity_hours !! s =
    if decide (s = "critical") then Some (PyInt 8)
    else if decide (s = "high") then Some (PyInt 4)
    else if decide (s = "medium") then Some (PyInt 2)
    else if decide (s = "low") then Some (PyFloat (Float64.Fin (1 # 2)))
    else None.
Proof.
  unfold severity_hours.
  rewrite !lookup_insert, lookup_singleton.
  repeat case_decide; congruence.
Qed.

(** The hours are those of the specification, in halves. *)
Lemma hours_eq (f : dict) :
  represents (hours f) (hours_of f)
  /\ exists k, (hours_of f == inject_Z k * (1 # 2))%Q /\ 1 <= k <= 16.
Proof.
  unfold hours, hours_of, get, table_get.
  destruct (f !! "severity") as [[s|z]|]; simpl;
    rewrite ?severity_hours_lookup;
    repeat case_decide; simplify_eq; simpl;
    (split; [reflexivity|]);
    first [ by exists 16 | by exists 8 | by exists 4 | by exists 1 ].
Qed.

Lemma hours_nonnegative (f : dict) : (0 <= hours_of f)%Q.
Proof. unfold hours_of. repeat case_decide; lra. Qed.

Lemma total_hours_nonnegative (findings : list dict) : (0 <= total_hours findings)%Q.
Proof.
  induction findings as [|f findings IH]; simpl; [lra|].
  pose proof (hours_nonnegative f). lra.
Qed.

Lemma total_hours_app (findings more : list dict) :
  (total_hours (findings ++ more) == total_hours findings + total_hours more)%Q.
Proof. induction findings as [|f findings IH]; simpl; [ring|]. rewrite IH. ring. Qed.

(** The hours of fewer than 2^49 findings are added without rounding. *)
Lemma sum_from_exact (findings : list dict) (acc : num) (qa : Q) (ka : Z) :
  represents acc qa -> (qa == inject_Z ka * (1 # 2))%Q -> 0 <= ka ->
  ka + 16 * Z.of_nat (length findings) < 2 ^ 53 ->
  exists n k, for_each add (map hours findings) acc = Ok n
    /\ represents n (qa + total_hours findings)
    /\ (qa + total_hours findings == inject_Z k * (1 # 2))%Q
    /\ 0 <= k <= ka + 16 * Z.of_nat (length findings).
Proof.
  revert acc qa ka. induction findings as [|f findings IH]; intros acc qa ka Hacc Hqa Hka Hlen.
  - exists acc, ka. simpl. split; [done|]. split.
    + destruct acc as [z|[x| |]]; simpl in *; try done; rewrite Hacc; ring.
    + split; [rewrite Hqa; ring | lia].
  - destruct (hours_eq f) as (Hf & kf & Hkf & Hbound).
    cbn [length] in Hlen.
    destruct (add_exact acc (hours f) qa (hours_of f) ka kf Hacc Hf Hqa Hkf Hka ltac:(lia) ltac:(lia))
      as (c & Hc & Hrep).
    destruct (IH c (qa + hours_of f)%Q (ka + kf) Hrep) as (n & k & Hn & Hnrep & Hk & Hkbound).
    { rewrite Hqa, Hkf, inject_Z_plus. ring. }
    { lia. }
    { lia. }
    exists n, k. cbn [map for_each total_hours length]. rewrite Hc. cbn [bind].
    split; [done|].
    assert (E : (qa + (hours_of f + total_hours findings)
                 == qa + hours_of f + total_hours findings)%Q) by ring.
    split; [|split; [by rewrite E | lia]].
    destruct n as [z|[x| |]]; simpl in *; try done; by rewrite E.
Qed.

Lemma sum_exact (findings : list dict) :
  Z.of_nat (length findings) < 2 ^ 49 ->
  exists n h, Num.sum (map hours findings) = Ok n
    /\ to_float n = Ok (Float64.Fin h)
    /\ (h == total_hours findings)%Q
    /\ (h < 2 ^ 52)%Q.
Proof.
  intros Hlen.
  destruct (sum_from_exact findings (PyInt 0) 0 0) as (n & k & Hn & Hrep & Hk & Hbound);
    [done | done | lia | lia |].
  assert (E : (0 + total_hours findings == total_hours findings)%Q) by ring.
  destruct (to_float_exact n (total_hours findings) k) as (h & Hh & Eh).
  { destruct n as [z|[x| |]]; simpl in *; try done; by rewrite <- E. }
  { by rewrite <- E. }
  { lia. }
  exists n, h. split; [done|]. split; [done|]. split; [done|].
  rewrite Eh, <- E, Hk.
  assert (Hk' : (inject_Z k < inject_Z (2 ^ 53))%Q) by (rewrite <- Zlt_Qlt; lia).
  rewrite <- (Float64.pow2_Z 53) in Hk' by lia.
  pose proof (Float64.pow2_succ 52 : (2 ^ 53 == _)%Q). lra.
Qed.

(** *** The ratio as the code computes it *)

Lemma round_100 : Float64.round (inject_Z 100) = Float64.Fin 100.
Proof. reflexivity. Qed.

(** The letter of a run in which nothing is out of range: the hours [h],
    the development time [d'], their quotient [q] and the ratio [r] are
    the floats of lines 52, 58 and 64. *)
Lemma rating_computed (findings : list dict) (total_loc : Z) (n : num) (h d' q r : Q) :
  Num.sum (map hours findings) = Ok n -> to_float n = Ok (Float64.Fin h) ->
  Float64.round (inject_Z total_loc / 50) = Float64.Fin d' -> ~ (d' == 0)%Q ->
  Float64.round (h / d') = Float64.Fin q -> Float64.round (q * 100) = Float64.Fin r ->
  calculate_sqale_rating findings total_loc = Ok (letter r).
Proof.
  intros Hsum Hh Hd Hnz Hq Hr. unfold calculate_sqale_rating.
  change (map _ findings) with (map hours findings). rewrite Hsum. cbn [bind].
  unfold true_divide at 1. change (50 =? 0) with false. cbv iota.
  change (inject_Z 50) with 50%Q. rewrite Hd. cbn [finite bind Num.eqb Float64.eqb].
  assert (Hz : Qeq_bool d' (inject_Z 0) = false).
  { apply not_true_iff_false. by rewrite Qeq_bool_iff. }
  rewrite Hz.
  assert (Hdiv : true_divide n (PyFloat (Float64.Fin d')) = Ok (PyFloat (Float64.Fin q))).
  { destruct n as [z|f]; unfold true_divide; rewrite Hh; cbn [bind to_float Float64.eqb];
      rewrite Hz; cbn [Float64.div]; by rewrite Hq. }
  rewrite Hdiv. cbn [bind]. unfold Num.mul. cbn [to_float bind].
  rewrite round_100. cbn [finite bind Float64.mul]. rewrite Hr.
  reflexivity.
Qed.

Lemma u_value : (Float64.u == 1 # 9007199254740992)%Q.
Proof. reflexivity. Qed.

Lemma eps_value : (eps == 8 * Float64.u)%Q.
Proof. reflexivity. Qed.

(** What is at most 2^1023 is in the range of the floats. *)
Lemma in_range (x : Q) (k : Z) : k <= 1023 -> (x <= 2 ^ k)%Q -> (x < Float64.out_of_range)%Q.
Proof.
  intros Hk Hx. unfold Float64.out_of_range.
  pose proof (Float64.pow2_le k 1023 Hk). pose proof (Float64.pow2_lt 970 1023 ltac:(lia)).
  pose proof (Float64.pow2_succ 1023 : (2 ^ 1024 == _)%Q). lra.
Qed.

Lemma pow2_58 : (2 ^ 58 == 288230376151711744)%Q.
Proof. reflexivity. Qed.

Lemma pow2_52 : (2 ^ 52 == 4503599627370496)%Q.
Proof. reflexivity. Qed.

Lemma pow2_66 : (2 ^ 66 == 73786976294838206464)%Q.
Proof. reflexivity. Qed.

(** The smallest normal float is far below the numbers of a rating. *)
Lemma tiny : (2 ^ (-1022) <= 1 # 1024)%Q.
Proof. assert (E : (1 # 1024 == 2 ^ (-10))%Q) by reflexivity. rewrite E. by apply Float64.pow2_le. Qed.

(** Three roundings with relative error [v] move a ratio by less than
    [8 v] of it; [m] bounds what is rounded below the normal numbers. *)
Lemma chain_upper (v m Y X q r t : Q) :
  (0 < v)%Q -> (v <= 1 # 16)%Q -> (0 < m)%Q -> (m <= 1 # 1024)%Q -> (1 <= t)%Q ->
  (0 <= X)%Q -> (X * (1 - v) <= Y)%Q ->
  (q <= m \/ q <= X * (1 + v))%Q -> (0 <= q)%Q ->
  (r <= m \/ r <= q * 100 * (1 + v))%Q ->
  (100 * Y <= t * (1 - 8 * v))%Q -> (r <= t)%Q.
Proof.
  intros Hv Hv' Hm Hm' Ht HX HXY Hq Hq0 Hr HY.
  destruct Hr as [Hr|Hr]; [lra|].
  destruct Hq as [Hq|Hq]; [nra|].
  assert (H1 : (r <= X * (1 + v) * 100 * (1 + v))%Q) by nra.
  assert (H2 : (r * (1 - v) <= Y * 100 * (1 + v) * (1 + v))%Q) by nra.
  assert (H3 : (r * (1 - v) <= t * (1 - 8 * v) * ((1 + v) * (1 + v)))%Q) by nra.
  assert (H4 : ((1 - 8 * v) * ((1 + v) * (1 + v)) <= 1 - v)%Q) by nra.
  assert (H5 : (r * (1 - v) <= t * (1 - v))%Q) by nra.
  nra.
Qed.

Lemma chain_lower (v m Y X q r t : Q) :
  (0 < v)%Q -> (v <= 1 # 16)%Q -> (0 < m)%Q -> (m <= 1 # 1024)%Q -> (1 <= t)%Q ->
  (0 <= X)%Q -> (Y <= X * (1 + v))%Q ->
  ((m <= X)%Q -> (X * (1 - v) <= q)%Q) ->
  ((m <= q * 100)%Q -> (q * 100 * (1 - v) <= r)%Q) ->
  (t * (1 + 8 * v) <= 100 * Y)%Q -> (t < r)%Q.
Proof.
  intros Hv Hv' Hm Hm' Ht HX HXY Hq Hr HY.
  assert (HX' : (1 # 200 <= X)%Q) by nra.
  specialize (Hq ltac:(lra)).
  assert (Hq' : (1 # 400 <= q)%Q) by nra.
  specialize (Hr ltac:(lra)).
  assert (H1 : (X * (1 - v) * 100 * (1 - v) <= r)%Q) by nra.
  assert (H2 : (Y * 100 * (1 - v) * (1 - v) <= r * (1 + v))%Q) by nra.
  assert (H3 : (t * (1 + 8 * v) * ((1 - v) * (1 - v)) <= r * (1 + v))%Q) by nra.
  assert (H4 : (1 + v < (1 + 8 * v) * ((1 - v) * (1 - v)))%Q) by nra.
  assert (H5 : (t * (1 + v) < r * (1 + v))%Q) by nra.
  nra.
Qed.

(** The ratio that is computed from exact hours and a development time
    that was rounded once, against the exact ratio: on the same side of
    every threshold that the exact ratio is not next to. *)
Lemma ratio_bounds (H d h d' : Q) :
  (h == H)%Q -> (0 <= H)%Q -> (H < 2 ^ 52)%Q -> (1 # 50 <= d)%Q ->
  (d * (1 - Float64.u) <= d')%Q -> (d' <= d * (1 + Float64.u))%Q ->
  exists q r, Float64.round (h / d') = Float64.Fin q
    /\ Float64.round (q * 100) = Float64.Fin r
    /\ (0 <= r)%Q
    /\ forall t, (1 <= t)%Q ->
         ((100 * H / d <= t * (1 - eps))%Q -> (r <= t)%Q)
         /\ ((t * (1 + eps) <= 100 * H / d)%Q -> (t < r)%Q).
Proof.
  intros Hh H0 H52 Hd Hlo Hhi.
  pose proof u_value as Hu. pose proof eps_value as He. pose proof tiny as Hm.
  pose proof (Float64.pow2_pos (-1022)) as Hm0.
  pose proof pow2_52 as P52. pose proof pow2_58 as P58. pose proof pow2_66 as P66.
  set (v := Float64.u) in *. set (m := (2 ^ (-1022))%Q) in *.
  assert (Hv : (0 < v)%Q) by lra. assert (Hv' : (v <= 1 # 16)%Q) by lra.
  assert (Hd' : (1 # 64 <= d')%Q) by nra.
  assert (HX : (h / d' * d' == h)%Q) by (field; lra).
  assert (HY : (100 * H / d == 100 * (H / d))%Q) by (field; lra).
  assert (HYd : (H / d * d == H)%Q) by (field; lra).
  set (X := (h / d')%Q) in *. set (Y := (H / d)%Q) in *.
  assert (HX0 : (0 <= X)%Q) by nra.
  assert (HX58 : (X <= 2 ^ 58)%Q) by nra.
  assert (HXY : (X * (1 - v) <= Y)%Q) by nra.
  assert (HYX : (Y <= X * (1 + v))%Q) by nra.
  destruct (Float64.round_fin X HX0 (in_range X 58 ltac:(lia) HX58))
    as (q & Hq & Hq0 & Hqs & Hqn). fold v m in Hqs, Hqn.
  assert (Hq' : (q <= m \/ q <= X * (1 + v))%Q).
  { destruct (Qlt_le_dec X m) as [Hs|Hn]; [left; apply Hqs; lra | right; by apply Hqn]. }
  assert (Hq66 : (q * 100 <= 2 ^ 66)%Q) by (destruct Hq'; nra).
  destruct (Float64.round_fin (q * 100) ltac:(lra) (in_range _ 66 ltac:(lia) Hq66))
    as (r & Hr & Hr0 & Hrs & Hrn). fold v m in Hrs, Hrn.
  assert (Hr' : (r <= m \/ r <= q * 100 * (1 + v))%Q).
  { destruct (Qlt_le_dec (q * 100) m) as [Hs|Hn]; [left; apply Hrs; lra | right; by apply Hrn]. }
  exists q, r. split; [done|]. split; [done|]. split; [done|].
  intros t Ht. rewrite HY, He. split; intros HR.
  - apply (chain_upper v m Y X q r t); try done.
  - apply (chain_lower v m Y X q r t); try done.
    + intros Hn. by apply Hqn.
    + intros Hn. by apply Hrn.
Qed.

Lemma eps_bounds : (0 < eps)%Q /\ (eps < 1 # 1000)%Q.
Proof. pose proof eps_value. pose proof u_value. lra. Qed.

(** The development time of a positive number of lines that is in range. *)
Lemma development_hours_fin (total_loc : Z) :
  0 < total_loc -> (inject_Z total_loc / 50 < Float64.out_of_range)%Q ->
  (1 # 50 <= inject_Z total_loc / 50)%Q
  /\ exists d', Float64.round (inject_Z total_loc / 50) = Float64.Fin d'
       /\ (inject_Z total_loc / 50 * (1 - Float64.u) <= d')%Q
       /\ (d' <= inject_Z total_loc / 50 * (1 + Float64.u))%Q
       /\ (0 < d')%Q.
Proof.
  intros Hloc Hrange.
  assert (H1 : (1 <= inject_Z total_loc)%Q).
  { change 1%Q with (inject_Z 1). rewrite <- Zle_Qle. lia. }
  assert (Hd : (1 # 50 <= inject_Z total_loc / 50)%Q).
  { apply Qle_shift_div_l; lra. }
  split; [done|].
  destruct (Float64.round_fin (inject_Z total_loc / 50) ltac:(lra) Hrange)
    as (d' & Hd' & _ & _ & Hn).
  pose proof tiny as Hm. destruct (Hn ltac:(lra)) as [Hlo Hhi].
  exists d'. split; [done|]. split; [done|]. split; [done|].
  pose proof u_value. nra.
Qed.

(** Without lines of code the letter is A. *)
Lemma rating_zero (findings : list dict) (n : num) :
  Num.sum (map hours findings) = Ok n -> calculate_sqale_rating findings 0 = Ok A.
Proof.
  intros Hsum. unfold calculate_sqale_rating.
  change (map _ findings) with (map hours findings). rewrite Hsum. reflexivity.
Qed.

(** A development time that is out of range is an OverflowError. *)
Lemma rating_overflow (findings : list dict) (total_loc : Z) (n : num) (negative : bool) :
  Num.sum (map hours findings) = Ok n ->
  Float64.round (inject_Z total_loc / 50) = Float64.Inf negative ->
  calculate_sqale_rating findings total_loc = Raise OverflowError.
Proof.
  intros Hsum Hd. unfold calculate_sqale_rating.
  change (map _ findings) with (map hours findings). rewrite Hsum. cbn [bind].
  unfold true_divide. change (50 =? 0) with false. cbv iota.
  change (inject_Z 50) with 50%Q. by rewrite Hd.
Qed.

(** The computed ratio is on the side of a threshold on which the exact
    ratio is, unless this is within [eps] of the threshold. *)
Lemma rating_thresholds (findings : list dict) (total_loc : Z) :
  Z.of_nat (length findings) < 2 ^ 49 -> 0 <= total_loc ->
  (inject_Z total_loc / 50 < Float64.out_of_range)%Q ->
  exists r, calculate_sqale_rating findings total_loc = Ok (letter r)
    /\ forall t, (1 <= t)%Q ->
         ((debt_ratio findings total_loc <= t * (1 - eps))%Q -> (r <= t)%Q)
         /\ ((t * (1 + eps) <= debt_ratio findings total_loc)%Q -> (t < r)%Q).
Proof.
  intros Hlen Hloc Hrange. pose proof eps_bounds as [He0 He1].
  destruct (sum_exact findings Hlen) as (n & h & Hsum & Hh & Eh & H52).
  destruct (decide (total_loc = 0)) as [->|Hnz].
  - exists 0%Q. split; [by apply (rating_zero findings n)|].
    intros t Ht. unfold debt_ratio. rewrite decide_True by done. split; intros; nra.
  - destruct (development_hours_fin total_loc ltac:(lia) Hrange)
      as (Hd & d' & Hd' & Hlo & Hhi & Hpos).
    destruct (ratio_bounds (total_hours findings) (inject_Z total_loc / 50) h d'
                Eh (total_hours_nonnegative findings) ltac:(by rewrite <- Eh) Hd Hlo Hhi)
      as (q & r & Hq & Hr & Hr0 & Ht).
    exists r. split.
    + apply (rating_computed findings total_loc n h d' q r); try done. lra.
    + unfold debt_ratio. by rewrite decide_False by done.
Qed.

(** C6. For fewer than 2^49 findings and a total_loc that is not
    negative, calculate_sqale_rating raises OverflowError exactly when
    total_loc / 50 is out of the range of the floats, and returns a letter
    otherwise. The letter is that of the debt ratio R = 100 * H /
    (total_loc / 50), H the sum of the remediation hours (critical 8, high
    4, medium 2, otherwise 0.5), as long as R is not within 2^-50 of the
    thresholds 5, 10, 20 and 50: A up to 5, B in (5, 10], C in (10, 20],
    D in (20, 50], E above. Next to a threshold the three roundings of the
    code decide between the two letters. With total_loc = 0 the ratio is 0
    and the letter A. *)
Theorem sqale_rating_by_debt_ratio (findings : list dict) (total_loc : Z) :
  Z.of_nat (length findings) < 2 ^ 49 -> 0 <= total_loc ->
  let R := debt_ratio findings total_loc in
  let result := calculate_sqale_rating findings total_loc in
  (result = Raise OverflowError <-> (Float64.out_of_range <= inject_Z total_loc / 50)%Q)
  /\ ((inject_Z total_loc / 50 < Float64.out_of_range)%Q ->
      exists l, result = Ok l
        /\ ((R <= 5 * (1 - eps))%Q -> l = A)
        /\ ((5 * (1 + eps) <= R)%Q -> (R <= 10 * (1 - eps))%Q -> l = B)
        /\ ((10 * (1 + eps) <= R)%Q -> (R <= 20 * (1 - eps))%Q -> l = C)
        /\ ((20 * (1 + eps) <= R)%Q -> (R <= 50 * (1 - eps))%Q -> l = D)
        /\ ((50 * (1 + eps) <= R)%Q -> l = E)
        /\ (l = A -> (R < 5 * (1 + eps))%Q)
        /\ (l = B -> (5 * (1 - eps) < R)%Q /\ (R < 10 * (1 + eps))%Q)
        /\ (l = C -> (10 * (1 - eps) < R)%Q /\ (R < 20 * (1 + eps))%Q)
        /\ (l = D -> (20 * (1 - eps) < R)%Q /\ (R < 50 * (1 + eps))%Q)
        /\ (l = E -> (50 * (1 - eps) < R)%Q))
  /\ (total_loc = 0 -> R = 0%Q /\ result = Ok A).
Proof.
  intros Hlen Hloc R result. subst result.
  destruct (sum_exact findings Hlen) as (n & h & Hsum & _).
  split; [|split].
  - split.
    + intros Hraise. apply Qnot_lt_le. intros Hrange.
      destruct (rating_thresholds findings total_loc Hlen Hloc Hrange) as (r & Hr & _).
      congruence.
    + intros Hout. apply (rating_overflow findings total_loc n false Hsum).
      by apply Float64.round_overflow.
  - intros Hrange.
    destruct (rating_thresholds findings total_loc Hlen Hloc Hrange) as (r & Hr & Ht).
    fold R in Ht. exists (letter r). split; [done|].
    destruct (letter_spec r) as (LA & LB & LC & LD & LE).
    destruct (Ht 5%Q ltac:(lra)) as [U5 L5]. destruct (Ht 10%Q ltac:(lra)) as [U10 L10].
    destruct (Ht 20%Q ltac:(lra)) as [U20 L20]. destruct (Ht 50%Q ltac:(lra)) as [U50 L50].
    assert (below : forall t, ((t * (1 + eps) <= R)%Q -> (t < r)%Q) -> (r <= t)%Q ->
                              (R < t * (1 + eps))%Q).
    { intros t L Hle. apply Qnot_le_lt. intros H. specialize (L H). lra. }
    assert (above : forall t, ((R <= t * (1 - eps))%Q -> (r <= t)%Q) -> (t < r)%Q ->
                              (t * (1 - eps) < R)%Q).
    { intros t U Hlt. apply Qnot_le_lt. intros H. specialize (U H). lra. }
    repeat apply conj.
    + intros H. apply LA. auto.
    + intros H1 H2. apply LB. auto.
    + intros H1 H2. apply LC. auto.
    + intros H1 H2. apply LD. auto.
    + intros H. apply LE. auto.
    + intros H%LA. by apply below.
    + intros [H1 H2]%LB. split; [by apply above | by apply below].
    + intros [H1 H2]%LC. split; [by apply above | by apply below].
    + intros [H1 H2]%LD. split; [by apply above | by apply below].
    + intros H%LE. by apply above.
  - intros ->. split; [done|]. by apply (rating_zero findings n).
Qed.

Lemma sqale_rating_by_debt_ratio_witness :
  let findings := [ {[ "severity" := VStr "critical" ]} : dict ] in
  Z.of_nat (length findings) < 2 ^ 49 /\ 0 <= 1000
  /\ (debt_ratio findings 1000 == 40)%Q
  /\ calculate_sqale_rating findings 1000 = Ok D.
Proof.
  intros findings.
  assert (Hlen : Z.of_nat (length findings) < 2 ^ 49) by (simpl; lia).
  assert (Hloc : 0 <= 1000) by lia.
  split; [done|]. split; [done|]. split; [reflexivity|].
  destruct (sqale_rating_by_debt_ratio findings 1000 Hlen Hloc) as (_ & Hletter & _).
  destruct Hletter as (l & Hl & _ & _ & _ & HD & _).
  { apply (in_range _ 10); [lia|]. apply Qle_bool_iff. reflexivity. }
  rewrite Hl. f_equal. apply HD; apply Qle_bool_iff; reflexivity.
Defined.

(** A total_loc above 50 * (2^1024 - 2^970) has no letter: line 58 raises
    OverflowError. *)
Example rating_overflows :
  0 <= 10 ^ 400
  /\ calculate_sqale_rating [] (10 ^ 400) = Raise OverflowError
  /\ calculate_sqale_rating [ {[ "severity" := VStr "critical" ]} ] (10 ^ 400)
     = Raise OverflowError
  /\ (forall l, calculate_sqale_rating [] (10 ^ 400) <> Ok l)
  /\ (debt_ratio [] (10 ^ 400) == 0)%Q.
Proof.
  split; [by vm_compute|]. split; [by vm_compute|]. split; [by vm_compute|].
  split; [|by vm_compute]. intros l. by vm_compute.
Qed.

(** Next to a threshold the roundings decide: 12510566680228 hours in
    6255283340113999 lines are a ratio above 10, which the code computes
    as 10.0. *)
Lemma rounding_at_threshold (findings : list dict) :
  Z.of_nat (length findings) < 2 ^ 49 ->
  (total_hours findings == 12510566680228)%Q ->
  calculate_sqale_rating findings 6255283340113999 = Ok B
  /\ (10 < debt_ratio findings 6255283340113999)%Q
  /\ letter (debt_ratio findings 6255283340113999) = C.
Proof.
  intros Hlen HH. destruct (sum_exact findings Hlen) as (n & h & Hsum & Hh & Eh & _).
  assert (HR : (debt_ratio findings 6255283340113999
                == 62552833401140000 # 6255283340113999)%Q).
  { unfold debt_ratio. rewrite decide_False by lia. rewrite HH. reflexivity. }
  split; [|split].
  - change (Ok B) with (Ok (letter 10)).
    apply (rating_computed findings _ n h (8006762675345919 # 64)
             (3602879701896397 # 36028797018963968) 10 Hsum Hh).
    + by vm_compute.
    + intros H. discriminate H.
    + rewrite (Float64.round_eq _ (12510566680228 / (8006762675345919 # 64))).
      * by vm_compute.
      * rewrite Eh, HH. reflexivity.
    + by vm_compute.
  - rewrite HR. reflexivity.
  - rewrite (letter_eq _ _ HR). reflexivity.
Qed.

Example rating_examples :
  let critical := {[ "severity" := VStr "critical" ]} : dict in
  let high := {[ "severity" := VStr "high" ]} : dict in
  let low := {[ "severity" := VStr "low" ]} : dict in
  let other := {[ "severity" := VStr "info" ]} : dict in
  let none := {[ "file" := VStr "a.py" ]} : dict in
  calculate_sqale_rating [critical] 1000 = Ok D
  /\ calculate_sqale_rating [critical; high] 1000 = Ok E
  /\ calculate_sqale_rating [critical] 2000 = Ok C
  /\ calculate_sqale_rating [low; other; none] 1000 = Ok B
  /\ calculate_sqale_rating [low; other] 1000 = Ok A
  /\ calculate_sqale_rating [critical] 0 = Ok A
  /\ calculate_sqale_rating [critical] 7 = Ok E.
Proof. vm_compute. repeat split; reflexivity. Qed.

End Sqale.

(** ** Regular expressions ([re.match] on the patterns of the scripts) *)

Module Regex.

(** A pattern over characters, which are code points; a class is the set
    of the code points it accepts. *)
Inductive regex : Type :=
| Void
| Eps
| Class (p : N -> bool)
| Cat (r1 r2 : regex)
| Alt (r1 r2 : regex)
| Star (r : regex).

Definition Chr (c : N) : regex := Class (N.eqb c).
Definition Plus (r : regex) : regex := Cat r (Star r).
Definition Opt (r : regex) : regex := Alt r Eps.

(** The words of a pattern. *)
Inductive Lang : regex -> list N -> Prop :=
| LEps : Lang Eps []
| LClass p c : p c = true -> Lang (Class p) [c]
| LCat r1 r2 w1 w2 : Lang r1 w1 -> Lang r2 w2 -> Lang (Cat r1 r2) (w1 ++ w2)
| LAltL r1 r2 w : Lang r1 w -> Lang (Alt r1 r2) w
| LAltR r1 r2 w : Lang r2 w -> Lang (Alt r1 r2) w
| LStarNil r : Lang (Star r) []
| LStarCons r w1 w2 : Lang r w1 -> Lang (Star r) w2 -> Lang (Star r) (w1 ++ w2).

(** Matching by derivatives. *)
Fixpoint nullable (r : regex) : bool :=
  match r with
  | Void => false
  | Eps => true
  | Class _ => false
  | Cat r1 r2 => nullable r1 && nullable r2
  | Alt r1 r2 => nullable r1 || nullable r2
  | Star _ => true
  end.

Fixpoint deriv (c : N) (r : regex) : regex :=
  match r with
  | Void => Void
  | Eps => Void
  | Class p => if p c then Eps else Void
  | Cat r1 r2 =>
      if nullable r1 then Alt (Cat (deriv c r1) r2) (deriv c r2)
      else Cat (deriv c r1) r2
  | Alt r1 r2 => Alt (deriv c r1) (deriv c r2)
  | Star r1 => Cat (deriv c r1) (Star r1)
  end.

Fixpoint fullmatch (r : regex) (w : list N) : bool :=
  match w with
  | [] => nullable r
  | c :: w' => fullmatch (deriv c r) w'
  end.

Lemma cat_inv (r1 r2 : regex) (w : list N) :
  Lang (Cat r1 r2) w -> exists w1 w2, w = w1 ++ w2 /\ Lang r1 w1 /\ Lang r2 w2.
Proof. inversion 1; subst. eauto. Qed.

Lemma alt_inv (r1 r2 : regex) (w : list N) :
  Lang (Alt r1 r2) w -> Lang r1 w \/ Lang r2 w.
Proof. inversion 1; subst; eauto. Qed.

Lemma class_inv (p : N -> bool) (w : list N) :
  Lang (Class p) w -> exists c, w = [c] /\ p c = true.
Proof. inversion 1; subst. eauto. Qed.

Lemma eps_inv (w : list N) : Lang Eps w -> w = [].
Proof. by inversion 1. Qed.

Lemma nullable_spec (r : regex) : nullable r = true <-> Lang r [].
Proof.
  induction r as [| |p|r1 IH1 r2 IH2|r1 IH1 r2 IH2|r IH]; simpl.
  - split; [done | inversion 1].
  - split; [constructor | done].
  - split; [done | inversion 1].
  - rewrite andb_true_iff, IH1, IH2. split.
    + intros [H1 H2]. by apply (LCat _ _ [] []).
    + intros (w1 & w2 & Hw & H1 & H2)%cat_inv.
      symmetry in Hw. apply app_eq_nil in Hw as [-> ->]. done.
  - rewrite orb_true_iff, IH1, IH2. split.
    + intros [H|H]; [by apply LAltL | by apply LAltR].
    + apply alt_inv.
  - split; [constructor | done].
Qed.

(** A word of [Star r] that starts with [c] starts with a non-empty word of [r]. *)
Lemma star_cons_inv (r : regex) (c : N) (w : list N) :
  Lang (Star r) (c :: w) ->
  exists w1 w2, w = w1 ++ w2 /\ Lang r (c :: w1) /\ Lang (Star r) w2.
Proof.
  intros H. remember (Star r) as sr eqn:Hsr. remember (c :: w) as cw eqn:Hcw.
  revert r c w Hsr Hcw.
  induction H as [|p0 c0|r1 r2 w1 w2|r1 r2 w0|r1 r2 w0|r0|r0 w1 w2 H1 _ H2 IH2];
    intros r c w Hsr Hcw; try discriminate.
  injection Hsr as ->. destruct w1 as [|c' w1]; simpl in Hcw.
  - by apply IH2.
  - injection Hcw as -> <-. by exists w1, w2.
Qed.

Lemma deriv_spec (r : regex) (c : N) (w : list N) :
  Lang (deriv c r) w <-> Lang r (c :: w).
Proof.
  revert w. induction r as [| |p|r1 IH1 r2 IH2|r1 IH1 r2 IH2|r IH]; intros w; simpl.
  - split; inversion 1.
  - split; inversion 1.
  - destruct (p c) eqn:Hp; split.
    + intros ->%eps_inv. by constructor.
    + intros (c' & [= <- ->] & _)%class_inv. constructor.
    + inversion 1.
    + intros (c' & [= <- ->] & Hc)%class_inv. congruence.
  - assert (Hcat : Lang (Cat (deriv c r1) r2) w ->  Lang (Cat r1 r2) (c :: w)).
    { intros (w1 & w2 & -> & H1 & H2)%cat_inv.
      apply IH1 in H1. by apply (LCat _ _ (c :: w1) w2). }
    assert (Hinv : Lang (Cat r1 r2) (c :: w) ->
              Lang (Cat (deriv c r1) r2) w \/ (Lang r1 [] /\ Lang (deriv c r2) w)).
    { intros (w1 & w2 & Hw & H1 & H2)%cat_inv.
      destruct w1 as [|c' w1]; simpl in Hw.
      - subst. right. split; [done | by apply IH2].
      - injection Hw as -> ->. left. constructor; [by apply IH1 | done]. }
    destruct (nullable r1) eqn:Hn; split.
    + intros [H|H]%alt_inv; [by apply Hcat|].
      apply (LCat _ _ [] (c :: w)); [by apply nullable_spec | by apply IH2].
    + intros H. apply Hinv in H as [H|[_ H]]; [by apply LAltL | by apply LAltR].
    + apply Hcat.
    + intros H. apply Hinv in H as [H|[H _]]; [done|].
      apply nullable_spec in H. congruence.
  - split.
    + intros [H|H]%alt_inv; [apply LAltL; by apply IH1 | apply LAltR; by apply IH2].
    + intros [H|H]%alt_inv; [apply LAltL; by apply IH1 | apply LAltR; by apply IH2].
  - split.
    + intros (w1 & w2 & -> & H1 & H2)%cat_inv.
      apply IH in H1. by apply (LStarCons _ (c :: w1) w2).
    + intros H. apply star_cons_inv in H as (w1 & w2 & -> & H1 & H2).
      constructor; [by apply IH | done].
Qed.

Theorem fullmatch_spec (r : regex) (w : list N) :
  fullmatch r w = true <-> Lang r w.
Proof.
  revert r. induction w as [|c w IH]; intros r; simpl.
  - apply nullable_spec.
  - rewrite IH. apply deriv_spec.
Qed.

(** Words of [p*] and [p+] for a class [p]. *)
Lemma star_class (p : N -> bool) (w : list N) :
  Lang (Star (Class p)) w <-> forallb p w = true.
Proof.
  split.
  - intros H. remember (Star (Class p)) as r eqn:Hr.
    induction H as [|p0 c0|r1 r2 w1 w2|r1 r2 w0|r1 r2 w0|r0|r0 w1 w2 H1 _ H2 IH2];
      try discriminate; [done|].
    injection Hr as ->. apply class_inv in H1 as (c & -> & Hc).
    simpl. rewrite Hc. by apply IH2.
  - induction w as [|c w IH]; simpl; [constructor|].
    intros [Hc Hw]%andb_true_iff.
    apply (LStarCons _ [c] w); [by constructor | by apply IH].
Qed.

Lemma plus_class (p : N -> bool) (w : list N) :
  Lang (Plus (Class p)) w <-> w <> [] /\ forallb p w = true.
Proof.
  unfold Plus. split.
  - intros (w1 & w2 & -> & (c & -> & Hc)%class_inv & H2%star_class)%cat_inv.
    split; [done|]. simpl. by rewrite Hc.
  - intros [Hne Hw]. destruct w as [|c w]; [done|].
    simpl in Hw. apply andb_true_iff in Hw as [Hc Hw].
    apply (LCat _ _ [c] w); [by constructor | by apply star_class].
Qed.

Lemma chr_inv (c : N) (w : list N) : Lang (Chr c) w <-> w = [c].
Proof.
  unfold Chr. split.
  - intros (c' & -> & Hc%N.eqb_eq)%class_inv. by subst.
  - intros ->. constructor. apply N.eqb_refl.
Qed.

Lemma opt_inv (r : regex) (w : list N) : Lang (Opt r) w <-> Lang r w \/ w = [].
Proof.
  unfold Opt. split.
  - intros [H|H%eps_inv]%alt_inv; eauto.
  - intros [H| ->]; [by apply LAltL | apply LAltR; constructor].
Qed.

Lemma cat_iff (r1 r2 : regex) (w : list N) :
  Lang (Cat r1 r2) w <-> exists w1 w2, w = w1 ++ w2 /\ Lang r1 w1 /\ Lang r2 w2.
Proof.
  split; [apply cat_inv|]. intros (w1 & w2 & -> & H1 & H2). by constructor.
Qed.

End Regex.

(** ** JSON documents as Python objects *)

(** What [json.load] returns. The fields of an object are the items of the
    dictionary, in order. *)
Inductive json : Type :=
| JNull
| JBool (b : bool)
| JInt (z : Z)
| JFloat (q : Q)
| JStr (s : string)
| JArr (items : list json)
| JObj (fields : list (string * json)).

Module Py.

(** *** The characters of a string

    A [str] is held as the bytes of its UTF-8 form, which is what a string
    literal of this file holds; a lone surrogate, which a [str] may hold,
    as the three bytes of its code point. Equality, concatenation and the
    search for an ASCII text are the same on the bytes as on the
    characters; where the code works on characters (the classes of a
    pattern, [len], [strip], a loop over a string) the bytes are decoded
    by [code_points]. A byte that is part of no character stands for a
    code point of its own, beyond U+10FFFF. *)

Definition code_point (c : ascii) : N := N_of_ascii c.

(** A character of which the first byte has been read: the bits so far,
    the number of bytes to come after the next one, the bytes read. *)
Record partial : Type := Partial { so_far : N; to_come : nat; bytes_read : list N }.

Definition stray (bytes : list N) : list N := map (fun b => 1114112 + b)%N bytes.

Definition is_continuation (b : N) : bool := ((128 <=? b) && (b <? 192))%N.

(** The smallest code point that takes this many bytes. *)
Definition least (bytes : nat) : N :=
  match bytes with
  | 2%nat => 128
  | 3%nat => 2048
  | _ => 65536
  end.

(** A byte at the start of a character. *)
Definition first_byte (b : N) : list N * option partial :=
  if (b <? 128)%N then ([b], None)
  else if ((192 <=? b) && (b <? 224))%N then ([], Some (Partial (b - 192) 0 [b]))
  else if ((224 <=? b) && (b <? 240))%N then ([], Some (Partial (b - 224) 1 [b]))
  else if ((240 <=? b) && (b <? 248))%N then ([], Some (Partial (b - 240) 2 [b]))
  else (stray [b], None).

(** The code points that a byte completes, and what is left open. *)
Definition next_byte (st : option partial) (b : N) : list N * option partial :=
  match st with
  | None => first_byte b
  | Some (Partial acc k bytes) =>
      if is_continuation b then
        let acc := (acc * 64 + (b - 128))%N in
        match k with
        | O => (if ((least (S (length bytes)) <=? acc) && (acc <? 1114112))%N
                then [acc] else stray (bytes ++ [b]), None)
        | S k' => ([], Some (Partial acc k' (bytes ++ [b])))
        end
      else let '(out, st') := first_byte b in (stray bytes ++ out, st')
  end.

Fixpoint decode (st : option partial) (s : string) : list N :=
  match s with
  | EmptyString => match st with Some p => stray (bytes_read p) | None => [] end
  | String c s' =>
      let '(out, st') := next_byte st (code_point c) in out ++ decode st' s'
  end.

Definition code_points (s : string) : list N := decode None s.

(** [chr(n)] as a string. *)
Definition one_byte (n : N) : string := String (ascii_of_N n) EmptyString.

Definition chr (n : N) : string :=
  if (n <? 128)%N then one_byte n
  else if (n <? 2048)%N then one_byte (192 + n / 64)%N +:+ one_byte (128 + n mod 64)%N
  else if (n <? 65536)%N then
    one_byte (224 + n / 4096)%N +:+ one_byte (128 + (n / 64) mod 64)%N
      +:+ one_byte (128 + n mod 64)%N
  else if (n <? 1114112)%N then
    one_byte (240 + n / 262144)%N +:+ one_byte (128 + (n / 4096) mod 64)%N
      +:+ one_byte (128 + (n / 64) mod 64)%N +:+ one_byte (128 + n mod 64)%N
  else one_byte (n - 1114112)%N.

(** *** Objects *)

(** [d.get(k)] on the items of a dictionary. *)
Fixpoint assoc (k : string) (fields : list (string * json)) : option json :=
  match fields with
  | [] => None
  | (k', v) :: rest => if String.eqb k k' then Some v else assoc k rest
  end.

(** [needle in hay] on strings. *)
Fixpoint is_substring (needle hay : string) : bool :=
  String.prefix needle hay
  || match hay with
     | EmptyString => false
     | String _ hay' => is_substring needle hay'
     end.

Definition is_str (x : json) (s : string) : bool :=
  match x with
  | JStr s' => String.eqb s' s
  | _ => false
  end.

(** [k in x] for a string literal [k]: a key of a dictionary, an element of
    a list, a substring of a string; other objects are not containers. *)
Definition contains (k : string) (x : json) : res bool :=
  match x with
  | JObj fields => Ok (bool_decide (is_Some (assoc k fields)))
  | JArr items => Ok (existsb (fun i => is_str i k) items)
  | JStr s => Ok (is_substring k s)
  | _ => Raise TypeError
  end.

(** [x[k]] for a string literal [k]. *)
Definition subscript (x : json) (k : string) : res json :=
  match x with
  | JObj fields =>
      match assoc k fields with
      | Some v => Ok v
      | None => Raise KeyError
      end
  | _ => Raise TypeError
  end.

(** [x.get(k, dflt)]: a method of dictionaries only. *)
Definition get_method (x : json) (k : string) (dflt : json) : res json :=
  match x with
  | JObj fields => Ok (default dflt (assoc k fields))
  | _ => Raise AttributeError
  end.

(** [for i in x]. *)
Definition iterate (x : json) : res (list json) :=
  match x with
  | JArr items => Ok items
  | JObj fields => Ok (map (fun kv => JStr kv.1) fields)
  | JStr s => Ok (map (fun c => JStr (chr c)) (code_points s))
  | _ => Raise TypeError
  end.

(** [len(x)] *)
Definition len (x : json) : res nat :=
  match x with
  | JArr items => Ok (length items)
  | JObj fields => Ok (length fields)
  | JStr s => Ok (length (code_points s))
  | _ => Raise TypeError
  end.

Definition is_dict (x : json) : bool := match x with JObj _ => true | _ => false end.
Definition is_list (x : json) : bool := match x with JArr _ => true | _ => false end.
Definition is_string (x : json) : bool := match x with JStr _ => true | _ => false end.
Definition is_bool (x : json) : bool := match x with JBool _ => true | _ => false end.

(** The value of a number; [True] and [False] are the numbers 1 and 0. *)
Definition number (x : json) : option Q :=
  match x with
  | JBool b => Some (if b then 1%Q else 0%Q)
  | JInt z => Some (inject_Z z)
  | JFloat q => Some q
  | _ => None
  end.

(** [x == y] on hashable objects. *)
Definition eq_hashable (x y : json) : bool :=
  match x, y with
  | JNull, JNull => true
  | JStr s, JStr t => String.eqb s t
  | _, _ =>
      match number x, number y with
      | Some p, Some q => Qeq_bool p q
      | _, _ => false
      end
  end.

(** [x in names] for a set [names]: [x] is hashed first. *)
Definition in_set (x : json) (names : list json) : res bool :=
  match x with
  | JArr _ | JObj _ => Raise TypeError
  | _ => Ok (existsb (eq_hashable x) names)
  end.

(** [names.add(x)] *)
Definition set_add (x : json) (names : list json) : list json :=
  if existsb (eq_hashable x) names then names else names ++ [x].

(** [', '.join(names)]: every element must be a string. *)
Fixpoint join (names : list json) : res string :=
  match names with
  | [] => Ok ""
  | JStr s :: rest =>
      tl <- join rest ;;
      Ok (match rest with [] => s | _ => s +:+ ", " +:+ tl end)
  | _ :: _ => Raise TypeError
  end.

(** [s.lstrip('./')] *)
Fixpoint lstrip_dot_slash (s : string) : string :=
  match s with
  | String c s' =>
      if (Ascii.eqb c "." || Ascii.eqb c "/")%bool then lstrip_dot_slash s' else s
  | EmptyString => EmptyString
  end.

(** The white space of [str.strip()]: the characters for which
    [str.isspace()] holds. *)
Definition is_space (c : N) : bool :=
  ((9 <=? c) && (c <=? 13) || (28 <=? c) && (c <=? 32)
   || (c =? 133) || (c =? 160) || (c =? 5760)
   || (8192 <=? c) && (c <=? 8202) || (c =? 8232) || (c =? 8233)
   || (c =? 8239) || (c =? 8287) || (c =? 12288))%N.

(** [len(s.strip()) == 0] *)
Definition is_blank (s : string) : bool :=
  forallb is_space (code_points s).

(** [root / rel] of pathlib: an absolute right operand replaces the left. *)
Definition path_join (root rel : string) : string :=
  if String.prefix "/" rel then rel
  else if String.eqb rel "" then root
  else root +:+ "/" +:+ rel.

(** [is_substring] is the substring test. *)
Lemma prefix_spec (needle hay : string) :
  String.prefix needle hay = true <-> exists rest, hay = needle +:+ rest.
Proof.
  revert hay. induction needle as [|c needle IH]; intros hay.
  - split; [by exists hay | by destruct hay].
  - destruct hay as [|c' hay]; simpl.
    { split; [done|]. intros [rest H]. discriminate H. }
    destruct (Ascii.ascii_dec c c') as [->|Hne].
    + rewrite IH. split; intros [rest H]; exists rest; [by rewrite H | by injection H].
    + split; [done|]. intros [rest H]. injection H as H _. done.
Qed.

Lemma is_substring_spec (needle hay : string) :
  is_substring needle hay = true <-> exists before rest, hay = before +:+ needle +:+ rest.
Proof.
  induction hay as [|c hay IH]; cbn [is_substring].
  - rewrite orb_false_r, prefix_spec. split.
    + intros [rest H]. by exists "", rest.
    + intros (before & rest & H). destruct before; [by exists rest|done].
  - rewrite orb_true_iff, IH, prefix_spec. split.
    + intros [[rest H]|(before & rest & H)].
      * by exists "", rest.
      * exists (String c before), rest. simpl. by rewrite H.
    + intros (before & rest & H). destruct before as [|c' before]; simpl in H.
      * left. by exists rest.
      * right. injection H as _ H. by exists before, rest.
Qed.

(** A byte of ASCII stands for itself and ends the character before it. *)
Lemma decode_ascii (st : option partial) (s t : string) (c : ascii) :
  (code_point c < 128)%N ->
  decode st (s +:+ String c t) = decode st s ++ code_point c :: decode None t.
Proof.
  intros Hc. revert st. induction s as [|b s IH]; intros st.
  - change ("" +:+ String c t) with (String c t). cbn [decode].
    assert (Hfirst : first_byte (code_point c) = ([code_point c], None)).
    { unfold first_byte. by rewrite (proj2 (N.ltb_lt _ _) Hc). }
    destruct st as [[acc k bytes]|]; cbn [next_byte bytes_read].
    + assert (Hcont : is_continuation (code_point c) = false).
      { unfold is_continuation. apply andb_false_iff. left. apply N.leb_gt. lia. }
      rewrite Hcont, Hfirst. by rewrite <- app_assoc.
    + by rewrite Hfirst.
  - change (String b s +:+ String c t) with (String b (s +:+ String c t)).
    cbn [decode]. destruct (next_byte st (code_point b)) as [out st'].
    by rewrite IH, app_assoc.
Qed.

Lemma code_points_ascii (s t : string) (c : ascii) :
  (code_point c < 128)%N ->
  code_points (s +:+ String c t) = code_points s ++ code_point c :: code_points t.
Proof. apply decode_ascii. Qed.

Lemma stray_large (bytes : list N) (x : N) : x ∈ stray bytes -> (1114112 <= x)%N.
Proof.
  unfold stray. intros (b & -> & _)%list_elem_of_fmap. lia.
Qed.

(** A code point below 128 is a byte of the string. *)
Lemma next_byte_ascii (st : option partial) (b x : N) :
  x ∈ (next_byte st b).1 -> (x < 128)%N -> x = b.
Proof.
  assert (Hfirst : x ∈ (first_byte b).1 -> (x < 128)%N -> x = b).
  { unfold first_byte. repeat case_match; cbn [fst];
      try (by intros ?%elem_of_nil); try (by intros ?%list_elem_of_singleton).
    intros Hx%stray_large. lia. }
  destruct st as [[acc k bytes]|]; cbn [next_byte]; [|exact Hfirst].
  destruct (is_continuation b).
  - destruct k; cbn [fst]; [|by intros ?%elem_of_nil].
    case_match eqn:E.
    + apply andb_true_iff in E as [E _]. apply N.leb_le in E.
      intros ->%list_elem_of_singleton Hx.
      assert (128 <= least (S (length bytes)))%N; [|lia].
      unfold least. repeat case_match; lia.
    + intros Hx%stray_large. lia.
  - destruct (first_byte b) as [out st'] eqn:Ef. cbn [fst] in *.
    intros [Hx%stray_large|Hx]%elem_of_app Hlt; [lia|]. by apply Hfirst.
Qed.

Lemma decode_ascii_byte (st : option partial) (s : string) (x : N) :
  x ∈ decode st s -> (x < 128)%N ->
  exists c, c ∈ list_ascii_of_string s /\ code_point c = x.
Proof.
  revert st. induction s as [|b s IH]; intros st; cbn [decode].
  - destruct st as [p|]; [|by intros ?%elem_of_nil]. intros Hx%stray_large. lia.
  - pose proof (next_byte_ascii st (code_point b) x) as Hnext.
    destruct (next_byte st (code_point b)) as [out st']. simpl in Hnext.
    intros [Hx|Hx]%elem_of_app Hlt.
    + exists b. split; [left | symmetry; by apply Hnext].
    + destruct (IH st' Hx Hlt) as (c & Hc & Hcx). exists c. split; [by right | done].
Qed.

Lemma code_points_no_ascii (s : string) (c : ascii) :
  (code_point c < 128)%N -> c ∉ list_ascii_of_string s -> code_point c ∉ code_points s.
Proof.
  intros Hc Hout Hin.
  destruct (decode_ascii_byte None s _ Hin Hc) as (c' & Hc' & Heq).
  assert (c' = c); [|by subst].
  unfold code_point in Heq.
  by rewrite <- (ascii_N_embedding c'), Heq, ascii_N_embedding.
Qed.

End Py.

(** ** scripts/validate-marketplace.py *)

Module Marketplace.
Import Regex Py.

(** *** The version pattern *)

(** [0-9], [a-zA-Z] *)
Definition digit (c : N) : bool := ((48 <=? c) && (c <=? 57))%N.

Definition letter (c : N) : bool :=
  ((97 <=? c) && (c <=? 122) || (65 <=? c) && (c <=? 90))%N.

(** [\d] in a pattern that is a [str]: a decimal digit of Unicode. Among
    the characters of ASCII these are [0-9] in every version of Unicode;
    which of the others are decimal digits is for the database of the
    interpreter to say. *)
Definition decimal (unicode_decimal : N -> bool) (c : N) : bool :=
  if (c <? 128)%N then digit c else unicode_decimal c.

(** [[a-zA-Z0-9.-]] *)
Definition ident_char (c : N) : bool :=
  letter c || digit c || N.eqb c (code_point ".") || N.eqb c (code_point "-").

(** [\d+\.\d+\.\d+(-[a-zA-Z0-9.-]+)?(\+[a-zA-Z0-9.-]+)?], the pattern of
    line 327 between [^] and [$]. *)
Definition semver_pattern (unicode_decimal : N -> bool) : regex :=
  let d := Class (decimal unicode_decimal) in
  Cat (Plus d)
 (Cat (Chr (code_point "."))
 (Cat (Plus d)
 (Cat (Chr (code_point "."))
 (Cat (Plus d)
 (Cat (Opt (Cat (Chr (code_point "-")) (Plus (Class ident_char))))
      (Opt (Cat (Chr (code_point "+")) (Plus (Class ident_char))))))))).

Definition newline : ascii := "010".

(** The string without the newline that ends it, if one does. *)
Fixpoint before_final_newline (w : list N) : option (list N) :=
  match w with
  | [] => None
  | [c] => if N.eqb c (code_point newline) then Some [] else None
  | c :: w' => option_map (cons c) (before_final_newline w')
  end.

(** [re.match('^' body '$', s)]: [$] matches at the end of the string and
    just before a newline that ends the string. *)
Definition re_match (body : regex) (s : string) : bool :=
  let w := code_points s in
  fullmatch body w
  || match before_final_newline w with
     | Some w' => fullmatch body w'
     | None => false
     end.

(** *** The validator *)

(** A message: the text of the f-string and the values put into it. *)
Inductive message : Type := Msg (text : string) (args : list json).

Record validator : Type := Validator {
  errors : list message;
  warnings : list message;
  info : list message
}.

Definition init : validator := Validator [] [] [].

Definition error (v : validator) (text : string) (args : list json) : validator :=
  Validator (errors v ++ [Msg text args]) (warnings v) (info v).

Definition warning (v : validator) (text : string) (args : list json) : validator :=
  Validator (errors v) (warnings v ++ [Msg text args]) (info v).

Definition text (m : message) : string := let 'Msg text _ := m in text.
Definition args (m : message) : list json := let 'Msg _ args := m in args.

(** What the script sees of the machine: marketplace.json ([None] when the
    file does not exist, otherwise what [open] and [json.load] give), the
    root of the repository and the file system below it; the characters
    beyond ASCII that are decimal digits for the interpreter; and the
    standard output, which takes a line of [print] (given like a message,
    by its text and the values put into it) or makes [print] raise:
    UnicodeEncodeError when its encoding lacks a character of the line. *)
Record env : Type := Env {
  marketplace_file : option (res json);
  repo_root : string;
  path_exists : string -> bool;
  path_is_dir : string -> bool;
  read_text : string -> res string;
  unicode_decimal : N -> bool;
  stdout : message -> res unit
}.

(** [print(...)] *)
Definition print (e : env) (text : string) (args : list json) : res unit :=
  stdout e (Msg text args).

(** _is_valid_semver, lines 323-328; [re.match] wants a string. *)
Definition _is_valid_semver (e : env) (version : json) : res bool :=
  match version with
  | JStr s => Ok (re_match (semver_pattern (unicode_decimal e)) s)
  | _ => Raise TypeError
  end.

(** _validate_marketplace_structure, lines 69-75. *)
Definition _validate_marketplace_structure (m : json) (v : validator) : res validator :=
  for_each (fun v field =>
      present <- contains field m ;;
      Ok (if present then v else error v "Missing required field" [JStr field]))
    ["name"; "owner"; "metadata"; "plugins"] v.

(** _validate_owner, lines 77-94. *)
Definition _validate_owner (m : json) (v : validator) : res validator :=
  has_owner <- contains "owner" m ;;
  if negb has_owner then Ok v else
  owner <- subscript m "owner" ;;
  if negb (is_dict owner) then Ok (error v "'owner' must be an object" []) else
  has_name <- contains "name" owner ;;
  let v := if has_name then v else error v "'owner.name' is required" [] in
  has_email <- contains "email" owner ;;
  Ok (if has_email then v else warning v "'owner.email' is recommended" []).

(** _validate_metadata, lines 96-117. *)
Definition _validate_metadata (e : env) (m : json) (v : validator) : res validator :=
  has_metadata <- contains "metadata" m ;;
  if negb has_metadata then Ok (warning v "'metadata' is recommended" []) else
  metadata <- subscript m "metadata" ;;
  if negb (is_dict metadata) then Ok (error v "'metadata' must be an object" []) else
  has_description <- contains "description" metadata ;;
  let v := if has_description then v
           else warning v "'metadata.description' is recommended" [] in
  has_version <- contains "version" metadata ;;
  if negb has_version then Ok (warning v "'metadata.version' is recommended" []) else
  version <- subscript metadata "version" ;;
  valid <- _is_valid_semver e version ;;
  Ok (if valid then v
      else warning v "Version doesn't follow semantic versioning" [version]).

(** _validate_plugin_entry, lines 139-176. *)
Definition _validate_plugin_entry (plugin : json) (idx : nat)
    (st : validator * list json) : res (validator * list json) :=
  let '(v, plugin_names) := st in
  plugin_name <- get_method plugin "name" (JStr ("Plugin #" +:+ pretty idx)) ;;
  v <- for_each (fun v field =>
         present <- contains field plugin ;;
         Ok (if present then v
             else error v "Missing required field" [plugin_name; JStr field]))
       ["name"; "description"; "source"; "strict"; "skills"] v ;;
  has_name <- contains "name" plugin ;;
  st <- (if has_name then
           name <- subscript plugin "name" ;;
           dup <- in_set name plugin_names ;;
           Ok (if dup then error v "Duplicate plugin name" [name] else v,
               set_add name plugin_names)
         else Ok (v, plugin_names)) ;;
  let '(v, plugin_names) := st in
  has_source <- contains "source" plugin ;;
  v <- (if has_source then
          source <- subscript plugin "source" ;;
          Ok (match source with
              | JStr src =>
                  if String.prefix "./" src then v
                  else warning v "Source should start with './'" [plugin_name]
              | _ => error v "'source' must be a string" [plugin_name]
              end)
        else Ok v) ;;
  has_strict <- contains "strict" plugin ;;
  v <- (if has_strict then
          strict <- subscript plugin "strict" ;;
          Ok (if is_bool strict then v
              else error v "'strict' must be a boolean" [plugin_name])
        else Ok v) ;;
  has_skills <- contains "skills" plugin ;;
  v <- (if has_skills then
          skills <- subscript plugin "skills" ;;
          Ok (match skills with
              | JArr [] => warning v "Empty skills array" [plugin_name]
              | JArr _ => v
              | _ => error v "'skills' must be an array" [plugin_name]
              end)
        else Ok v) ;;
  Ok (v, plugin_names).

(** [for idx, plugin in enumerate(plugins)] *)
Fixpoint each_plugin (plugins : list json) (idx : nat)
    (st : validator * list json) : res (validator * list json) :=
  match plugins with
  | [] => Ok st
  | plugin :: rest =>
      st <- _validate_plugin_entry plugin idx st ;;
      each_plugin rest (S idx) st
  end.

(** _validate_plugins, lines 119-137. *)
Definition _validate_plugins (m : json) (v : validator) : res validator :=
  has_plugins <- contains "plugins" m ;;
  if negb has_plugins then Ok v else
  plugins <- subscript m "plugins" ;;
  match plugins with
  | JArr [] => Ok (warning v "No plugins defined in marketplace" [])
  | JArr items => st <- each_plugin items 0 (v, []) ;; Ok st.1
  | _ => Ok (error v "'plugins' must be an array" [])
  end.

(** _validate_source_isolation, lines 178-235. *)
Definition _validate_source_isolation (m : json) (v : validator) : res validator :=
  has_plugins <- contains "plugins" m ;;
  if negb has_plugins then Ok v else
  plugins <- subscript m "plugins" ;;
  match plugins with
  | JArr items =>
      lists <- for_each (fun (acc : list json * list json) plugin =>
          has_name <- contains "name" plugin ;;
          has_source <- (if has_name then contains "source" plugin else Ok false) ;;
          if negb (has_name && has_source) then Ok acc else
          plugin_name <- subscript plugin "name" ;;
          source <- subscript plugin "source" ;;
          skills <- get_method plugin "skills" (JArr []) ;;
          let has_skills := match skills with JArr (_ :: _) => true | _ => false end in
          Ok (if existsb (is_str source) ["./"; "."; ""] then
                if has_skills then (acc.1 ++ [plugin_name], acc.2)
                else (acc.1, acc.2 ++ [plugin_name])
              else acc))
        items ([], []) ;;
      let '(root_source_with_skills, root_source_hooks_only) := lists in
      v <- (match root_source_with_skills with
            | [] => Ok v
            | _ => names <- join root_source_with_skills ;;
                   Ok (error v "Cache duplication risk" [JStr names])
            end) ;;
      match root_source_hooks_only with
      | [] => Ok v
      | _ => names <- join root_source_hooks_only ;;
             Ok (warning v "Plugin(s) use root source './'" [JStr names])
      end
  | _ => Ok v
  end.

(** [if 'name' not in plugin or 'skills' not in plugin: continue] and the
    two subscripts that follow, lines 245-249 and 273-277. *)
Definition name_and_skills (plugin : json) : res (option (json * json)) :=
  has_name <- contains "name" plugin ;;
  has_skills <- (if has_name then contains "skills" plugin else Ok false) ;;
  if negb (has_name && has_skills) then Ok None else
  plugin_name <- subscript plugin "name" ;;
  skills <- subscript plugin "skills" ;;
  Ok (Some (plugin_name, skills)).

(** _validate_skill_references, lines 237-265. *)
Definition _validate_skill_references (m : json) (v : validator) : res validator :=
  has_plugins <- contains "plugins" m ;;
  if negb has_plugins then Ok v else
  plugins <- subscript m "plugins" ;;
  items <- iterate plugins ;;
  st <- for_each (fun (st : validator * list string) plugin =>
      ns <- name_and_skills plugin ;;
      match ns with
      | Some (plugin_name, JArr skills) =>
          for_each (fun (st : validator * list string) skill_path =>
              let '(v, all_skill_paths) := st in
              match skill_path with
              | JStr path =>
                  let v := if String.prefix "./" path then v
                           else warning v "Skill path should start with './'"
                                  [plugin_name; skill_path] in
                  let seen := existsb (String.eqb path) all_skill_paths in
                  let v := if seen
                           then warning v "Skill is referenced in multiple plugins" [skill_path]
                           else v in
                  Ok (v, if seen then all_skill_paths else all_skill_paths ++ [path])
              | _ => Ok (error v "Skill path must be a string" [plugin_name; skill_path],
                         all_skill_paths)
              end)
            skills st
      | _ => Ok st
      end)
    items (v, []) ;;
  Ok st.1.

(** Lines 286-321, the checks on one skill path. *)
Definition check_skill_dir (e : env) (plugin_name : json) (skill_path : string)
    (v : validator) : validator :=
  let skill_dir :=
    if String.prefix "./" skill_path
    then path_join (repo_root e) (lstrip_dot_slash skill_path)
    else path_join (repo_root e) skill_path in
  if negb (path_exists e skill_dir) then
    error v "Skill directory not found" [plugin_name; JStr skill_path]
  else if negb (path_is_dir e skill_dir) then
    error v "Skill path is not a directory" [plugin_name; JStr skill_path]
  else
    let skill_md_path := path_join skill_dir "SKILL.md" in
    if negb (path_exists e skill_md_path) then
      error v "Missing SKILL.md" [plugin_name; JStr skill_path]
    else
      let v :=
        match read_text e skill_md_path with
        | Ok content =>
            if is_blank content then
              error v "SKILL.md is empty" [plugin_name; JStr skill_path]
            else if (length (code_points content) <? 100)%nat then
              warning v "SKILL.md seems very short" [plugin_name; JStr skill_path]
            else v
        | Raise _ =>
            error v "Could not read SKILL.md" [plugin_name; JStr skill_path]
        end in
      if path_exists e (path_join skill_dir "plugin.json")
      then warning v "Contains plugin.json" [JStr skill_path]
      else v.

(** _validate_skill_files, lines 267-321. *)
Definition _validate_skill_files (e : env) (m : json) (v : validator) : res validator :=
  has_plugins <- contains "plugins" m ;;
  if negb has_plugins then Ok v else
  plugins <- subscript m "plugins" ;;
  items <- iterate plugins ;;
  for_each (fun v plugin =>
      ns <- name_and_skills plugin ;;
      match ns with
      | Some (plugin_name, JArr skills) =>
          Ok (fold_left (fun v skill_path =>
                match skill_path with
                | JStr path => check_skill_dir e plugin_name path v
                | _ => v
                end) skills v)
      | _ => Ok v
      end)
    items v.

(** The lines of one list of _print_results: the title with the length
    of the list, a line for each message, an empty line. *)
Definition print_list (e : env) (title : string) (l : list message) : res unit :=
  match l with
  | [] => Ok tt
  | _ =>
      _ <- print e title [JInt (Z.of_nat (length l))] ;;
      _ <- for_each (fun _ m => print e ("  • " +:+ text m) (args m)) l tt ;;
      print e "" []
  end.

(** The sum of the lengths of the skills of the plugins, lines 356-360. *)
Definition count_skills (items : list json) : res nat :=
  for_each (fun (total_skills : nat) plugin =>
      has_skills <- contains "skills" plugin ;;
      if has_skills then
        skills <- subscript plugin "skills" ;;
        Ok (match skills with
            | JArr l => (total_skills + length l)%nat
            | _ => total_skills
            end)
      else Ok total_skills)
    items 0%nat.

(** _print_results, lines 330-370; [self.info] is never added to. *)
Definition _print_results (e : env) (m : json) (v : validator) : res unit :=
  _ <- print e "" [] ;;
  _ <- print_list e "❌ Errors" (errors v) ;;
  _ <- print_list e "⚠️  Warnings" (warnings v) ;;
  _ <- print_list e "ℹ️  Info" (info v) ;;
  match errors v with
  | [] =>
      plugins <- get_method m "plugins" (JArr []) ;;
      plugin_count <- len plugins ;;
      plugins <- get_method m "plugins" (JArr []) ;;
      items <- iterate plugins ;;
      total_skills <- count_skills items ;;
      _ <- print e "✅ Validation passed!" [] ;;
      name <- get_method m "name" (JStr "unknown") ;;
      _ <- print e "   Marketplace:" [name] ;;
      _ <- print e "   Plugin groups:" [JInt (Z.of_nat plugin_count)] ;;
      _ <- print e "   Total skills:" [JInt (Z.of_nat total_skills)] ;;
      _ <- print e "   Warnings:" [JInt (Z.of_nat (length (warnings v)))] ;;
      print e "" []
  | _ =>
      _ <- print e "❌ Validation failed with error(s)"
             [JInt (Z.of_nat (length (errors v)))] ;;
      print e "" []
  end.

(** All the checks of lines 56-62, in order. *)
Definition run_checks (e : env) (m : json) : res validator :=
  v <- _validate_marketplace_structure m init ;;
  v <- _validate_owner m v ;;
  v <- _validate_metadata e m v ;;
  v <- _validate_plugins m v ;;
  v <- _validate_source_isolation m v ;;
  v <- _validate_skill_references m v ;;
  _validate_skill_files e m v.

(** How a call of [validate] ends: it returns, with the validator as it
    then is, or an exception leaves it. *)
Inductive outcome : Type :=
| Returned (v : validator) (success : bool)
| Crashed (e : exn).

(** The first line that validate prints, line 40. *)
Definition banner : string := "🔍 Validating claudex marketplace (Anthropic schema)...".

(** validate, lines 38-67. *)
Definition validate (e : env) : outcome :=
  match print e banner [] with
  | Raise ex => Crashed ex
  | Ok _ =>
      match marketplace_file e with
      | None => Returned (error init "marketplace.json not found" []) false
      | Some (Raise JSONDecodeError) =>
          Returned (error init "Invalid JSON in marketplace.json" []) false
      | Some (Raise ex) => Crashed ex
      | Some (Ok m) =>
          match run_checks e m with
          | Raise ex => Crashed ex
          | Ok v =>
              match _print_results e m v with
              | Raise ex => Crashed ex
              | Ok _ => Returned v (bool_decide (length (errors v) = 0%nat))
              end
          end
      end
  end.

(** main, lines 372-381: the status of the process. An exception that
    nothing catches ends the interpreter with status 1. *)
Definition main (e : env) : Z :=
  match validate e with
  | Returned _ success => if success then 0 else 1
  | Crashed _ => 1
  end.

(** *** The versions the pattern accepts *)

(** A non-empty run of characters of one class. *)
Definition run (p : N -> bool) (w : list N) : Prop :=
  w <> [] /\ forallb p w = true.

(** Nothing, or the mark followed by a non-empty run of [[a-zA-Z0-9.-]]. *)
Definition suffix (mark : ascii) (w : list N) : Prop :=
  w = [] \/ exists tail, w = code_point mark :: tail /\ run ident_char tail.

(** X.Y.Z of decimal digits, then an optional [-prerelease] and an optional
    [+build], both of letters, digits, dots and hyphens of ASCII. *)
Definition basic_form (unicode_decimal : N -> bool) (w : list N) : Prop :=
  exists X Y Z pre build,
    w = X ++ [code_point "."] ++ Y ++ [code_point "."] ++ Z ++ pre ++ build
    /\ run (decimal unicode_decimal) X /\ run (decimal unicode_decimal) Y
    /\ run (decimal unicode_decimal) Z
    /\ suffix "-" pre /\ suffix "+" build.

Lemma suffix_lang (mark : ascii) (w : list N) :
  Lang (Opt (Cat (Chr (code_point mark)) (Plus (Class ident_char)))) w <-> suffix mark w.
Proof.
  rewrite opt_inv, cat_iff. unfold suffix, run. split.
  - intros [(w1 & w2 & -> & ->%chr_inv & H2%plus_class)| ->]; [right | by left].
    by exists w2.
  - intros [->|(tail & -> & Ht)]; [by right | left].
    exists [code_point mark], tail. split; [done|].
    split; [by apply chr_inv | by apply plus_class].
Qed.

Lemma semver_pattern_lang (ud : N -> bool) (w : list N) :
  Lang (semver_pattern ud) w <-> basic_form ud w.
Proof.
  unfold semver_pattern, basic_form. cbv zeta. split.
  - intros (X & w1 & -> & HX%plus_class & H)%cat_inv.
    apply cat_inv in H as (d1 & w2 & -> & ->%chr_inv & H).
    apply cat_inv in H as (Y & w3 & -> & HY%plus_class & H).
    apply cat_inv in H as (d2 & w4 & -> & ->%chr_inv & H).
    apply cat_inv in H as (Z & w5 & -> & HZ%plus_class & H).
    apply cat_inv in H as (pre & build & -> & Hpre%suffix_lang & Hbuild%suffix_lang).
    by exists X, Y, Z, pre, build.
  - intros (X & Y & Z & pre & build & -> & HX & HY & HZ & Hpre & Hbuild).
    repeat (apply LCat; [first [by apply plus_class | by apply chr_inv] |]).
    apply LCat; by apply suffix_lang.
Qed.

Lemma before_final_newline_Some (w w' : list N) :
  before_final_newline w = Some w' <-> w = w' ++ [code_point newline].
Proof.
  revert w'. induction w as [|c w IH]; intros w'; cbn [before_final_newline].
  - split; [done|]. by destruct w'.
  - destruct w as [|c' w].
    + destruct (N.eqb_spec c (code_point newline)) as [->|E].
      * split; [by intros [= <-]|].
        destruct w' as [|? [|? ?]]; try done.
      * split; [done|].
        destruct w' as [|? [|? ?]]; try done. intros [= ->]. done.
    + destruct (before_final_newline (c' :: w)) as [w0|] eqn:Hb; cbn [option_map].
      * assert (Hw : c' :: w = w0 ++ [code_point newline]) by (by apply IH).
        rewrite Hw. split; [by intros [= <-]|].
        destruct w' as [|c0 w']; cbn [app].
        { intros [= _ H]. by destruct w0. }
        intros [= -> H%app_inj_tail]. by destruct H as [-> _].
      * split; [done|]. destruct w' as [|c0 w']; cbn [app]; [done|].
        intros [= -> H]. apply IH in H. congruence.
Qed.

(** What [re.match] accepts: a version of the basic form, or one followed
    by a single newline. *)
Theorem re_match_semver (ud : N -> bool) (s : string) :
  re_match (semver_pattern ud) s = true <->
    basic_form ud (code_points s)
    \/ exists w, code_points s = w ++ [code_point newline] /\ basic_form ud w.
Proof.
  unfold re_match. cbv zeta. rewrite orb_true_iff, fullmatch_spec, semver_pattern_lang.
  apply or_iff_compat_l.
  destruct (before_final_newline _) as [w'|] eqn:Hb.
  - rewrite fullmatch_spec, semver_pattern_lang.
    apply before_final_newline_Some in Hb. split.
    + intros H. by exists w'.
    + intros (w & Hw & H). rewrite Hb in Hw. by apply app_inj_tail in Hw as [-> _].
  - split; [done|]. intros (w & Hw & _).
    apply before_final_newline_Some in Hw. congruence.
Qed.

(** A word of the basic form holds no newline. *)
Lemma basic_form_no_newline (ud : N -> bool) (w : list N) :
  basic_form ud w -> code_point newline ∉ w.
Proof.
  assert (Hrun : forall p l, run p l -> p (code_point newline) = false ->
                   code_point newline ∉ l).
  { intros p l [_ Hl] Hp Hin. apply list_elem_of_In in Hin.
    rewrite forallb_forall in Hl. apply Hl in Hin. congruence. }
  assert (Hsuf : forall m l, suffix m l -> code_point m <> code_point newline ->
                   code_point newline ∉ l).
  { intros m l [->|(tail & -> & Ht)] Hm; [by apply not_elem_of_nil|].
    apply not_elem_of_cons. split; [done|]. by eapply Hrun. }
  intros (X & Y & Z & pre & build & -> & HX & HY & HZ & Hpre & Hbuild).
  rewrite !elem_of_app, !list_elem_of_singleton.
  intros [H|[H|[H|[H|[H|[H|H]]]]]]; try discriminate H.
  - by eapply Hrun in H.
  - by eapply Hrun in H.
  - by eapply Hrun in H.
  - by eapply Hsuf in H.
  - by eapply Hsuf in H.
Qed.

(** *** Semantic Versioning 2.0.0

    The format the specification names (semver.org, items 2, 9 and 10):
    three numeric identifiers without leading zeros, then an optional
    pre-release and optional build metadata, each a dot-separated series of
    non-empty identifiers of letters, digits and hyphens of ASCII; a numeric
    pre-release identifier has no leading zero. *)

Module Semver2.

Fixpoint split_on (sep : N) (w : list N) : list (list N) :=
  match w with
  | [] => [[]]
  | c :: w' =>
      if N.eqb c sep then [] :: split_on sep w'
      else match split_on sep w' with
           | first :: rest => (c :: first) :: rest
           | [] => [[c]]
           end
  end.

(** The part before the first [sep], and the part after it if there is one. *)
Fixpoint cut (sep : N) (w : list N) : list N * option (list N) :=
  match w with
  | [] => ([], None)
  | c :: w' =>
      if N.eqb c sep then ([], Some w')
      else let '(before, after) := cut sep w' in (c :: before, after)
  end.

Definition numeric_identifier (w : list N) : bool :=
  match w with
  | [] => false
  | [c] => digit c
  | c :: _ => negb (N.eqb c (code_point "0")) && forallb digit w
  end.

Definition identifier_char (c : N) : bool :=
  letter c || digit c || N.eqb c (code_point "-").

Definition build_identifier (w : list N) : bool :=
  match w with
  | [] => false
  | _ => forallb identifier_char w
  end.

Definition prerelease_identifier (w : list N) : bool :=
  build_identifier w && (if forallb digit w then numeric_identifier w else true).

Definition valid (s : string) : bool :=
  let '(rest, build) := cut (code_point "+") (code_points s) in
  let '(core, pre) := cut (code_point "-") rest in
  match split_on (code_point ".") core with
  | [major; minor; patch] =>
      numeric_identifier major && numeric_identifier minor && numeric_identifier patch
  | _ => false
  end
  && match pre with
     | Some p => forallb prerelease_identifier (split_on (code_point ".") p)
     | None => true
     end
  && match build with
     | Some b => forallb build_identifier (split_on (code_point ".") b)
     | None => true
     end.

Example valid_examples :
  map valid ["1.0.0"; "0.3.7"; "1.0.0-alpha"; "1.0.0-alpha.1"; "1.0.0-0.3.7";
             "1.0.0-x.7.z.92"; "1.0.0-x-y-z.--"; "1.0.0-alpha+001";
             "1.0.0+20130313144700"; "1.0.0-beta+exp.sha.5114f85";
             "1.0.0+21AF26D3----117B344092BD"]
  = repeat true 11.
Proof. vm_compute. reflexivity. Qed.

Example invalid_examples :
  map valid ["1"; "1.2"; "1.2.3.4"; "01.2.3"; "1.02.3"; "1.2.3-"; "1.2.3-01";
             "1.2.3-a..b"; "1.2.3+"; "1.2.3+a..b"; "a.b.c"; ""; "١.٢.٣"]
  = repeat false 13.
Proof. vm_compute. reflexivity. Qed.

End Semver2.

(** *** Machines *)

(** The decimal digits beyond ASCII of Unicode 14.0, first and last code
    point of each run of them. *)
Definition decimal_digits_14 : list (N * N) :=
  [(1632, 1641); (1776, 1785); (1984, 1993); (2406, 2415); (2534, 2543);
   (2662, 2671); (2790, 2799); (2918, 2927); (3046, 3055); (3174, 3183);
   (3302, 3311); (3430, 3439); (3558, 3567); (3664, 3673); (3792, 3801);
   (3872, 3881); (4160, 4169); (4240, 4249); (6112, 6121); (6160, 6169);
   (6470, 6479); (6608, 6617); (6784, 6793); (6800, 6809); (6992, 7001);
   (7088, 7097); (7232, 7241); (7248, 7257); (42528, 42537); (43216, 43225);
   (43264, 43273); (43472, 43481); (43504, 43513); (43600, 43609);
   (44016, 44025); (65296, 65305); (66720, 66729); (68912, 68921);
   (69734, 69743); (69872, 69881); (69942, 69951); (70096, 70105);
   (70384, 70393); (70736, 70745); (70864, 70873); (71248, 71257);
   (71360, 71369); (71472, 71481); (71904, 71913); (72016, 72025);
   (72784, 72793); (73040, 73049); (73120, 73129); (92768, 92777);
   (92864, 92873); (93008, 93017); (120782, 120831); (123200, 123209);
   (123632, 123641); (125264, 125273); (130032, 130041)]%N.

Definition unicode_14_decimal (c : N) : bool :=
  existsb (fun r => (r.1 <=? c) && (c <=? r.2))%N decimal_digits_14.

(** A standard output in UTF-8. It has every character but the
    surrogates. The text of a line and a string put into it are written as
    they are; a string inside a list or a dictionary is written by [repr],
    which escapes a surrogate. *)
Definition encodable (s : string) : bool :=
  forallb (fun c => (c <? 55296) || (57343 <? c) && (c <? 1114112))%N (code_points s).

Definition utf8_stdout (line : message) : res unit :=
  if encodable (text line)
     && forallb (fun x => match x with JStr s => encodable s | _ => true end) (args line)
  then Ok tt else Raise UnicodeEncodeError.


(** *** The version check and its use *)

Lemma no_newline_no_final (w : list N) :
  code_point newline ∉ w -> before_final_newline w = None.
Proof.
  intros Hn. destruct (before_final_newline w) as [w'|] eqn:Hb; [|done].
  apply before_final_newline_Some in Hb. subst.
  exfalso. apply Hn. apply elem_of_app. right. by left.
Qed.

(** _validate_metadata on a marketplace whose metadata holds a version
    string: no error is recorded, and a version that fails the check is
    reported by the last warning. *)
Lemma metadata_version_warning (e : env) (fields md : list (string * json)) (s : string)
    (v : validator) :
  assoc "metadata" fields = Some (JObj md) ->
  assoc "version" md = Some (JStr s) ->
  exists v', _validate_metadata e (JObj fields) v = Ok v'
    /\ errors v' = errors v
    /\ (_is_valid_semver e (JStr s) = Ok true ->
          warnings v' = warnings v
          \/ warnings v' = warnings v ++ [Msg "'metadata.description' is recommended" []])
    /\ (_is_valid_semver e (JStr s) = Ok false ->
          last (warnings v')
            = Some (Msg "Version doesn't follow semantic versioning" [JStr s])).
Proof.
  intros Hm Hv. unfold _validate_metadata, contains, subscript.
  rewrite Hm. simpl. rewrite bool_decide_eq_true_2 by (by eexists). simpl.
  rewrite Hv. simpl. eexists. split; [reflexivity|].
  destruct (re_match _ s), (bool_decide (is_Some (assoc "description" md)));
    simpl; repeat split; try done; intros _; eauto using last_snoc.
Qed.

(** C8, as the code has it. _is_valid_semver returns True for a version
    string exactly when the string, or the string without one newline at
    its end, is X.Y.Z with an optional -prerelease and an optional +build:
    X, Y and Z non-empty runs of decimal digits (of Unicode, not of ASCII
    only), prerelease and build non-empty runs of letters and digits of
    ASCII, dots and hyphens (leading zeros and empty identifiers
    included); and _validate_metadata records no error for a version
    string: one that fails the check is reported by a warning. *)
Theorem basic_semver_check (e : env) (s : string) (fields md : list (string * json))
    (v : validator) :
  assoc "metadata" fields = Some (JObj md) ->
  assoc "version" md = Some (JStr s) ->
  (exists b, _is_valid_semver e (JStr s) = Ok b
     /\ (b = true <->
           basic_form (unicode_decimal e) (code_points s)
           \/ exists w, code_points s = w ++ [code_point newline]
                        /\ basic_form (unicode_decimal e) w))
  /\ exists v', _validate_metadata e (JObj fields) v = Ok v'
       /\ errors v' = errors v
       /\ (_is_valid_semver e (JStr s) = Ok false ->
             last (warnings v')
               = Some (Msg "Version doesn't follow semantic versioning" [JStr s])).
Proof.
  intros Hm Hv. split.
  - eexists. split; [reflexivity|]. apply re_match_semver.
  - destruct (metadata_version_warning e fields md s v Hm Hv) as (v' & Hrun & He & _ & Hw).
    by exists v'.
Qed.

(** A machine: a repository with the skill whose SKILL.md is short, or
    without its directory; the decimal digits of Unicode 14.0; a standard
    output in UTF-8. *)
Definition machine (marketplace : json) (skill_present : bool) : env :=
  Env (Some (Ok marketplace)) "/repo"
      (fun path => skill_present
                   && (String.eqb path "/repo/skills/audit"
                       || String.eqb path "/repo/skills/audit/SKILL.md"))
      (fun path => String.eqb path "/repo/skills/audit")
      (fun _ => Ok "# Audit")
      unicode_14_decimal utf8_stdout.

Lemma basic_semver_check_witness :
  let s := "1.2.3-rc.1+build.5" in
  let md := [("description", JStr "skills"); ("version", JStr s)] in
  let fields := [("name", JStr "claudex"); ("metadata", JObj md)] in
  let e := machine (JObj fields) true in
  (exists b, _is_valid_semver e (JStr s) = Ok b
     /\ (b = true <->
           basic_form (unicode_decimal e) (code_points s)
           \/ exists w, code_points s = w ++ [code_point newline]
                        /\ basic_form (unicode_decimal e) w))
  /\ exists v', _validate_metadata e (JObj fields) init = Ok v'
       /\ errors v' = errors init
       /\ (_is_valid_semver e (JStr s) = Ok false ->
             last (warnings v')
               = Some (Msg "Version doesn't follow semantic versioning" [JStr s])).
Proof.
  intros s md fields e. apply (basic_semver_check e s fields md init); reflexivity.
Defined.

(** The pattern is wider than Semantic Versioning 2.0.0: a leading zero,
    empty identifiers and digits that are not of ASCII pass the check. *)
Lemma semver_check_accepts_invalid :
  let e := machine JNull true in
  _is_valid_semver e (JStr "01.2.3") = Ok true /\ Semver2.valid "01.2.3" = false
  /\ _is_valid_semver e (JStr "1.0.0-..") = Ok true /\ Semver2.valid "1.0.0-.." = false
  /\ _is_valid_semver e (JStr "١.٢.٣") = Ok true /\ Semver2.valid "١.٢.٣" = false.
Proof. vm_compute. repeat split; reflexivity. Qed.

(** [$] also matches before a final newline: a version followed by a
    newline passes the check. *)
Lemma semver_check_final_newline (e : env) :
  _is_valid_semver e (JStr ("1.0.0" +:+ String newline "")) = Ok true.
Proof. vm_compute. reflexivity. Qed.

(** A version that is not a string makes [re.match] raise. *)
Lemma semver_check_not_a_string (e : env) :
  _is_valid_semver e (JInt 1) = Raise TypeError.
Proof. reflexivity. Qed.

(** *** The errors only grow *)

(** [keeps v v']: the errors of [v] are still in [v']. *)
Definition keeps (v v' : validator) : Prop :=
  exists more, errors v' = errors v ++ more.

Lemma keeps_refl (v : validator) : keeps v v.
Proof. exists []. by rewrite app_nil_r. Qed.

Lemma keeps_trans (v1 v2 v3 : validator) : keeps v1 v2 -> keeps v2 v3 -> keeps v1 v3.
Proof. intros [l1 H1] [l2 H2]. exists (l1 ++ l2). by rewrite H2, H1, app_assoc. Qed.

Lemma keeps_error (v : validator) (text : string) (args : list json) :
  keeps v (error v text args).
Proof. by eexists. Qed.

Lemma keeps_warning (v : validator) (text : string) (args : list json) :
  keeps v (warning v text args).
Proof. exists []. simpl. by rewrite app_nil_r. Qed.

Lemma keeps_no_errors (v v' : validator) : keeps v v' -> errors v' = [] -> errors v = [].
Proof. intros [l H] H'. rewrite H' in H. symmetry in H. by apply app_eq_nil in H as [? _]. Qed.

(** A loop keeps what each turn keeps. *)
Lemma for_each_keeps {A S : Type} (proj : S -> validator) (f : S -> A -> res S)
    (l : list A) (s s' : S) :
  (forall s x s', f s x = Ok s' -> keeps (proj s) (proj s')) ->
  for_each f l s = Ok s' -> keeps (proj s) (proj s').
Proof.
  intros Hf. revert s. induction l as [|x l IH]; simpl; intros s H.
  - injection H as ->. apply keeps_refl.
  - destruct (f s x) as [s1|] eqn:E; [|done]. simpl in H.
    eapply keeps_trans; [by eapply Hf | by apply IH].
Qed.

(** Splits a run that ended well into the steps it is made of. *)
Ltac run_inv H :=
  repeat match type of H with
    | bind ?r _ = Ok _ =>
        let E := fresh "E" in destruct r eqn:E; simpl in H; [|discriminate H]
    | (if ?b then _ else _) = Ok _ =>
        let E := fresh "E" in destruct b eqn:E; simpl in H
    | (let '(_, _) := ?p in _) = Ok _ => destruct p; simpl in H
    | match ?x with _ => _ end = Ok _ =>
        let E := fresh "E" in destruct x eqn:E; simpl in H; try discriminate H
    | Ok _ = Ok _ => injection H as H
    end.

Ltac solve_keeps :=
  simpl; unfold id; repeat case_match; subst; simpl;
  eauto 6 using keeps_refl, keeps_error, keeps_warning, keeps_trans.

Lemma structure_keeps (m : json) (v v' : validator) :
  _validate_marketplace_structure m v = Ok v' -> keeps v v'.
Proof.
  apply (for_each_keeps id). intros s x s' H. run_inv H; subst; solve_keeps.
Qed.

Lemma owner_keeps (m : json) (v v' : validator) :
  _validate_owner m v = Ok v' -> keeps v v'.
Proof. unfold _validate_owner. intros H. run_inv H; subst; solve_keeps. Qed.

Lemma metadata_keeps (e : env) (m : json) (v v' : validator) :
  _validate_metadata e m v = Ok v' -> keeps v v'.
Proof. unfold _validate_metadata. intros H. run_inv H; subst; solve_keeps. Qed.

Lemma plugin_entry_keeps (plugin : json) (idx : nat) (st st' : validator * list json) :
  _validate_plugin_entry plugin idx st = Ok st' -> keeps st.1 st'.1.
Proof.
  unfold _validate_plugin_entry. destruct st as [v names]. intros H.
  destruct (get_method plugin _ _) as [plugin_name|] eqn:En; [|done]. cbn [bind] in H.
  destruct (for_each _ _ v) as [v1|] eqn:E1; [|done]. cbn [bind] in H.
  assert (K1 : keeps v v1).
  { revert E1. apply (for_each_keeps id). intros s x s' Hs. run_inv Hs; subst; solve_keeps. }
  destruct (contains "name" plugin) as [has_name|]; [|done]. cbn [bind] in H.
  match type of H with bind ?r _ = _ => destruct r as [[v2 names2]|] eqn:E2; [|done] end.
  cbn [bind] in H.
  assert (K2 : keeps v1 v2).
  { destruct has_name; run_inv E2; simplify_eq; solve_keeps. }
  destruct (contains "source" plugin) as [has_source|]; [|done]. cbn [bind] in H.
  match type of H with bind ?r _ = _ => destruct r as [v3|] eqn:E3; [|done] end.
  cbn [bind] in H.
  assert (K3 : keeps v2 v3).
  { destruct has_source; run_inv E3; simplify_eq; solve_keeps. }
  destruct (contains "strict" plugin) as [has_strict|]; [|done]. cbn [bind] in H.
  match type of H with bind ?r _ = _ => destruct r as [v4|] eqn:E4; [|done] end.
  cbn [bind] in H.
  assert (K4 : keeps v3 v4).
  { destruct has_strict; run_inv E4; simplify_eq; solve_keeps. }
  destruct (contains "skills" plugin) as [has_skills|]; [|done]. cbn [bind] in H.
  match type of H with bind ?r _ = _ => destruct r as [v5|] eqn:E5; [|done] end.
  cbn [bind] in H.
  assert (K5 : keeps v4 v5).
  { destruct has_skills; run_inv E5; simplify_eq; solve_keeps. }
  injection H as <-. simpl.
  eauto using keeps_trans.
Qed.

Lemma each_plugin_keeps (plugins : list json) (idx : nat) (st st' : validator * list json) :
  each_plugin plugins idx st = Ok st' -> keeps st.1 st'.1.
Proof.
  revert idx st. induction plugins as [|plugin rest IH]; simpl; intros idx st H.
  - injection H as ->. apply keeps_refl.
  - destruct (_validate_plugin_entry plugin idx st) as [st1|] eqn:E; [|done]. simpl in H.
    eapply keeps_trans; [by eapply plugin_entry_keeps | by eapply IH].
Qed.

Lemma plugins_keeps (m : json) (v v' : validator) :
  _validate_plugins m v = Ok v' -> keeps v v'.
Proof.
  unfold _validate_plugins. intros H.
  destruct (contains "plugins" m) as [[|]|]; simpl in H; try done.
  2: { injection H as ->. apply keeps_refl. }
  destruct (subscript m "plugins") as [plugins|]; [|done]. simpl in H.
  destruct plugins as [| | | | |[|p items]|]; try (injection H as <-; solve_keeps).
  destruct (each_plugin _ _ _) as [st|] eqn:E; [|done]. simpl in H.
  injection H as <-. by apply each_plugin_keeps in E.
Qed.

Lemma source_isolation_keeps (m : json) (v v' : validator) :
  _validate_source_isolation m v = Ok v' -> keeps v v'.
Proof.
  unfold _validate_source_isolation. intros H.
  destruct (contains "plugins" m) as [[|]|]; cbn [bind negb] in H; try done.
  2: { injection H as ->. apply keeps_refl. }
  destruct (subscript m "plugins") as [plugins|]; [|done]. cbn [bind] in H.
  destruct plugins as [| | | | |items|]; try (injection H as <-; apply keeps_refl).
  destruct (for_each _ items _) as [[with_skills hooks_only]|]; [|done]. cbn [bind] in H.
  match type of H with
  | bind ?r _ = _ => destruct r as [v1|] eqn:E1; [|done]
  end.
  cbn [bind] in H.
  assert (K1 : keeps v v1).
  { destruct with_skills as [|n ns]; [injection E1 as <-; apply keeps_refl|].
    destruct (join (n :: ns)) as [names|]; cbn [bind] in E1; [|done].
    injection E1 as <-. apply keeps_error. }
  eapply keeps_trans; [exact K1|].
  destruct hooks_only as [|n ns]; [injection H as <-; apply keeps_refl|].
  destruct (join (n :: ns)) as [names|]; cbn [bind] in H; [|done].
  injection H as <-. apply keeps_warning.
Qed.

Lemma skill_references_keeps (m : json) (v v' : validator) :
  _validate_skill_references m v = Ok v' -> keeps v v'.
Proof.
  unfold _validate_skill_references. intros H.
  destruct (contains "plugins" m) as [[|]|]; cbn [bind negb] in H; try done.
  2: { injection H as ->. apply keeps_refl. }
  destruct (subscript m "plugins") as [plugins|]; [|done]. cbn [bind] in H.
  destruct (iterate plugins) as [items|]; [|done]. cbn [bind] in H.
  destruct (for_each _ items _) as [st|] eqn:E; [|done]. cbn [bind] in H.
  injection H as <-. revert E.
  apply (for_each_keeps fst). intros st0 plugin st1 Hs.
  destruct (name_and_skills plugin) as [[[plugin_name skills]|]|]; cbn [bind] in Hs;
    try done; [|injection Hs as ->; apply keeps_refl].
  destruct skills; try (injection Hs as ->; apply keeps_refl).
  revert Hs. apply (for_each_keeps fst). intros [v0 seen] skill_path st2 Hs.
  destruct skill_path; injection Hs as <-; solve_keeps.
Qed.

Lemma check_skill_dir_keeps (e : env) (plugin_name : json) (path : string) (v : validator) :
  keeps v (check_skill_dir e plugin_name path v).
Proof. unfold check_skill_dir. solve_keeps. Qed.

Lemma skill_files_keeps (e : env) (m : json) (v v' : validator) :
  _validate_skill_files e m v = Ok v' -> keeps v v'.
Proof.
  unfold _validate_skill_files. intros H.
  destruct (contains "plugins" m) as [[|]|]; cbn [bind negb] in H; try done.
  2: { injection H as ->. apply keeps_refl. }
  destruct (subscript m "plugins") as [plugins|]; [|done]. cbn [bind] in H.
  destruct (iterate plugins) as [items|]; [|done]. cbn [bind] in H.
  revert H. apply (for_each_keeps id). intros v0 plugin v1 Hs.
  destruct (name_and_skills plugin) as [[[plugin_name skills]|]|]; cbn [bind] in Hs;
    try done; [|injection Hs as ->; apply keeps_refl].
  destruct skills as [| | | | |paths|]; try (injection Hs as ->; apply keeps_refl).
  injection Hs as <-. unfold id. clear.
  revert v0. induction paths as [|skill_path rest IH]; intros v0; simpl.
  - apply keeps_refl.
  - eapply keeps_trans; [|apply IH].
    destruct skill_path; try apply keeps_refl. apply check_skill_dir_keeps.
Qed.

(** *** A run without errors *)


(** No error after the first check: the four fields are in the document. *)
Lemma structure_no_errors (m : json) (v : validator) :
  _validate_marketplace_structure m init = Ok v -> errors v = [] ->
  contains "owner" m = Ok true /\ contains "plugins" m = Ok true.
Proof.
  unfold _validate_marketplace_structure. simpl. intros H Hv.
  destruct (contains "name" m) as [b1|]; [|done].
  destruct (contains "owner" m) as [b2|]; [|done].
  destruct (contains "metadata" m) as [b3|]; [|done].
  destruct (contains "plugins" m) as [b4|]; [|done].
  simpl in H. injection H as <-.
  destruct b1, b2, b3, b4; simpl in Hv; done.
Qed.

Lemma subscript_Ok_dict (x : json) (k : string) (y : json) :
  subscript x k = Ok y -> exists fields, x = JObj fields /\ assoc k fields = Some y.
Proof.
  destruct x; simpl; try done. destruct (assoc k fields) eqn:E; [|done].
  intros [= ->]. by eexists.
Qed.

Lemma owner_dict (m : json) (v v' : validator) :
  contains "owner" m = Ok true -> _validate_owner m v = Ok v' ->
  exists fields, m = JObj fields.
Proof.
  unfold _validate_owner. intros -> H. cbn [bind negb] in H.
  destruct (subscript m "owner") as [owner|] eqn:E; [|done].
  apply subscript_Ok_dict in E as (fields & -> & _). by eexists.
Qed.





(** *** The lines of a run *)



(** [validate] returns True exactly when it leaves no error, also on the
    two early returns. *)
Lemma validate_success (e : env) (v : validator) (success : bool) :
  validate e = Returned v success -> (success = true <-> errors v = []).
Proof.
  unfold validate. intros H.
  destruct (print e banner []); [|done].
  destruct (marketplace_file e) as [[m|ex]|].
  - destruct (run_checks e m) as [v0|]; [|done].
    destruct (_print_results e m v0); [|done]. injection H as <- <-.
    rewrite bool_decide_eq_true. split.
    + by intros ?%length_zero_iff_nil.
    + by intros ->.
  - destruct ex; try done; injection H as <- <-; done.
  - injection H as <- <-. done.
Qed.

(** The status is 0 exactly when the first line was printed,
    marketplace.json was loaded, every check ran, the list of errors is
    empty at the end and the report was printed. *)
Lemma status_0 (e : env) :
  main e = 0 <->
    print e banner [] = Ok tt
    /\ exists m v, marketplace_file e = Some (Ok m)
         /\ run_checks e m = Ok v /\ errors v = []
         /\ _print_results e m v = Ok tt.
Proof.
  unfold main. split.
  - destruct (validate e) as [v success|ex] eqn:Hval; [|done].
    destruct success; [|done]. intros _.
    pose proof (proj1 (validate_success _ _ _ Hval) eq_refl) as Hv.
    unfold validate in Hval.
    destruct (print e banner []) as [[]|]; [|done]. split; [done|].
    destruct (marketplace_file e) as [[m|ex]|].
    + destruct (run_checks e m) as [v0|] eqn:Hrun; [|done].
      destruct (_print_results e m v0) as [[]|] eqn:Hprint; [|done].
      injection Hval as Hvv _. subst v0. by exists m, v.
    + destruct ex; done.
    + done.
  - intros (Hbanner & m & v & Hm & Hrun & Hv & Hprint). unfold validate.
    rewrite Hbanner, Hm, Hrun, Hprint, Hv. done.
Qed.


(** A repository with one plugin and one skill whose SKILL.md is short:
    warnings, no error, status 0. Without the skill directory: status 1. *)
Definition marketplace_of (name version : string) : json :=
  JObj [("name", JStr name);
        ("owner", JObj [("name", JStr "cskiro")]);
        ("metadata", JObj [("description", JStr "skills"); ("version", JStr version)]);
        ("plugins", JArr [
           JObj [("name", JStr "tools"); ("description", JStr "d");
                 ("source", JStr "./plugins/tools"); ("strict", JBool false);
                 ("skills", JArr [JStr "./skills/audit"])]])].

Definition example_marketplace : json := marketplace_of "claudex" "1.0".

Definition example_env (skill_present : bool) : env :=
  machine example_marketplace skill_present.

Example example_pass_with_warnings :
  main (example_env true) = 0
  /\ match validate (example_env true) with
     | Returned v _ => errors v = [] /\ length (warnings v) = 3%nat
     | Crashed _ => False
     end.
Proof. vm_compute. repeat split; reflexivity. Qed.

Example example_fail :
  main (example_env false) = 1
  /\ match validate (example_env false) with
     | Returned v _ =>
         errors v = [Msg "Skill directory not found" [JStr "tools"; JStr "./skills/audit"]]
     | Crashed _ => False
     end.
Proof. vm_compute. repeat split; reflexivity. Qed.

(** A document that is a number: the first check raises, status 1. *)
Example example_crash :
  validate (machine (JInt 5) true) = Crashed TypeError.
Proof. vm_compute. reflexivity. Qed.


End Marketplace.

(** ** SHA-256 (FIPS 180-4), what [hashlib.sha256] computes *)

Module Sha256.

Definition word (x : Z) : Z := x mod 2 ^ 32.
Definition add (x y : Z) : Z := word (x + y).
Definition rotr (n x : Z) : Z := Z.lor (Z.shiftr x n) (word (Z.shiftl x (32 - n))).
Definition shr (n x : Z) : Z := Z.shiftr x n.
Definition xor3 (x y z : Z) : Z := Z.lxor x (Z.lxor y z).
Definition complement (x : Z) : Z := Z.lxor x (2 ^ 32 - 1).

Definition Ch (x y z : Z) : Z := Z.lxor (Z.land x y) (Z.land (complement x) z).
Definition Maj (x y z : Z) : Z := xor3 (Z.land x y) (Z.land x z) (Z.land y z).
Definition Sigma0 (x : Z) : Z := xor3 (rotr 2 x) (rotr 13 x) (rotr 22 x).
Definition Sigma1 (x : Z) : Z := xor3 (rotr 6 x) (rotr 11 x) (rotr 25 x).
Definition sigma0 (x : Z) : Z := xor3 (rotr 7 x) (rotr 18 x) (shr 3 x).
Definition sigma1 (x : Z) : Z := xor3 (rotr 17 x) (rotr 19 x) (shr 10 x).

Definition K : list Z :=
  [
   1116352408; 1899447441; 3049323471; 3921009573; 961987163; 1508970993;
   2453635748; 2870763221; 3624381080; 310598401; 607225278; 1426881987;
   1925078388; 2162078206; 2614888103; 3248222580; 3835390401; 4022224774;
   264347078; 604807628; 770255983; 1249150122; 1555081692; 1996064986;
   2554220882; 2821834349; 2952996808; 3210313671; 3336571891; 3584528711;
   113926993; 338241895; 666307205; 773529912; 1294757372; 1396182291;
   1695183700; 1986661051; 2177026350; 2456956037; 2730485921; 2820302411;
   3259730800; 3345764771; 3516065817; 3600352804; 4094571909; 275423344;
   430227734; 506948616; 659060556; 883997877; 958139571; 1322822218;
   1537002063; 1747873779; 1955562222; 2024104815; 2227730452; 2361852424;
   2428436474; 2756734187; 3204031479; 3329325298
  ].

Definition H0 : list Z :=
  [
   1779033703; 3144134277; 1013904242; 2773480762;
   1359893119; 2600822924; 528734635; 1541459225
  ].

(** The message, the bit 1, zeros up to 56 modulo 64 and the length in bits
    on 8 bytes. *)
Definition big_endian (n : nat) (x : Z) : list Z :=
  map (fun i => Z.shiftr x (8 * Z.of_nat i) mod 256) (rev (seq 0 n)).

Definition pad (bytes : list Z) : list Z :=
  let len := length bytes in
  let zeros := ((64 - (len + 9) mod 64) mod 64)%nat in
  bytes ++ [128] ++ repeat 0 zeros ++ big_endian 8 (8 * Z.of_nat len).

Fixpoint words (n : nat) (bytes : list Z) : list Z :=
  match n, bytes with
  | S n', b3 :: b2 :: b1 :: b0 :: rest =>
      (((b3 * 256 + b2) * 256 + b1) * 256 + b0) :: words n' rest
  | _, _ => []
  end.

(** The message schedule, [W_t] for [t] from 16: the list holds the last
    16 words, the oldest first. *)
Definition next_word (w : list Z) : Z :=
  add (add (sigma1 (nth 14 w 0)) (nth 9 w 0)) (add (sigma0 (nth 1 w 0)) (nth 0 w 0)).

Fixpoint schedule (n : nat) (w : list Z) : list Z :=
  match n with
  | O => []
  | S n' => let x := next_word w in x :: schedule n' (tail w ++ [x])
  end.

Definition round (s : list Z) (kw : Z * Z) : list Z :=
  match s with
  | [a; b; c; d; e; f; g; h] =>
      let t1 := add (add (add h (Sigma1 e)) (add (Ch e f g) kw.1)) kw.2 in
      let t2 := add (Sigma0 a) (Maj a b c) in
      [add t1 t2; a; b; c; add d t1; e; f; g]
  | _ => s
  end.

Definition compress (h : list Z) (block : list Z) : list Z :=
  let w := words 16 block in
  let w := w ++ schedule 48 w in
  let s := fold_left round (combine K w) h in
  map (fun xy => add xy.1 xy.2) (combine h s).

Fixpoint blocks (n : nat) (h : list Z) (bytes : list Z) : list Z :=
  match n with
  | O => h
  | S n' => blocks n' (compress h (firstn 64 bytes)) (skipn 64 bytes)
  end.

Definition digest (bytes : list Z) : list Z :=
  let padded := pad bytes in
  flat_map (big_endian 4) (blocks (length padded / 64) H0 padded).

Definition hex_digit (x : Z) : ascii :=
  ascii_of_nat (Z.to_nat (if x <? 10 then 48 + x else 87 + x)).

Definition hex (bytes : list Z) : string :=
  string_of_list_ascii (flat_map (fun b => [hex_digit (b / 16); hex_digit (b mod 16)]) bytes).

(** [hashlib.sha256(s).hexdigest()] *)
Definition hexdigest (s : string) : string :=
  hex (digest (map (fun c => Z.of_nat (nat_of_ascii c)) (list_ascii_of_string s))).

Example hexdigest_empty :
  hexdigest "" = "e3b0c44298fc1c149afbf4c8996fb92427ae41e4649b934ca495991b7852b855".
Proof. vm_compute. reflexivity. Qed.

Example hexdigest_abc :
  hexdigest "abc" = "ba7816bf8f01cfea414140de5dae2223b00361a396177a9cb410ff61f20015ad".
Proof. vm_compute. reflexivity. Qed.

Example hexdigest_two_blocks :
  hexdigest (string_of_list_ascii (repeat "a"%char 100))
  = "2816597888e4a0d3a36b82b83316ab32680eb8f00f8cd3b904d681246d285a0e".
Proof. vm_compute. reflexivity. Qed.

End Sha256.

(** ** cc-insights/scripts/conversation-processor.py *)

Module Processor.
Import Py.

(** *** Files *)

(** A [pathlib.Path]: [parent/stem.suffix]. *)
Record path : Type := Path { parent : string; stem : string; suffix : string }.

#[global] Instance path_eq_dec : EqDecision path.
Proof. solve_decision. Defined.

(** [file_path.name] and [str(file_path)] *)
Definition name (p : path) : string := stem p +:+ suffix p.
Definition str (p : path) : string := parent p +:+ "/" +:+ name p.

(** What a path leads to: a regular file (its bytes, its modification time,
    whether this process may read it) or a directory. *)
Inductive node : Type :=
| File (content : string) (mtime : Z) (readable : bool)
| Directory (mtime : Z) (size : nat).

Definition filesystem := gmap string node.

(** *** The database *)

(** A row of the table conversations (lines 59-76), which is also the
    dataclass ConversationMetadata (lines 21-39). *)
Record metadata : Type := Metadata {
  id : string;
  project_path : string;
  timestamp : string;
  message_count : nat;
  user_messages : nat;
  assistant_messages : nat;
  files_read : list string;
  files_written : list string;
  files_edited : list string;
  tools_used : list string;
  topics : list string;
  first_user_message : string;
  last_assistant_message : string;
  conversation_hash : string;
  file_size_bytes : nat;
  processed_at : string
}.

(** A row of file_interactions: conversation_id, file_path, interaction_type. *)
Record interaction : Type := Interaction {
  i_conversation : string; i_file : string; i_type : string
}.

(** A row of tool_usage: conversation_id, tool_name, usage_count. *)
Record usage : Type := Usage {
  u_conversation : string; u_tool : string; u_count : nat
}.

(** A row of processing_state, under its key file_path. *)
Record processed : Type := Processed {
  last_modified : string; last_processed : string; file_hash : string
}.

Record database : Type := Database {
  conversations : list metadata;
  file_interactions : list interaction;
  tool_usage : list usage;
  processing_state : gmap string processed
}.

(** The tables that _init_database creates in a new file. *)
Definition empty_database : database := Database [] [] [] ∅.

(** [INSERT OR REPLACE INTO conversations]: [id] is the primary key and
    [conversation_hash] is UNIQUE; the rows that hold the new id or the new
    hash are deleted, then the row is inserted. *)
Definition conflicts (new old : metadata) : bool :=
  String.eqb (id old) (id new)
  || String.eqb (conversation_hash old) (conversation_hash new).

Definition insert_or_replace (new : metadata) (rows : list metadata) : list metadata :=
  filter (fun old => conflicts new old = false) rows ++ [new].

(** _store_conversation, lines 396-455. *)
Definition _store_conversation (m : metadata) (d : database) : database :=
  let others_i := filter (fun r => i_conversation r <> id m) (file_interactions d) in
  let others_u := filter (fun r => u_conversation r <> id m) (tool_usage d) in
  Database
    (insert_or_replace m (conversations d))
    (others_i
       ++ map (fun f => Interaction (id m) f "read") (files_read m)
       ++ map (fun f => Interaction (id m) f "write") (files_written m)
       ++ map (fun f => Interaction (id m) f "edit") (files_edited m))
    (others_u ++ map (fun t => Usage (id m) t 1) (tools_used m))
    (processing_state d).

(** *** The processor and what it does to the world *)

(** What the processor does that can be seen from outside. *)
Inductive event : Type :=
| Stat (p : path)
| OpenBinary (p : path)
| OpenText (p : path)
| Log (text : string) (about : string)
| Commit.

(** The world of one connection: the database as the connection sees it,
    the database as committed to the file, the events so far and the number
    of times the clock was read. *)
Record world : Type := World {
  view : database;
  durable : database;
  trace : list event;
  ticks : nat
}.

(** A method: it changes the world and returns or raises. *)
Definition M (A : Type) : Type := world -> world * res A.

Definition ret {A : Type} (a : A) : M A := fun w => (w, Ok a).
Definition raise {A : Type} (e : exn) : M A := fun w => (w, Raise e).

Definition and_then {A B : Type} (m : M A) (k : A -> M B) : M B :=
  fun w => match m w with
           | (w', Ok a) => k a w'
           | (w', Raise e) => (w', Raise e)
           end.

Notation "x <~ m ;; k" := (and_then m (fun x => k))
  (at level 100, m at next level, right associativity).
Notation "m ;;; k" := (and_then m (fun _ => k))
  (at level 100, right associativity).

(** [try: body except Exception as e: handler(e)] *)
Definition try_except {A : Type} (body : M A) (handler : exn -> M A) : M A :=
  fun w => match body w with
           | (w', Ok a) => (w', Ok a)
           | (w', Raise e) => handler e w'
           end.

Definition lift {A : Type} (r : res A) : M A := fun w => (w, r).

Definition emit (e : event) : M unit :=
  fun w => (World (view w) (durable w) (trace w ++ [e]) (ticks w), Ok tt).

Definition execute (f : database -> database) : M unit :=
  fun w => (World (f (view w)) (durable w) (trace w) (ticks w), Ok tt).

Definition query {A : Type} (f : database -> A) : M A :=
  fun w => (w, Ok (f (view w))).

(** [self.conn.commit()] *)
Definition commit : M unit :=
  fun w => (World (view w) (view w) (trace w ++ [Commit]) (ticks w), Ok tt).

(** [datetime.now().isoformat()]: the clock is read, time passes. *)
Definition now (clock : nat -> string) : M string :=
  fun w => (World (view w) (durable w) (trace w) (S (ticks w)), Ok (clock (ticks w))).

Section Libraries.

(** The libraries: [hashlib.sha256(...).hexdigest()], the decoding of a
    file opened as UTF-8 text into lines (the lines read before a
    decoding error, and the error), [json.loads],
    [datetime.fromtimestamp(...).isoformat()], the clock. *)
Variable sha256_hex : string -> string.
Variable text_lines : string -> list string * option exn.
Variable json_loads : string -> res json.
Variable fromtimestamp : Z -> res string.
Variable clock : nat -> string.

(** What _process_conversation reads off the messages (lines 296-362, with
    _extract_tool_uses, _extract_file_paths and _extract_topics): the
    counts by role, the first user and last assistant message, the tools,
    the files and the topics. It works through regular expressions and
    sets, and raises on a message that is not an object. *)
Record extracted : Type := Extracted {
  x_user_messages : nat;
  x_assistant_messages : nat;
  x_files_read : list string;
  x_files_written : list string;
  x_files_edited : list string;
  x_tools_used : list string;
  x_topics : list string;
  x_first_user_message : string;
  x_last_assistant_message : string
}.
Variable extract : list json -> res extracted.

(** What process_project finds on the disk: whether ~/.claude/projects
    exists, the directories that match the project name, the *.jsonl
    entries of the first of them. *)
Record project : Type := Project {
  claude_projects_exists : bool;
  project_dirs : list string;
  jsonl_files : list path
}.

Section Run.

(** The processor: [self.verbose], and the file system it runs on. *)
Variable verbose : bool.
Variable fs : filesystem.

(** _log, lines 112-115. *)
Definition _log (text about : string) : M unit :=
  if verbose then emit (Log text about) else ret tt.

(** [file_path.stat()]: the modification time and the size. *)
Definition stat (p : path) : M (Z * nat) :=
  emit (Stat p) ;;;
  match fs !! str p with
  | Some (File content mtime _) => ret (mtime, String.length content)
  | Some (Directory mtime size) => ret (mtime, size)
  | None => raise OSError
  end.

(** _compute_file_hash, lines 117-123. *)
Definition _compute_file_hash (p : path) : M string :=
  emit (OpenBinary p) ;;;
  match fs !! str p with
  | Some (File content _ true) => ret (sha256_hex content)
  | _ => raise OSError
  end.

(** _needs_processing, lines 125-143. *)
Definition _needs_processing (p : path) (reindex : bool) : M bool :=
  if reindex then ret true else
  file_stat <~ stat p ;;
  file_hash <~ _compute_file_hash p ;;
  row <~ query (fun d => processing_state d !! str p) ;;
  match row with
  | None => ret true
  | Some r => ret (negb (String.eqb (Processor.file_hash r) file_hash))
  end.

(** _update_processing_state, lines 145-153. *)
Definition _update_processing_state (p : path) : M unit :=
  file_hash <~ _compute_file_hash p ;;
  st <~ stat p ;;
  last_modified <~ lift (fromtimestamp st.1) ;;
  t <~ now clock ;;
  execute (fun d =>
    Database (conversations d) (file_interactions d) (tool_usage d)
             (<[str p := Processed last_modified t file_hash]> (processing_state d))).

(** The loop of _parse_jsonl_file, lines 159-165. *)
Fixpoint parse_lines (p : path) (line_num : nat) (lines : list string)
    (messages : list json) : M (list json) :=
  match lines with
  | [] => ret messages
  | line :: rest =>
      if is_blank line then parse_lines p (S line_num) rest messages
      else match json_loads line with
           | Ok data => parse_lines p (S line_num) rest (messages ++ [data])
           | Raise JSONDecodeError =>
               _log "Warning: Failed to parse line" (name p) ;;;
               parse_lines p (S line_num) rest messages
           | Raise e => raise e
           end
  end.

(** _parse_jsonl_file, lines 155-166. *)
Definition _parse_jsonl_file (p : path) : M (list json) :=
  emit (OpenText p) ;;;
  match fs !! str p with
  | Some (File content _ true) =>
      let '(lines, failure) := text_lines content in
      messages <~ parse_lines p 1 lines [] ;;
      match failure with
      | Some e => raise e
      | None => ret messages
      end
  | _ => raise OSError
  end.

(** _process_conversation, lines 291-394. *)
Definition _process_conversation (p : path) (messages : list json) : M metadata :=
  x <~ lift (extract messages) ;;
  file_stat <~ stat p ;;
  conv_hash <~ _compute_file_hash p ;;
  timestamp <~ match fromtimestamp file_stat.1 with
               | Ok iso => ret iso
               | Raise _ => now clock
               end ;;
  processed_at <~ now clock ;;
  ret (Metadata (stem p) (parent p) timestamp (length messages)
         (x_user_messages x) (x_assistant_messages x)
         (x_files_read x) (x_files_written x) (x_files_edited x)
         (x_tools_used x) (x_topics x)
         (x_first_user_message x) (x_last_assistant_message x)
         conv_hash file_stat.2 processed_at).

(** process_file, lines 457-494. *)
Definition process_file (p : path) (reindex : bool) : M bool :=
  needs <~ _needs_processing p reindex ;;
  if negb needs then
    _log "Skipping (already processed)" (name p) ;;; ret false
  else
    _log "Processing" (name p) ;;;
    try_except
      (messages <~ _parse_jsonl_file p ;;
       match messages with
       | [] => _log "Warning: No messages found" (name p) ;;; ret false
       | _ =>
           metadata <~ _process_conversation p messages ;;
           execute (_store_conversation metadata) ;;;
           _update_processing_state p ;;;
           commit ;;;
           _log "Processed" (name p) ;;;
           ret true
       end)
      (fun e => _log "Error processing" (name p) ;;; ret false).

(** The loop of process_project, lines 528-531. *)
Fixpoint process_each (files : list path) (reindex : bool) (processed_count : nat)
    : M nat :=
  match files with
  | [] => ret processed_count
  | jsonl_file :: rest =>
      ok <~ process_file jsonl_file reindex ;;
      process_each rest reindex (if ok then S processed_count else processed_count)
  end.

(** process_project, lines 496-534. *)
Definition process_project (pr : project) (reindex : bool) : M nat :=
  if negb (claude_projects_exists pr) then
    _log "Error: projects directory does not exist" "" ;;; ret 0%nat
  else match project_dirs pr with
  | [] => _log "Error: No project directory found" "" ;;; ret 0%nat
  | project_dir :: more =>
      (match more with
       | [] => ret tt
       | _ => _log "Warning: Multiple project directories found" project_dir
       end) ;;;
      _log "Processing conversations from" project_dir ;;;
      match jsonl_files pr with
      | [] => _log "No conversation files found" project_dir ;;; ret 0%nat
      | files =>
          _log "Found conversation files" project_dir ;;;
          processed_count <~ process_each files reindex 0 ;;
          _log "Processed conversations" project_dir ;;;
          ret processed_count
      end
  end.

(** *** Incremental processing *)

(** The world after [events], database and clock untouched. *)
Definition after (w : world) (events : list event) : world :=
  World (view w) (durable w) (trace w ++ events) (ticks w).

Definition logged (text about : string) : list event :=
  if verbose then [Log text about] else [].

Lemma after_nil (w : world) : after w [] = w.
Proof. destruct w. unfold after. simpl. by rewrite app_nil_r. Qed.

Lemma after_after (w : world) (l1 l2 : list event) :
  after (after w l1) l2 = after w (l1 ++ l2).
Proof. unfold after. simpl. by rewrite app_assoc. Qed.

Lemma log_run (text about : string) (w : world) :
  _log text about w = (after w (logged text about), Ok tt).
Proof.
  unfold _log, logged. destruct verbose; [done|]. by rewrite after_nil.
Qed.

(** The stored hash of a path differs from [h], or there is none. *)
Definition changed (d : database) (p : path) (h : string) : bool :=
  match processing_state d !! str p with
  | None => true
  | Some r => negb (String.eqb (file_hash r) h)
  end.

Lemma needs_processing_run (w : world) (p : path) (reindex : bool)
    (content : string) (mtime : Z) :
  fs !! str p = Some (File content mtime true) ->
  _needs_processing p reindex w =
    (if reindex then w else after w [Stat p; OpenBinary p],
     Ok (reindex || changed (view w) p (sha256_hex content))).
Proof.
  intros Hfile. unfold _needs_processing. destruct reindex; [done|].
  unfold and_then, stat, _compute_file_hash, emit, query, ret, and_then, changed.
  simpl. rewrite Hfile. simpl.
  unfold after. rewrite <- app_assoc. simpl.
  by destruct (processing_state (view w) !! str p).
Qed.

(** *** Errors *)

(** The messages of the lines that hold a JSON document. *)
Definition decoded (lines : list string) : list json :=
  omap (fun line =>
          if is_blank line then None
          else match json_loads line with
               | Ok data => Some data
               | Raise _ => None
               end) lines.

(** A line that is blank, holds a document, or fails to decode as JSON. *)
Definition decodable (line : string) : Prop :=
  is_blank line = true
  \/ (exists data, json_loads line = Ok data)
  \/ json_loads line = Raise JSONDecodeError.

(** A line that fails to decode is skipped, and only that line: the
    messages are those of all the other lines, in order. *)
Lemma parse_lines_skips (p : path) (lines : list string) (line_num : nat)
    (messages : list json) (w : world) :
  Forall decodable lines ->
  (parse_lines p line_num lines messages w).2 = Ok (messages ++ decoded lines).
Proof.
  intros Hall. revert line_num messages w.
  induction Hall as [|line lines Hline Hall IH]; intros line_num messages w; simpl.
  - by rewrite app_nil_r.
  - unfold decoded. simpl. fold (decoded lines).
    destruct (is_blank line) eqn:Eb; [apply IH|].
    destruct Hline as [Hb|[[data Hd]|He]]; [congruence| |].
    + rewrite Hd. rewrite IH. by rewrite <- app_assoc.
    + rewrite He. unfold and_then. rewrite log_run. apply IH.
Qed.

(** Parsing reads; it writes to no table. *)
Lemma parse_lines_frame (p : path) (lines : list string) (line_num : nat)
    (messages : list json) (w : world) :
  let w' := (parse_lines p line_num lines messages w).1 in
  view w' = view w /\ durable w' = durable w /\ ticks w' = ticks w.
Proof.
  revert line_num messages w. induction lines as [|line lines IH];
    intros line_num messages w; simpl; [done|].
  destruct (is_blank line); [apply IH|].
  destruct (json_loads line) as [data|e]; [apply IH|].
  destruct e; try done.
  unfold and_then. rewrite log_run.
  destruct (IH (S line_num) messages (after w (logged "Warning: Failed to parse line" (name p))))
    as (H1 & H2 & H3).
  by rewrite H1, H2, H3.
Qed.

(** Once _needs_processing has returned, process_file returns: whatever
    is raised after that is caught at line 489. *)
Lemma process_file_catches (p : path) (reindex : bool) (w w1 : world) (needs : bool) :
  _needs_processing p reindex w = (w1, Ok needs) ->
  exists b, (process_file p reindex w).2 = Ok b.
Proof.
  intros Hn. unfold process_file, and_then at 1. rewrite Hn.
  destruct needs; simpl.
  - unfold and_then at 1. rewrite log_run. unfold try_except.
    match goal with |- context [match ?body with _ => _ end] => destruct body as [w2 [b|e]] end.
    + by exists b.
    + unfold and_then. rewrite log_run. by exists false.
  - unfold and_then. rewrite log_run. by exists false.
Qed.

(** With --reindex no file makes process_file raise. *)
Lemma process_file_reindex_returns (p : path) (w : world) :
  exists b, (process_file p true w).2 = Ok b.
Proof. by eapply process_file_catches. Qed.

(** Without it, no file that can be read does. *)
Lemma process_file_readable_returns (p : path) (reindex : bool) (w : world)
    (content : string) (mtime : Z) :
  fs !! str p = Some (File content mtime true) ->
  exists b, (process_file p reindex w).2 = Ok b.
Proof.
  intros Hfile. eapply process_file_catches.
  exact (needs_processing_run w p reindex content mtime Hfile).
Qed.

(** The scan goes on to the next file: it ends, with a count, when every
    file returns. *)
Lemma process_each_returns (files : list path) (reindex : bool) (n : nat) (w : world) :
  Forall (fun p => forall w, exists b, (process_file p reindex w).2 = Ok b) files ->
  exists count, (process_each files reindex n w).2 = Ok count.
Proof.
  intros Hall. revert n w. induction Hall as [|p files Hp Hall IH]; intros n w; simpl.
  - by eexists.
  - unfold and_then. destruct (Hp w) as [b Hb].
    destruct (process_file p reindex w) as [w1 r]. simpl in Hb. subst r. apply IH.
Qed.

Lemma process_project_returns (pr : project) (reindex : bool) (w : world) :
  Forall (fun p => forall w, exists b, (process_file p reindex w).2 = Ok b)
         (jsonl_files pr) ->
  exists count, (process_project pr reindex w).2 = Ok count.
Proof.
  intros Hall. unfold process_project.
  destruct (claude_projects_exists pr); simpl.
  2: { unfold and_then. rewrite log_run. by eexists. }
  destruct (project_dirs pr) as [|project_dir more].
  { unfold and_then. rewrite log_run. by eexists. }
  unfold and_then at 1.
  destruct (match more with [] => ret tt | _ => _ end w) as [w1 [[]|e]] eqn:E1.
  2: { destruct more; [done|]. by rewrite log_run in E1. }
  unfold and_then at 1. rewrite log_run.
  destruct (jsonl_files pr) as [|f files] eqn:Hfiles.
  { unfold and_then. rewrite log_run. by eexists. }
  unfold and_then at 1. rewrite log_run. unfold and_then at 1.
  match goal with |- context [let (w', r) := ?m ?w0 in _] =>
    destruct (process_each_returns (f :: files) reindex 0 w0 Hall) as [count Hc];
    simpl in Hc; destruct (m w0) as [w2 r2] end.
  simpl in Hc. subst r2. unfold and_then. rewrite log_run. by eexists.
Qed.

(** No exception leaves process_project when --reindex is given. *)
Lemma process_project_reindex_returns (pr : project) (w : world) :
  exists count, (process_project pr true w).2 = Ok count.
Proof.
  apply process_project_returns, Forall_forall. intros p _ w0.
  apply process_file_reindex_returns.
Qed.

(** *** What process_file does to the table conversations *)








(** *** A second run over the same file *)

Lemma update_processing_state_run (p : path) (w : world) (content : string) (mtime : Z) :
  fs !! str p = Some (File content mtime true) ->
  _update_processing_state p w =
    match fromtimestamp mtime with
    | Ok iso =>
        (World (Database (conversations (view w)) (file_interactions (view w))
                  (tool_usage (view w))
                  (<[str p := Processed iso (clock (ticks w)) (sha256_hex content)]>
                     (processing_state (view w))))
           (durable w) (trace w ++ [OpenBinary p; Stat p]) (S (ticks w)), Ok tt)
    | Raise e => (after w [OpenBinary p; Stat p], Raise e)
    end.
Proof.
  intros Hfile.
  unfold _update_processing_state, and_then, lift, stat, _compute_file_hash, and_then,
    emit, now, execute, ret, raise, after.
  simpl. rewrite Hfile. simpl. rewrite <- !app_assoc. simpl.
  by destruct (fromtimestamp mtime).
Qed.

(** When process_file returns True, processing_state holds the digest of
    the bytes of the file under its path. *)
Lemma process_file_records_hash (p : path) (reindex : bool) (w : world)
    (content : string) (mtime : Z) :
  fs !! str p = Some (File content mtime true) ->
  let '(w', r) := process_file p reindex w in
  r = Ok true -> changed (view w') p (sha256_hex content) = false.
Proof.
  intros Hfile. unfold process_file, and_then at 1.
  rewrite (needs_processing_run w p reindex content mtime Hfile).
  destruct (reindex || changed _ _ _); simpl.
  2: { unfold and_then. by rewrite log_run. }
  unfold and_then at 1. rewrite log_run. unfold try_except.
  unfold and_then at 1.
  destruct (_parse_jsonl_file p _) as [w3 [messages|e]].
  2: { unfold and_then. by rewrite log_run. }
  destruct messages as [|msg messages].
  { unfold and_then. by rewrite log_run. }
  unfold and_then at 1.
  destruct (_process_conversation p (msg :: messages) w3) as [w4 [m|e]].
  2: { unfold and_then. by rewrite log_run. }
  unfold and_then at 1, execute at 1. unfold and_then at 1.
  rewrite (update_processing_state_run p _ content mtime Hfile).
  destruct (fromtimestamp mtime) as [iso|e].
  2: { unfold and_then. by rewrite log_run. }
  unfold and_then, commit. rewrite log_run. simpl. intros _.
  unfold changed. simpl. rewrite lookup_insert_eq. simpl.
  by rewrite String.eqb_refl.
Qed.

(** A file that process_file has stored is skipped by the next call
    without --reindex, as long as its bytes are the same: the call returns
    False after it has looked at the status and the bytes of the file, and
    changes no table. *)
Theorem stored_file_is_skipped_next_time (p : path) (reindex : bool) (w : world)
    (content : string) (mtime : Z) :
  fs !! str p = Some (File content mtime true) ->
  (process_file p reindex w).2 = Ok true ->
  let w' := (process_file p reindex w).1 in
  process_file p false w' =
    (after w' ([Stat p; OpenBinary p] ++ logged "Skipping (already processed)" (name p)),
     Ok false).
Proof.
  intros Hfile Hok.
  pose proof (process_file_records_hash p reindex w content mtime Hfile) as Hrec.
  destruct (process_file p reindex w) as [w' r]. simpl in *.
  specialize (Hrec Hok).
  unfold process_file, and_then at 1.
  rewrite (needs_processing_run w' p false content mtime Hfile), Hrec. simpl.
  unfold and_then. by rewrite log_run, after_after.
Qed.

(** *** A failure after the rows are written *)


(** *** The messages of a file *)

(** _parse_jsonl_file on a file that can be read and decodes as text
    returns the documents of its lines in order, passing over the blank
    lines and the lines that are not JSON, and writes to no table. *)
Theorem parse_jsonl_file_keeps_good_lines (p : path) (w : world)
    (content : string) (mtime : Z) (lines : list string) :
  fs !! str p = Some (File content mtime true) ->
  text_lines content = (lines, None) ->
  Forall decodable lines ->
  let '(w', r) := _parse_jsonl_file p w in
  r = Ok (decoded lines) /\ view w' = view w /\ durable w' = durable w.
Proof.
  intros Hfile Htext Hdec.
  unfold _parse_jsonl_file, and_then at 1, emit at 1.
  rewrite Hfile, Htext. unfold and_then at 1.
  match goal with |- context [parse_lines ?a ?b ?c ?d ?w0] =>
    pose proof (parse_lines_skips a c b d w0 Hdec) as Hp;
    destruct (parse_lines_frame a c b d w0) as (F1 & F2 & _);
    destruct (parse_lines a b c d w0) as [w1 r1] end.
  simpl in Hp, F1, F2. subst r1. simpl. done.
Qed.

(** *** The count of process_project *)

Lemma process_each_count (files : list path) (reindex : bool) (n : nat) (w : world)
    (count : nat) :
  (process_each files reindex n w).2 = Ok count ->
  (n <= count <= n + length files)%nat.
Proof.
  revert n w. induction files as [|f files IH]; intros n w; simpl.
  - intros [= <-]. lia.
  - unfold and_then. destruct (process_file f reindex w) as [w1 [ok|e]]; [|done].
    intros H. apply IH in H. destruct ok; lia.
Qed.

(** The number that process_project returns is at most the number of
    .jsonl entries of the project directory; without ~/.claude/projects or
    a directory that matches the project name it is 0, and no table is
    written. *)
Theorem process_project_count (pr : project) (reindex : bool) (w : world) :
  let '(w', r) := process_project pr reindex w in
  (forall count, r = Ok count -> (count <= length (jsonl_files pr))%nat)
  /\ (claude_projects_exists pr = false \/ project_dirs pr = [] \/ jsonl_files pr = [] ->
        r = Ok 0%nat /\ view w' = view w /\ durable w' = durable w).
Proof.
  unfold process_project.
  destruct (claude_projects_exists pr); simpl.
  2: { unfold and_then. rewrite log_run. simpl. split; [intros ? [= <-]; lia | done]. }
  destruct (project_dirs pr) as [|project_dir more].
  { unfold and_then. rewrite log_run. simpl. split; [intros ? [= <-]; lia | done]. }
  unfold and_then at 1.
  assert (Hmore : (match more with [] => ret tt | _ :: _ =>
             _log "Warning: Multiple project directories found" project_dir end) w
           = (after w (match more with [] => [] | _ =>
                logged "Warning: Multiple project directories found" project_dir end), Ok tt)).
  { destruct more; [by rewrite after_nil | by rewrite log_run]. }
  rewrite Hmore. unfold and_then at 1. rewrite log_run.
  destruct (jsonl_files pr) as [|f files] eqn:Hfiles.
  { unfold and_then. rewrite log_run. simpl. split; [intros ? [= <-]; lia | done]. }
  unfold and_then at 1. rewrite log_run. unfold and_then at 1.
  match goal with |- context [let (w', r) := ?m ?w0 in _] =>
    pose proof (process_each_count (f :: files) reindex 0 w0) as Hc;
    simpl in Hc; destruct (m w0) as [w2 [c|e]] end.
  - unfold and_then. rewrite log_run. simpl. split.
    + intros count [= <-]. specialize (Hc c eq_refl). simpl in Hc. lia.
    + intros [H|[H|H]]; done.
  - simpl. split; [done|]. intros [H|[H|H]]; done.
Qed.

(** *** A file that is processed again *)



















End Run.

(** *** The UNIQUE column *)

(** The primary key and the UNIQUE column hold pairwise distinct values. *)
Definition unique (rows : list metadata) : Prop :=
  NoDup (conversation_hash <$> rows) /\ NoDup (id <$> rows).

Lemma filter_fmap_NoDup {A B : Type} (f : A -> B) (P : A -> Prop)
    `{!forall x, Decision (P x)} (l : list A) :
  NoDup (f <$> l) -> NoDup (f <$> filter P l).
Proof.
  induction l as [|x l IH]; simpl; [done|].
  rewrite NoDup_cons. intros [Hx Hl]. rewrite filter_cons.
  destruct (decide (P x)); [|by apply IH].
  rewrite fmap_cons, NoDup_cons. split; [|by apply IH].
  intros Hin. apply Hx. apply list_elem_of_fmap in Hin as (y & -> & Hy).
  apply list_elem_of_fmap. exists y. split; [done|].
  by apply list_elem_of_filter in Hy as [_ ?].
Qed.






(** *** The rows that _store_conversation writes *)

Lemma filter_filter_same {A : Type} (P : A -> Prop) `{!forall x, Decision (P x)}
    (l : list A) :
  filter P (filter P l) = filter P l.
Proof.
  induction l as [|x l IH]; [done|].
  rewrite filter_cons. destruct (decide (P x)) as [Hx|Hx]; [|done].
  rewrite filter_cons, decide_True by done. by rewrite IH.
Qed.

Lemma filter_none {A : Type} (P : A -> Prop) `{!forall x, Decision (P x)} (l : list A) :
  Forall (fun x => ~ P x) l -> filter P l = [].
Proof.
  induction 1 as [|x l Hx Hl IH]; [done|].
  by rewrite filter_cons, decide_False.
Qed.

Lemma filter_all {A : Type} (P : A -> Prop) `{!forall x, Decision (P x)} (l : list A) :
  Forall P l -> filter P l = l.
Proof.
  induction 1 as [|x l Hx Hl IH]; [done|].
  by rewrite filter_cons, decide_True, IH.
Qed.

Lemma insert_or_replace_idempotent (m : metadata) (rows : list metadata) :
  insert_or_replace m (insert_or_replace m rows) = insert_or_replace m rows.
Proof.
  unfold insert_or_replace. rewrite filter_app, filter_filter_same.
  rewrite (filter_none _ [m]); [by rewrite app_nil_r|].
  apply Forall_singleton. unfold conflicts. by rewrite String.eqb_refl.
Qed.

(** The rows of file_interactions that _store_conversation inserts for [m]. *)
Definition interactions_of (m : metadata) : list interaction :=
  map (fun f => Interaction (id m) f "read") (files_read m)
  ++ map (fun f => Interaction (id m) f "write") (files_written m)
  ++ map (fun f => Interaction (id m) f "edit") (files_edited m).

Definition usages_of (m : metadata) : list usage :=
  map (fun t => Usage (id m) t 1) (tools_used m).

Lemma interactions_of_id (m : metadata) :
  Forall (fun r => i_conversation r = id m) (interactions_of m).
Proof.
  unfold interactions_of. rewrite !Forall_app. repeat split;
    apply Forall_forall; intros r Hr; apply list_elem_of_In, in_map_iff in Hr as (f & <- & _);
    done.
Qed.

Lemma usages_of_id (m : metadata) :
  Forall (fun r => u_conversation r = id m) (usages_of m).
Proof.
  apply Forall_forall. intros r Hr.
  apply list_elem_of_In, in_map_iff in Hr as (f & <- & _). done.
Qed.

(** _store_conversation replaces the rows of the conversation in
    file_interactions and tool_usage by one row for each file read,
    written and edited and one for each tool, leaves the rows of the other
    conversations as they are, and does not touch processing_state. *)
Theorem store_conversation_replaces_rows (m : metadata) (d : database) :
  let d' := _store_conversation m d in
  filter (fun r => i_conversation r = id m) (file_interactions d') = interactions_of m
  /\ filter (fun r => i_conversation r <> id m) (file_interactions d')
     = filter (fun r => i_conversation r <> id m) (file_interactions d)
  /\ filter (fun r => u_conversation r = id m) (tool_usage d') = usages_of m
  /\ filter (fun r => u_conversation r <> id m) (tool_usage d')
     = filter (fun r => u_conversation r <> id m) (tool_usage d)
  /\ processing_state d' = processing_state d.
Proof.
  pose proof (interactions_of_id m) as Hi. pose proof (usages_of_id m) as Hu.
  unfold _store_conversation. cbn [file_interactions tool_usage processing_state].
  fold (interactions_of m). fold (usages_of m).
  rewrite !filter_app. repeat split.
  - rewrite (filter_none (fun r => i_conversation r = id m) (filter _ _)).
    + by rewrite filter_all.
    + apply Forall_forall. intros r Hr. by apply list_elem_of_filter in Hr as [? _].
  - rewrite filter_filter_same, (filter_none _ (interactions_of m)); [by rewrite app_nil_r|].
    eapply Forall_impl; [exact Hi|]. intros r Hr. simpl in Hr. tauto.
  - rewrite (filter_none (fun r => u_conversation r = id m) (filter _ _)).
    + by rewrite filter_all.
    + apply Forall_forall. intros r Hr. by apply list_elem_of_filter in Hr as [? _].
  - rewrite filter_filter_same, (filter_none _ (usages_of m)); [by rewrite app_nil_r|].
    eapply Forall_impl; [exact Hu|]. intros r Hr. simpl in Hr. tauto.
Qed.

(** Storing the same metadata a second time changes nothing. *)
Theorem store_conversation_idempotent (m : metadata) (d : database) :
  _store_conversation m (_store_conversation m d) = _store_conversation m d.
Proof.
  pose proof (interactions_of_id m) as Hi. pose proof (usages_of_id m) as Hu.
  unfold _store_conversation. cbn [conversations file_interactions tool_usage processing_state].
  fold (interactions_of m). fold (usages_of m).
  rewrite insert_or_replace_idempotent, !filter_app, !filter_filter_same.
  rewrite (filter_none _ (interactions_of m)), (filter_none _ (usages_of m)).
  - by rewrite !app_nil_r.
  - eapply Forall_impl; [exact Hu|]. intros r Hr. simpl in Hr. tauto.
  - eapply Forall_impl; [exact Hi|]. intros r Hr. simpl in Hr. tauto.
Qed.

Lemma NoDup_fmap_elem_inj {A B : Type} (f : A -> B) (l : list A) (x y : A) :
  NoDup (f <$> l) -> x ∈ l -> y ∈ l -> f x = f y -> x = y.
Proof.
  induction l as [|a l IH]; intros Hnd Hx Hy Heq; [by apply elem_of_nil in Hx|].
  rewrite fmap_cons, NoDup_cons in Hnd. destruct Hnd as [Hn Hnd].
  apply elem_of_cons in Hx as [->|Hx]; apply elem_of_cons in Hy as [->|Hy].
  - done.
  - exfalso. apply Hn. rewrite Heq. apply list_elem_of_fmap. by exists y.
  - exfalso. apply Hn. rewrite <- Heq. apply list_elem_of_fmap. by exists x.
  - by apply IH.
Qed.

(** When INSERT OR REPLACE deletes the row of another conversation that
    has the hash of the new one, the rows of that conversation in
    file_interactions and tool_usage stay: they then name a conversation
    that is in the table no more. *)
Theorem replaced_conversation_leaves_rows (m old : metadata) (d : database) :
  unique (conversations d) ->
  old ∈ conversations d ->
  id old <> id m ->
  conversation_hash old = conversation_hash m ->
  let d' := _store_conversation m d in
  (forall row, row ∈ conversations d' -> id row <> id old)
  /\ (forall r, r ∈ file_interactions d -> i_conversation r = id old ->
        r ∈ file_interactions d')
  /\ (forall r, r ∈ tool_usage d -> u_conversation r = id old -> r ∈ tool_usage d').
Proof.
  intros [_ Hids] Hold Hid Hhash. unfold _store_conversation.
  cbn [conversations file_interactions tool_usage]. repeat split.
  - intros row Hrow Heq. unfold insert_or_replace in Hrow.
    apply elem_of_app in Hrow as [Hrow| ->%list_elem_of_singleton]; [|congruence].
    apply list_elem_of_filter in Hrow as [Hc Hrow].
    assert (row = old) as ->.
    { apply (NoDup_fmap_elem_inj id (conversations d)); done. }
    unfold conflicts in Hc. apply orb_false_iff in Hc as [_ Hc].
    apply String.eqb_neq in Hc. congruence.
  - intros r Hr Hrid. apply elem_of_app. left.
    apply list_elem_of_filter. split; [congruence | done].
  - intros r Hr Hrid. apply elem_of_app. left.
    apply list_elem_of_filter. split; [congruence | done].
Qed.

End Libraries.

(** *** A project directory with two files of the same content

    The libraries of the examples: the real digest; text that is ASCII, so
    that decoding cannot fail and lines end at a newline; [json.loads] on
    the documents [{}], [[]], [null], [true] and [false] (any other line of
    the examples is not JSON); the metadata of messages [{}], which have no
    role, tool, file or topic. *)

Fixpoint split_lines (s : string) (line : string) : list string :=
  match s with
  | EmptyString => match line with EmptyString => [] | _ => [line] end
  | String c s' =>
      if Ascii.eqb c "010" then line :: split_lines s' EmptyString
      else split_lines s' (line +:+ String c EmptyString)
  end.

Definition ascii_lines (content : string) : list string * option exn :=
  (split_lines content EmptyString, None).

Definition loads_simple (line : string) : res json :=
  if String.eqb line "{}" then Ok (JObj [])
  else if String.eqb line "[]" then Ok (JArr [])
  else if String.eqb line "null" then Ok JNull
  else if String.eqb line "true" then Ok (JBool true)
  else if String.eqb line "false" then Ok (JBool false)
  else Raise JSONDecodeError.

Definition extract_plain (messages : list json) : res extracted :=
  if forallb is_dict messages then Ok (Extracted 0 0 [] [] [] [] [] "" "")
  else Raise AttributeError.

Definition iso_simple (t : Z) : res string := Ok (pretty t).
Definition clock_simple (n : nat) : string := "now+" +:+ pretty n.

Definition a_jsonl : path := Path "/home/.claude/projects/annex" "a" ".jsonl".
Definition b_jsonl : path := Path "/home/.claude/projects/annex" "b" ".jsonl".
Definition d_jsonl : path := Path "/home/.claude/projects/annex" "d" ".jsonl".

(** a.jsonl and b.jsonl hold the same two lines, the second of them not
    JSON; d.jsonl is a directory. *)
Definition two_lines : string := "{}" +:+ String "010" ("oops" +:+ String "010" "").

Definition example_fs : filesystem :=
  {[ str a_jsonl := File two_lines 100 true;
     str b_jsonl := File two_lines 200 true;
     str d_jsonl := Directory 300 4096 ]}.

Definition new_world : world := World empty_database empty_database [] 0.

Definition run_file (p : path) (reindex : bool) : M bool :=
  process_file Sha256.hexdigest ascii_lines loads_simple iso_simple clock_simple
    extract_plain false example_fs p reindex.

Definition run_project (files : list path) (reindex : bool) : M nat :=
  process_project Sha256.hexdigest ascii_lines loads_simple iso_simple clock_simple
    extract_plain false example_fs
    (Project true ["/home/.claude/projects/annex"] files) reindex.

Definition after_a : world := (run_file a_jsonl false new_world).1.

Definition row_a : metadata :=
  Metadata "a" "/home/.claude/projects/annex" "100" 1 0 0 [] [] [] [] [] "" ""
    (Sha256.hexdigest two_lines) 8 "now+0".


Example first_file_stored :
  (run_file a_jsonl false new_world).2 = Ok true
  /\ conversations (view after_a) = [row_a]
  /\ durable after_a = view after_a.
Proof. vm_compute. repeat split; reflexivity. Qed.




(** a.jsonl after the first run, with a line put before the two it had:
    processing_state holds the digest of the old bytes, the file needs
    processing and is stored again. *)
Definition edited_lines : string := "{}" +:+ String "010" two_lines.

Definition edited_fs : filesystem :=
  <[ str a_jsonl := File edited_lines 150 true ]> example_fs.


(** The file is opened as text and stored again, its new digest recorded;
    a third call then skips it. *)
Example changed_file_reprocessed :
  let run := process_file Sha256.hexdigest ascii_lines loads_simple iso_simple
               clock_simple extract_plain false edited_fs a_jsonl false in
  (_needs_processing Sha256.hexdigest edited_fs a_jsonl false after_a).2 = Ok true
  /\ (run after_a).2 = Ok true
  /\ OpenText a_jsonl ∈ drop (length (trace after_a)) (trace (run after_a).1)
  /\ file_hash <$> (processing_state (view (run after_a).1) !! str a_jsonl)
     = Some (Sha256.hexdigest edited_lines)
  /\ message_count <$> conversations (view (run after_a).1) = [2%nat]
  /\ (run (run after_a).1).2 = Ok false.
Proof.
  vm_compute. repeat split; try reflexivity.
  apply elem_of_cons. right. apply elem_of_cons. right. apply elem_of_cons. by left.
Qed.

Example unchanged_file_skipped :
  (run_file a_jsonl false after_a).2 = Ok false
  /\ view (run_file a_jsonl false after_a).1 = view after_a.
Proof. vm_compute. split; reflexivity. Qed.

(** A scan over a.jsonl, the directory d.jsonl and b.jsonl. With --reindex
    the directory is counted as a failure and the scan goes on; without it
    the hash of the directory is asked for outside the try of process_file
    and the exception leaves process_project. *)
Lemma scan_stops_at_unreadable_entry :
  (run_project [a_jsonl; d_jsonl; b_jsonl] true new_world).2 = Ok 2%nat
  /\ (run_project [a_jsonl; d_jsonl; b_jsonl] false new_world).2 = Raise OSError
  /\ conversations (view (run_project [a_jsonl; d_jsonl; b_jsonl] false new_world).1)
     = [row_a].
Proof. vm_compute. repeat split; reflexivity. Qed.

(** *** The second run, a failure after the store, the rows of a replaced
    conversation *)

Lemma stored_file_is_skipped_next_time_witness :
  let w' := (run_file a_jsonl false new_world).1 in
  run_file a_jsonl false w' =
    (after w' ([Stat a_jsonl; OpenBinary a_jsonl]
               ++ logged false "Skipping (already processed)" (name a_jsonl)),
     Ok false).
Proof.
  apply (stored_file_is_skipped_next_time Sha256.hexdigest ascii_lines loads_simple
           iso_simple clock_simple extract_plain false example_fs
           a_jsonl false new_world two_lines 100).
  - reflexivity.
  - vm_compute. reflexivity.
Defined.




Lemma parse_jsonl_file_keeps_good_lines_witness :
  let '(w', r) :=
    _parse_jsonl_file ascii_lines loads_simple false example_fs a_jsonl new_world in
  r = Ok (decoded loads_simple ["{}"; "oops"])
  /\ view w' = view new_world /\ durable w' = durable new_world.
Proof.
  apply (parse_jsonl_file_keeps_good_lines ascii_lines loads_simple false example_fs
           a_jsonl new_world two_lines 100 ["{}"; "oops"]).
  - reflexivity.
  - vm_compute. reflexivity.
  - apply List.Forall_cons; [right; left; by exists (JObj [])|].
    apply List.Forall_cons; [right; right; reflexivity|]. apply List.Forall_nil.
Defined.

(** A table with the conversation a, its file and its tool; a second
    conversation b with the same hash. *)
Definition stored_a : metadata :=
  Metadata "a" "/p" "2025-10-01T09:30:00" 2 1 1 ["x.py"] [] [] ["Read"] [] "hi" "ok"
    "h" 10 "2025-10-02T00:00:00".

Definition copy_b : metadata :=
  Metadata "b" "/p" "2025-10-01T10:30:00" 2 1 1 [] [] [] [] [] "hi" "ok"
    "h" 10 "2025-10-02T00:00:01".

Definition database_a : database := _store_conversation stored_a empty_database.

Lemma replaced_conversation_leaves_rows_witness :
  let d' := _store_conversation copy_b database_a in
  (forall row, row ∈ conversations d' -> id row <> id stored_a)
  /\ (forall r, r ∈ file_interactions database_a -> i_conversation r = id stored_a ->
        r ∈ file_interactions d')
  /\ (forall r, r ∈ tool_usage database_a -> u_conversation r = id stored_a ->
        r ∈ tool_usage d').
Proof.
  apply (replaced_conversation_leaves_rows copy_b stored_a database_a).
  - split; apply NoDup_singleton.
  - apply list_elem_of_here.
  - discriminate.
  - reflexivity.
Defined.

Example replaced_conversation_rows :
  conversations (_store_conversation copy_b database_a) = [copy_b]
  /\ file_interactions (_store_conversation copy_b database_a)
     = [Interaction "a" "x.py" "read"]
  /\ tool_usage (_store_conversation copy_b database_a) = [Usage "a" "Read" 1].
Proof. vm_compute. repeat split; reflexivity. Qed.

End Processor.

(** ** cc-insights/scripts/search-conversations.py and rag_indexer.py *)

Module Search.
Import Py Processor.

(** *** Semantic search *)

(** One neighbour of the query as ChromaDB returns it: the i-th id,
    distance (a float), document and metadata of [collection.query]. *)
Record neighbour : Type := Neighbour {
  n_id : string;
  n_distance : float;
  n_document : string;
  n_metadata : list (string * string)
}.

(** An entry of [formatted_results], rag_indexer.py lines 216-222. *)
Record formatted : Type := Formatted {
  f_id : string;
  f_distance : float;
  f_similarity : float;
  f_document : string;
  f_metadata : list (string * string)
}.

(** The dictionary [{**result, **details}] of search-conversations.py
    lines 97-100: the keys of the vector result, and over them the keys of
    the row ([id] is in both, the row's wins). *)
Record enriched : Type := Enriched {
  e_id : string;
  e_distance : float;
  e_similarity : float;
  e_document : string;
  e_metadata : list (string * string);
  e_timestamp : string;
  e_message_count : nat;
  e_user_messages : nat;
  e_assistant_messages : nat;
  e_files_read : list string;
  e_files_written : list string;
  e_files_edited : list string;
  e_tools_used : list string;
  e_topics : list string;
  e_first_user_message : string;
  e_last_assistant_message : string
}.

Definition merge (result : formatted) (details : metadata) : enriched :=
  Enriched (id details) (f_distance result) (f_similarity result) (f_document result)
    (f_metadata result) (timestamp details) (message_count details)
    (user_messages details) (assistant_messages details)
    (files_read details) (files_written details) (files_edited details)
    (tools_used details) (topics details)
    (first_user_message details) (last_assistant_message details).

(** [if x:] on an optional string: given, and not empty. *)
Definition truthy (x : option string) : option string :=
  match x with
  | Some "" => None
  | other => other
  end.

Section Semantic.

(** [self.model.encode] and [self.collection.query]: the neighbours of a
    query text, at most [n_results] of them, or an exception. *)
Variable chroma_query : string -> Z -> res (list neighbour).

(** The table conversations as the connection of the searcher sees it. *)
Variable table : list metadata.

(** RAGIndexer.search, rag_indexer.py lines 201-224. *)
Definition search (query : string) (n_results : Z) : res (list formatted) :=
  results <- chroma_query query n_results ;;
  Ok (map (fun n => Formatted (n_id n) (n_distance n) (1 - n_distance n)%float
                      (n_document n) (n_metadata n)) results).

(** _get_conversation_details, lines 43-66: [SELECT * FROM conversations
    WHERE id = ?] and [fetchone]. *)
Definition _get_conversation_details (conversation_id : string) : option metadata :=
  List.find (fun row => String.eqb (id row) conversation_id) table.

(** The filters of lines 88-95: [true] when the result is passed over. *)
Definition filtered_out (date_from date_to file_pattern : option string)
    (details : metadata) : bool :=
  match truthy date_from with
  | Some d => String.ltb (timestamp details) d
  | None => false
  end
  || match truthy date_to with
     | Some d => String.ltb d (timestamp details)
     | None => false
     end
  || match truthy file_pattern with
     | Some pat =>
         let all_files := files_read details ++ files_written details
                          ++ files_edited details in
         negb (existsb (is_substring pat) all_files)
     | None => false
     end.

(** The loop of lines 84-103. *)
Fixpoint enrich (limit : Z) (date_from date_to file_pattern : option string)
    (results : list formatted) (enriched_results : list enriched) : list enriched :=
  match results with
  | [] => enriched_results
  | result :: rest =>
      match _get_conversation_details (f_id result) with
      | Some details =>
          if filtered_out date_from date_to file_pattern details then
            enrich limit date_from date_to file_pattern rest enriched_results
          else
            let enriched_results := enriched_results ++ [merge result details] in
            if limit <=? Z.of_nat (length enriched_results) then enriched_results
            else enrich limit date_from date_to file_pattern rest enriched_results
      | None =>
          if limit <=? Z.of_nat (length enriched_results) then enriched_results
          else enrich limit date_from date_to file_pattern rest enriched_results
      end
  end.

(** semantic_search, lines 68-105. *)
Definition semantic_search (query : string) (limit : Z)
    (date_from date_to file_pattern : option string) : res (list enriched) :=
  results <- search query (limit * 2) ;;
  Ok (enrich limit date_from date_to file_pattern results []).

(** *** What the loop returns *)

Lemma not_ltb_leb (s t : string) : String.ltb s t = false -> String.leb t s = true.
Proof.
  unfold String.ltb, String.leb. rewrite (String.compare_antisym t s).
  by destruct (String.compare s t).
Qed.

Lemma leb_empty (t : string) : String.leb "" t = true.
Proof. by destruct t. Qed.

Lemma truthy_Some (x : option string) (d : string) :
  x = Some d -> d <> "" -> truthy x = Some d.
Proof. intros -> Hd. by destruct d. Qed.

(** The loop stops as soon as [limit] results are kept. *)
Lemma enrich_length (limit : Z) (date_from date_to file_pattern : option string)
    (results : list formatted) (acc : list enriched) :
  Z.of_nat (length acc) < limit ->
  Z.of_nat (length (enrich limit date_from date_to file_pattern results acc)) <= limit.
Proof.
  revert acc. induction results as [|result rest IH]; intros acc Hacc; simpl; [lia|].
  destruct (_get_conversation_details (f_id result)) as [details|].
  - destruct (filtered_out _ _ _ details); [by apply IH|].
    rewrite length_app. simpl.
    destruct (limit <=? Z.of_nat (length acc + 1)) eqn:E.
    + rewrite length_app. simpl. lia.
    + apply Z.leb_gt in E. apply IH. rewrite length_app. simpl. lia.
  - destruct (limit <=? Z.of_nat (length acc)) eqn:E; [lia|]. by apply IH.
Qed.

(** What is kept is the merge of a vector result with the row of its id,
    and has passed the filters. *)
Lemma enrich_elements (limit : Z) (date_from date_to file_pattern : option string)
    (results : list formatted) (acc : list enriched) (r : enriched) :
  r ∈ enrich limit date_from date_to file_pattern results acc ->
  r ∈ acc
  \/ exists result details,
       result ∈ results
       /\ _get_conversation_details (f_id result) = Some details
       /\ filtered_out date_from date_to file_pattern details = false
       /\ r = merge result details.
Proof.
  revert acc. induction results as [|result rest IH]; intros acc Hr; simpl in Hr;
    [by left|].
  assert (Hrest : r ∈ acc \/ (exists result0 details,
             result0 ∈ rest
             /\ _get_conversation_details (f_id result0) = Some details
             /\ filtered_out date_from date_to file_pattern details = false
             /\ r = merge result0 details) ->
           r ∈ acc \/ exists result0 details,
             result0 ∈ result :: rest
             /\ _get_conversation_details (f_id result0) = Some details
             /\ filtered_out date_from date_to file_pattern details = false
             /\ r = merge result0 details).
  { intros [H|(r0 & d & H0 & H)]; [by left|]. right. exists r0, d.
    split; [by right | done]. }
  destruct (_get_conversation_details (f_id result)) as [details|] eqn:Hd.
  - destruct (filtered_out _ _ _ details) eqn:Hf; [by apply Hrest, IH|].
    assert (Hnew : r ∈ acc ++ [merge result details] ->
              r ∈ acc \/ exists result0 details0,
                result0 ∈ result :: rest
                /\ _get_conversation_details (f_id result0) = Some details0
                /\ filtered_out date_from date_to file_pattern details0 = false
                /\ r = merge result0 details0).
    { intros [H| ->%list_elem_of_singleton]%elem_of_app; [by left|].
      right. exists result, details. split; [by left | done]. }
    destruct (limit <=? _); [by apply Hnew|].
    apply IH in Hr as [Hr|Hr]; [by apply Hnew | by apply Hrest; right].
  - destruct (limit <=? _); [by left|]. by apply Hrest, IH.
Qed.

(** *** The results of semantic_search *)

(** A result is the row of its id, with the distance and the similarity
    of a neighbour with that id. *)
Definition from_row_and_neighbour (neighbours : list neighbour) (r : enriched) : Prop :=
  exists row n,
    row ∈ table /\ n ∈ neighbours
    /\ id row = e_id r /\ n_id n = e_id r
    /\ e_distance r = n_distance n
    /\ e_timestamp r = timestamp row
    /\ e_files_read r = files_read row
    /\ e_files_written r = files_written row
    /\ e_files_edited r = files_edited row.

(** A result is inside the bounds and touches a file of the pattern. A
    bound or pattern that is the empty string is not applied. *)
Definition within (date_from date_to file_pattern : option string) (r : enriched)
    : Prop :=
  (forall d, date_from = Some d -> String.leb d (e_timestamp r) = true)
  /\ (forall d, date_to = Some d -> d <> "" -> String.leb (e_timestamp r) d = true)
  /\ (forall pat, file_pattern = Some pat -> pat <> "" ->
        exists f before rest,
          f ∈ e_files_read r ++ e_files_written r ++ e_files_edited r
          /\ f = before +:+ pat +:+ rest).

(** ChromaDB validates [n_results]: a query for zero or fewer neighbours
    raises. *)
Hypothesis n_results_positive :
  forall query n neighbours, chroma_query query n = Ok neighbours -> 0 < n.

(** C3, as the code has it. semantic_search returns when the vector
    search does, and then at most [limit] results; each is a row of the
    table conversations under its id, with similarity 1 - distance for
    the distance the vector search reported, a timestamp not before
    date_from, not after a non-empty date_to, and a file that contains a
    non-empty file_pattern. *)
Theorem semantic_search_results (query : string) (limit : Z)
    (date_from date_to file_pattern : option string) :
  match chroma_query query (limit * 2) with
  | Ok neighbours =>
      exists results,
        semantic_search query limit date_from date_to file_pattern = Ok results
        /\ Z.of_nat (length results) <= limit
        /\ Forall (fun r =>
             from_row_and_neighbour neighbours r
             /\ e_similarity r = (1 - e_distance r)%float
             /\ within date_from date_to file_pattern r) results
  | Raise e =>
      semantic_search query limit date_from date_to file_pattern = Raise e
  end.
Proof.
  unfold semantic_search, search.
  destruct (chroma_query query (limit * 2)) as [neighbours|e] eqn:Hq; [|done].
  simpl. eexists. split; [reflexivity|].
  apply n_results_positive in Hq as Hpos. split.
  { apply enrich_length. simpl. lia. }
  apply Forall_forall. intros r Hr.
  apply enrich_elements in Hr as [Hr|(result & details & Hres & Hd & Hf & ->)];
    [by apply elem_of_nil in Hr|].
  apply list_elem_of_In, in_map_iff in Hres as (n & <- & Hn).
  apply list_elem_of_In in Hn. simpl in Hd.
  apply List.find_some in Hd as [Hrow Hid].
  apply list_elem_of_In in Hrow. apply String.eqb_eq in Hid.
  unfold filtered_out in Hf.
  apply orb_false_iff in Hf as [Hf Hpat]. apply orb_false_iff in Hf as [Hfrom Hto].
  split; [|split; [done|]].
  - exists details, n. simpl. by repeat split.
  - unfold within. simpl. split; [|split].
    + intros d ->. destruct (decide (d = "")) as [->|Hd]; [apply leb_empty|].
      rewrite (truthy_Some _ d eq_refl Hd) in Hfrom. by apply not_ltb_leb.
    + intros d -> Hd. rewrite (truthy_Some _ d eq_refl Hd) in Hto.
      by apply not_ltb_leb.
    + intros pat -> Hp. rewrite (truthy_Some _ pat eq_refl Hp) in Hpat.
      apply negb_false_iff, existsb_exists in Hpat as (f & Hin & Hsub).
      apply is_substring_spec in Hsub as (before & rest & Hsub).
      exists f, before, rest. split; [by apply list_elem_of_In | done].
Qed.

(** *** The results, in order *)

(** The vector results that have a row and pass the filters, each merged
    with its row. *)
Definition kept (date_from date_to file_pattern : option string)
    (results : list formatted) : list enriched :=
  omap (fun result =>
          match _get_conversation_details (f_id result) with
          | Some details =>
              if filtered_out date_from date_to file_pattern details then None
              else Some (merge result details)
          | None => None
          end) results.

Lemma enrich_take (limit : Z) (date_from date_to file_pattern : option string)
    (results : list formatted) (acc : list enriched) :
  Z.of_nat (length acc) < limit ->
  enrich limit date_from date_to file_pattern results acc
    = acc ++ take (Z.to_nat limit - length acc)
               (kept date_from date_to file_pattern results).
Proof.
  revert acc. induction results as [|result rest IH]; intros acc Hacc; simpl.
  - by rewrite take_nil, app_nil_r.
  - unfold kept. simpl. fold (kept date_from date_to file_pattern rest).
    destruct (_get_conversation_details (f_id result)) as [details|].
    + destruct (filtered_out _ _ _ details); simpl; [by apply IH|].
      rewrite length_app. simpl.
      destruct (Z.to_nat limit - length acc)%nat as [|n] eqn:En; [lia|]. simpl.
      destruct (limit <=? Z.of_nat (length acc + 1)) eqn:E.
      * apply Z.leb_le in E. replace n with 0%nat by lia. by rewrite take_0.
      * apply Z.leb_gt in E. rewrite IH by (rewrite length_app; simpl; lia).
        rewrite length_app. simpl. rewrite <- app_assoc. simpl.
        do 3 f_equal. lia.
    + simpl. destruct (limit <=? Z.of_nat (length acc)) eqn:E; [lia|]. by apply IH.
Qed.

(** semantic_search with a positive limit returns the first [limit] of
    the neighbours that have a row in conversations and pass the filters,
    in the order in which the vector search returned them; a neighbour
    whose id has no row is passed over. *)
Theorem semantic_search_first_matches (query : string) (limit : Z)
    (date_from date_to file_pattern : option string) (neighbours : list neighbour) :
  0 < limit ->
  chroma_query query (limit * 2) = Ok neighbours ->
  semantic_search query limit date_from date_to file_pattern
    = Ok (take (Z.to_nat limit)
            (kept date_from date_to file_pattern
               (map (fun n => Formatted (n_id n) (n_distance n) (1 - n_distance n)%float
                                 (n_document n) (n_metadata n)) neighbours))).
Proof.
  intros Hlimit Hq. unfold semantic_search, search. rewrite Hq. simpl.
  rewrite enrich_take by (simpl; lia). simpl. do 2 f_equal. lia.
Qed.

End Semantic.

(** *** A search over two conversations *)

Definition example_table : list metadata :=
  [Metadata "c1" "/p" "2025-10-01T09:30:00" 4 2 2 ["src/auth/login.py"] [] ["README.md"]
     ["Read"; "Edit"] ["auth"] "fix the login" "done" "h1" 100 "2025-10-03T00:00:00";
   Metadata "c2" "/p" "2025-10-02T18:00:00" 2 1 1 [] [] []
     [] ["testing"] "add tests" "ok" "h2" 50 "2025-10-03T00:00:01"].

(** The nearest neighbours of any query: c1, c2 and an id that is no
    longer in the table. *)
Definition example_query (query : string) (n_results : Z) : res (list neighbour) :=
  if 0 <? n_results then
    Ok (take (Z.to_nat n_results)
          [Neighbour "c1" 0.25 "User: fix the login" [];
           Neighbour "gone" 0.5 "User: old" [];
           Neighbour "c2" 0.75 "User: add tests" []])
  else Raise ValueError.

Lemma example_query_positive (query : string) (n : Z) (neighbours : list neighbour) :
  example_query query n = Ok neighbours -> 0 < n.
Proof. unfold example_query. destruct (0 <? n) eqn:E; [|done]. intros _. lia. Qed.

Lemma semantic_search_results_witness :
  match example_query "login" (2 * 2) with
  | Ok neighbours =>
      exists results,
        semantic_search example_query example_table "login" 2
          (Some "2025-10-01") (Some "2025-10-31") (Some "auth") = Ok results
        /\ Z.of_nat (length results) <= 2
        /\ Forall (fun r =>
             from_row_and_neighbour example_table neighbours r
             /\ e_similarity r = (1 - e_distance r)%float
             /\ within (Some "2025-10-01") (Some "2025-10-31") (Some "auth") r) results
  | Raise e =>
      semantic_search example_query example_table "login" 2
        (Some "2025-10-01") (Some "2025-10-31") (Some "auth") = Raise e
  end.
Proof.
  exact (semantic_search_results example_query example_table example_query_positive
           "login" 2 (Some "2025-10-01") (Some "2025-10-31") (Some "auth")).
Defined.

Example search_example :
  match semantic_search example_query example_table "login" 2
          (Some "2025-10-01") (Some "2025-10-31") (Some "auth") with
  | Ok l => (fun r => (e_id r, e_similarity r)) <$> l
  | Raise _ => []
  end = [("c1", 0.75%float)]
  /\ match semantic_search example_query example_table "login" 2 None None None with
     | Ok l => (fun r => (e_id r, e_similarity r)) <$> l
     | Raise _ => []
     end = [("c1", 0.75%float); ("c2", 0.25%float)].
Proof. vm_compute. split; reflexivity. Qed.

(** A bound or a pattern that is given as the empty string is not applied:
    with date_to = '' the results are after the bound, with
    file_pattern = '' a conversation that touched no file is returned. *)
Lemma empty_bound_is_ignored :
  match semantic_search example_query example_table "login" 5 None (Some "") (Some "") with
  | Ok results =>
      exists r, r ∈ results
        /\ e_id r = "c2"
        /\ String.leb (e_timestamp r) "" = false
        /\ e_files_read r ++ e_files_written r ++ e_files_edited r = []
  | Raise _ => False
  end.
Proof.
  vm_compute. eexists. split; [right; left|]. repeat split; reflexivity.
Qed.

Lemma semantic_search_first_matches_witness :
  semantic_search example_query example_table "login" 1 None None None
    = Ok (take (Z.to_nat 1)
            (kept example_table None None None
               (map (fun n => Formatted (n_id n) (n_distance n) (1 - n_distance n)%float
                                 (n_document n) (n_metadata n))
                  [Neighbour "c1" 0.25 "User: fix the login" [];
                   Neighbour "gone" 0.5 "User: old" []]))).
Proof.
  apply (semantic_search_first_matches example_query example_table "login" 1
           None None None).
  - lia.
  - reflexivity.
Defined.

End Search.

(** ** The database connections of the cc-insights scripts *)

Module Connections.

(** A connection that [sqlite3.connect] returned. *)
Definition handle := nat.

Inductive event : Type :=
| Connect (h : handle)
| Close (h : handle).

(** What ends a call that does not return: an exception, or the
    [SystemExit] of [exit(status)]. *)
Inductive signal : Type :=
| Exception (e : exn)
| SystemExit (status : Z).

Inductive outcome (A : Type) : Type :=
| Returns (a : A)
| Raises (s : signal).
Arguments Returns {A} a.
Arguments Raises {A} s.

(** The connections of the process: those that are open, the calls of
    [connect] and [close] so far, the number of calls of [connect]. *)
Record process : Type := Process {
  opened : list handle;
  history : list event;
  attempts : nat
}.

Definition start : process := Process [] [] 0.

Definition M (A : Type) : Type := process -> process * outcome A.

Definition ret {A : Type} (a : A) : M A := fun p => (p, Returns a).
Definition lift {A : Type} (o : outcome A) : M A := fun p => (p, o).

(** [exit(status)] *)
Definition exit {A : Type} (status : Z) : M A := fun p => (p, Raises (SystemExit status)).

(** A call of a library that raises [failure], if there is one. *)
Definition may_raise (failure : option exn) : M unit :=
  fun p => (p, match failure with
               | Some e => Raises (Exception e)
               | None => Returns tt
               end).

Definition and_then {A B : Type} (m : M A) (k : A -> M B) : M B :=
  fun p => match m p with
           | (p', Returns a) => k a p'
           | (p', Raises s) => (p', Raises s)
           end.

Notation "x <~ m ;; k" := (and_then m (fun x => k))
  (at level 100, m at next level, right associativity).
Notation "m ;;; k" := (and_then m (fun _ => k))
  (at level 100, right associativity).

(** [try: body finally: final]: [final] runs however [body] ends, and the
    outcome is that of [body] unless [final] raises. *)
Definition try_finally {A : Type} (body : M A) (final : M unit) : M A :=
  fun p => let '(p1, o) := body p in
           match final p1 with
           | (p2, Returns _) => (p2, o)
           | (p2, Raises s) => (p2, Raises s)
           end.

(** What a script finds on the machine: whether the database file exists,
    whether the n-th [sqlite3.connect] of the run succeeds, the exception
    that the set-up before the connection raises (creating a directory,
    loading the embedding model, opening the ChromaDB collection), the one
    that the set-up after it raises (creating the tables, the template
    environment), and how the work between the constructor and [finally]
    ends. The work runs queries on the connections it is given; it calls
    neither [connect] nor [close]. *)
Record machine : Type := Machine {
  db_exists : bool;
  connectable : nat -> bool;
  before_connect : option exn;
  after_connect : option exn;
  work : outcome unit
}.

Section Scripts.
Variable m : machine.

(** [sqlite3.connect(str(db_path))] *)
Definition connect : M handle :=
  fun p =>
    let h := attempts p in
    if connectable m h
    then (Process (h :: opened p) (history p ++ [Connect h]) (S h), Returns h)
    else (Process (opened p) (history p) (S h), Raises (Exception OperationalError)).

(** [conn.close()]; closing a closed connection does nothing. *)
Definition close (h : handle) : M unit :=
  fun p => (Process (filter (fun h' => h' <> h) (opened p)) (history p ++ [Close h])
              (attempts p), Returns tt).

(** [if self.conn: self.conn.close()], for a [self.conn] that is [None]
    until the connection is made. *)
Definition close_if_set (conn : option handle) : M unit :=
  match conn with
  | Some h => close h
  | None => ret tt
  end.

(** *** rag_indexer.py *)

Record RAGIndexer : Type := Indexer { indexer_conn : handle }.

(** RAGIndexer.__init__, lines 29-55. *)
Definition RAGIndexer_init : M RAGIndexer :=
  may_raise (before_connect m) ;;;
  conn <~ connect ;;
  ret (Indexer conn).

(** RAGIndexer.close, lines 241-244. *)
Definition RAGIndexer_close (self : RAGIndexer) : M unit :=
  close_if_set (Some (indexer_conn self)).

(** main of rag_indexer.py, lines 258-294. *)
Definition rag_indexer_main : M unit :=
  if negb (db_exists m) then exit 1 else
  indexer <~ RAGIndexer_init ;;
  try_finally (lift (work m)) (RAGIndexer_close indexer).

(** *** search-conversations.py *)

Record ConversationSearch : Type := Searcher {
  searcher_indexer : RAGIndexer;
  searcher_conn : handle
}.

(** ConversationSearch.__init__, lines 26-36. *)
Definition ConversationSearch_init : M ConversationSearch :=
  indexer <~ RAGIndexer_init ;;
  conn <~ connect ;;
  ret (Searcher indexer conn).

(** ConversationSearch.close, lines 287-291. *)
Definition ConversationSearch_close (self : ConversationSearch) : M unit :=
  RAGIndexer_close (searcher_indexer self) ;;;
  close_if_set (Some (searcher_conn self)).

(** main of search-conversations.py, lines 308-380. *)
Definition search_main : M unit :=
  if negb (db_exists m) then exit 1 else
  searcher <~ ConversationSearch_init ;;
  try_finally (lift (work m)) (ConversationSearch_close searcher).

(** *** conversation-processor.py *)

(** ConversationProcessor.__init__ and _init_database, lines 45-110:
    [self.conn] is [None], the parent directory is made, the connection is
    opened, the tables are created. *)
Definition ConversationProcessor_init : M (option handle) :=
  may_raise (before_connect m) ;;;
  conn <~ connect ;;
  may_raise (after_connect m) ;;;
  ret (Some conn).

(** main of conversation-processor.py, lines 600-630; ConversationProcessor.close,
    lines 587-590. *)
Definition processor_main : M unit :=
  conn <~ ConversationProcessor_init ;;
  try_finally (lift (work m)) (close_if_set conn).

(** *** insight-generator.py *)

(** PatternDetector.__init__, lines 27-31, inside InsightGenerator.__init__,
    lines 226-236. *)
Definition InsightGenerator_init : M (option handle) :=
  conn <~ connect ;;
  may_raise (after_connect m) ;;;
  ret (Some conn).

(** main of insight-generator.py, lines 466-505; the two close methods,
    lines 217-220 and 451-453. *)
Definition insights_main : M unit :=
  if negb (db_exists m) then exit 1 else
  conn <~ InsightGenerator_init ;;
  try_finally (lift (work m)) (close_if_set conn).

End Scripts.

(** *** Connections that are open at the same time *)

Definition step (open : list handle) (e : event) : list handle :=
  match e with
  | Connect h => h :: open
  | Close h => filter (fun h' => h' <> h) open
  end.

(** The largest number of connections open at one time in the course of
    [events], from the connections [open]. *)
Fixpoint peak_from (open : list handle) (events : list event) : nat :=
  match events with
  | [] => length open
  | e :: rest => Nat.max (length open) (peak_from (step open e) rest)
  end.

Definition peak (events : list event) : nat := peak_from [] events.

(** The connections still open after [events]. *)
Definition left_open (events : list event) : list handle := fold_left step events [].

(** The status of the process: 0 when main returns, the status of
    [exit], 1 for an exception that nothing catches. *)
Definition status (o : outcome unit) : Z :=
  match o with
  | Returns _ => 0
  | Raises (SystemExit s) => s
  | Raises (Exception _) => 1
  end.

Ltac fin := repeat split; intros; unfold peak, left_open in *; simpl in *; try done; try lia.

Ltac run_script :=
  unfold search_main, rag_indexer_main, processor_main, insights_main,
    ConversationSearch_init, ConversationSearch_close, RAGIndexer_init, RAGIndexer_close,
    ConversationProcessor_init, InsightGenerator_init, close_if_set,
    try_finally, and_then, may_raise, connect, close, exit, lift, ret, start;
  cbn.

(** search-conversations.py holds two connections to the database at the
    same time. When the database file exists and both constructors return,
    the run opens two connections, RAGIndexer's and ConversationSearch's
    own, keeps both open during the whole search, and closes both in the
    finally clause however the search ends. *)
Theorem search_holds_two_connections (m : machine) :
  db_exists m = true -> before_connect m = None ->
  connectable m 0%nat = true -> connectable m 1%nat = true ->
  let '(p, o) := search_main m start in
  history p = [Connect 0%nat; Connect 1%nat; Close 0%nat; Close 1%nat]
  /\ peak (history p) = 2%nat
  /\ opened p = []
  /\ o = work m.
Proof.
  destruct m as [db conn before after wk]. cbn. intros -> -> H0 H1. run_script.
  rewrite H0. cbn. rewrite H1. cbn. done.
Qed.

Definition example_machine : machine :=
  Machine true (fun _ => true) None None (Raises (SystemExit 1)).

Lemma search_holds_two_connections_witness :
  let '(p, o) := search_main example_machine start in
  history p = [Connect 0%nat; Connect 1%nat; Close 0%nat; Close 1%nat]
  /\ peak (history p) = 2%nat
  /\ opened p = []
  /\ o = work example_machine.
Proof.
  apply (search_holds_two_connections example_machine); reflexivity.
Defined.

(** No run of search-conversations.py has more than two connections open
    at a time or calls [connect] a third time; without the database file
    it opens none and ends with status 1; and a run that had two open has
    closed both at its end. *)
Theorem search_at_most_two_connections (m : machine) :
  let '(p, o) := search_main m start in
  (peak (history p) <= 2)%nat
  /\ (attempts p <= 2)%nat
  /\ left_open (history p) = opened p
  /\ (peak (history p) = 2%nat -> opened p = [])
  /\ (db_exists m = false -> history p = [] /\ attempts p = 0%nat /\ status o = 1).
Proof.
  destruct m as [db conn before after wk]. run_script.
  destruct db; cbn; [|fin].
  destruct before; cbn; [fin|].
  destruct (conn 0%nat); cbn; [|fin].
  destruct (conn 1%nat); cbn; fin.
Qed.

(** The three other scripts hold one connection: rag_indexer.py,
    conversation-processor.py and insight-generator.py never have two
    connections open, call [connect] at most once, and, when the
    constructor returns, close the connection in the finally clause
    however the work ends. *)
Theorem one_connection_per_run (m : machine) :
  Forall (fun main : machine -> M unit =>
    let '(p, o) := main m start in
    (peak (history p) <= 1)%nat
    /\ (attempts p <= 1)%nat
    /\ left_open (history p) = opened p
    /\ (before_connect m = None -> after_connect m = None ->
        connectable m 0%nat = true -> history p <> [] ->
        history p = [Connect 0%nat; Close 0%nat] /\ opened p = [] /\ o = work m))
    [rag_indexer_main; processor_main; insights_main].
Proof.
  destruct m as [db conn before after wk].
  repeat apply Forall_cons_2; [| | |apply Forall_nil_2]; run_script.
  - destruct db; cbn; [|fin].
    destruct before; cbn; [fin|].
    destruct (conn 0%nat); cbn; fin.
  - destruct before; cbn; [fin|].
    destruct (conn 0%nat); cbn; [|fin].
    destruct after; cbn; fin.
  - destruct db; cbn; [|fin].
    destruct (conn 0%nat); cbn; [|fin].
    destruct after; cbn; fin.
Qed.

(** The constructors run before the try: a connection that was opened
    when a later step of the constructor raises is not closed by the
    script. In search-conversations.py that is RAGIndexer's connection when
    ConversationSearch's own [connect] fails, in conversation-processor.py
    the connection when the tables cannot be created. *)
Theorem constructor_failure_leaves_connection_open (m : machine) (e : exn) :
  before_connect m = None -> connectable m 0%nat = true ->
  (db_exists m = true -> connectable m 1%nat = false ->
     search_main m start
       = (Process [0%nat] [Connect 0%nat] 2, Raises (Exception OperationalError)))
  /\ (after_connect m = Some e ->
        processor_main m start = (Process [0%nat] [Connect 0%nat] 1, Raises (Exception e))).
Proof.
  destruct m as [db conn before after wk]. cbn. intros -> H0. split.
  - intros -> H1. run_script. rewrite H0. cbn. rewrite H1. done.
  - intros ->. run_script. rewrite H0. done.
Qed.

Lemma constructor_failure_leaves_connection_open_witness :
  let m := Machine true (fun n => bool_decide (n = 0%nat)) None (Some OperationalError)
             (Returns tt) in
  search_main m start
    = (Process [0%nat] [Connect 0%nat] 2, Raises (Exception OperationalError))
  /\ processor_main m start
     = (Process [0%nat] [Connect 0%nat] 1, Raises (Exception OperationalError)).
Proof.
  intros m.
  destruct (constructor_failure_leaves_connection_open m OperationalError eq_refl eq_refl)
    as [Hsearch Hprocessor].
  split; [apply Hsearch | apply Hprocessor]; reflexivity.
Defined.

End Connections.

(** ** search-conversations.py: the SQL of keyword_search and the command line *)

Module SearchMain.
Import Py Processor Search.

(** *** keyword_search: the statement and its parameters *)

(** A value bound to a [?] of a statement. *)
Inductive param : Type :=
| PText (s : string)
| PInt (z : Z).

(** [f"%{s}%"] *)
Definition inside (s : string) : param := PText ("%" +:+ s +:+ "%").

(** [sep.join(l)] *)
Fixpoint join_with (sep : string) (l : list string) : string :=
  match l with
  | [] => ""
  | [s] => s
  | s :: rest => s +:+ sep +:+ join_with sep rest
  end.

Definition nl : string := String "010" "".

(** Lines 118-145: the conditions, the parameters, and the text that is
    passed to [execute] with them. *)
Definition keyword_statement (query : string) (limit : Z)
    (date_from date_to file_pattern : option string) : string * list param :=
  let conditions :=
    ["(first_user_message LIKE ? OR last_assistant_message LIKE ? OR topics LIKE ?)"] in
  let params := [inside query; inside query; inside query] in
  let '(conditions, params) :=
    match truthy date_from with
    | Some d => (conditions ++ ["timestamp >= ?"], params ++ [PText d])
    | None => (conditions, params)
    end in
  let '(conditions, params) :=
    match truthy date_to with
    | Some d => (conditions ++ ["timestamp <= ?"], params ++ [PText d])
    | None => (conditions, params)
    end in
  let '(conditions, params) :=
    match truthy file_pattern with
    | Some f =>
        (conditions ++ ["(files_read LIKE ? OR files_written LIKE ? OR files_edited LIKE ?)"],
         params ++ [inside f; inside f; inside f])
    | None => (conditions, params)
    end in
  let where_clause := join_with " AND " conditions in
  (nl +:+ "            SELECT * FROM conversations" +:+ nl
      +:+ "            WHERE " +:+ where_clause +:+ nl
      +:+ "            ORDER BY timestamp DESC" +:+ nl
      +:+ "            LIMIT ?" +:+ nl +:+ "        ",
   params ++ [PInt limit]).

(** The number of [?] in a statement. *)
Definition placeholders (sql : string) : nat :=
  length (filter (fun c => c = "?"%char) (list_ascii_of_string sql)).

(** Whether a filter is applied. *)
Definition given (x : option string) : bool :=
  match truthy x with Some _ => true | None => false end.

(** The text of the statement depends only on which filters are given:
    what the user typed is in the parameters, never in the text; and the
    statement has as many [?] as there are parameters. *)
Theorem keyword_statement_binds_values (query query' : string) (limit limit' : Z)
    (date_from date_to file_pattern date_from' date_to' file_pattern' : option string) :
  let '(sql, params) := keyword_statement query limit date_from date_to file_pattern in
  placeholders sql = length params
  /\ (given date_from = given date_from' -> given date_to = given date_to' ->
      given file_pattern = given file_pattern' ->
      (keyword_statement query' limit' date_from' date_to' file_pattern').1 = sql).
Proof.
  unfold keyword_statement, given.
  destruct (truthy date_from), (truthy date_to), (truthy file_pattern);
    (split; [vm_compute; reflexivity|]);
    destruct (truthy date_from'), (truthy date_to'), (truthy file_pattern');
    intros; try discriminate; reflexivity.
Qed.

(** *** main: which search is run *)

(** The options of the command line, lines 295-309. *)
Record options : Type := Options {
  query : option string;
  semantic : bool;
  file : option string;
  tool : option string;
  date_from : option string;
  date_to : option string;
  limit : Z
}.

(** The method that main calls, with its arguments. *)
Inductive request : Type :=
| SearchByTool (tool_name : string) (limit : Z)
| SearchByFile (file_pattern : string) (limit : Z)
| SemanticSearch (query : string) (limit : Z) (date_from date_to file_pattern : option string)
| KeywordSearch (query : string) (limit : Z) (date_from date_to file_pattern : option string).

(** Lines 345-373: [None] is the branch that prints an error and calls
    [exit(1)]. *)
Definition dispatch (o : options) : option request :=
  match truthy (tool o) with
  | Some t => Some (SearchByTool t (limit o))
  | None =>
      match truthy (file o) with
      | Some f => Some (SearchByFile f (limit o))
      | None =>
          match truthy (query o) with
          | Some q =>
              Some (if semantic o
                    then SemanticSearch q (limit o) (date_from o) (date_to o) (file o)
                    else KeywordSearch q (limit o) (date_from o) (date_to o) (file o))
          | None => None
          end
      end
  end.

Lemma truthy_inv (x : option string) (s : string) :
  truthy x = Some s -> x = Some s /\ s <> "".
Proof. destruct x as [[|c t]|]; simpl; intros [= <-]; done. Qed.

Lemma truthy_None (x : option string) : truthy x = None -> x = None \/ x = Some "".
Proof. destruct x as [[|c t]|]; simpl; intros H; try done; auto. Qed.

Section CommandLine.
Variable chroma_query : string -> Z -> res (list neighbour).
Variable table : list metadata.

Lemma enrich_empty_pattern (l : Z) (df dt : option string) (results : list formatted)
    (acc : list enriched) :
  enrich table l df dt (Some "") results acc = enrich table l df dt None results acc.
Proof.
  revert acc. induction results as [|result rest IH]; intros acc; simpl; [done|].
  destruct (_get_conversation_details table (f_id result)) as [details|].
  - change (filtered_out df dt (Some "") details) with (filtered_out df dt None details).
    destruct (filtered_out df dt None details); [apply IH|].
    destruct (l <=? _); [done | apply IH].
  - destruct (l <=? _); [done | apply IH].
Qed.

(** From the command line the file filter of a text search is never
    applied: main calls semantic_search and keyword_search only when
    --file is absent or empty, so that semantic_search returns what it
    returns without a file pattern and the statement of keyword_search has
    no condition on the files; with --tool the query and --file are
    ignored, with --file the query is. *)
Theorem text_search_has_no_file_filter (o : options) :
  match dispatch o with
  | Some (SemanticSearch q l df dt fp) =>
      given (tool o) = false /\ given (file o) = false /\ query o = Some q
      /\ semantic_search chroma_query table q l df dt fp
         = semantic_search chroma_query table q l df dt None
  | Some (KeywordSearch q l df dt fp) =>
      given (tool o) = false /\ given (file o) = false /\ query o = Some q
      /\ keyword_statement q l df dt fp = keyword_statement q l df dt None
  | Some (SearchByFile f l) => given (tool o) = false /\ file o = Some f /\ f <> ""
  | Some (SearchByTool t l) => tool o = Some t /\ t <> ""
  | None => given (tool o) = false /\ given (file o) = false /\ given (query o) = false
  end.
Proof.
  unfold dispatch, given.
  destruct (truthy (tool o)) as [t|] eqn:Ht; [by apply truthy_inv|].
  destruct (truthy (file o)) as [f|] eqn:Hf.
  { split; [done|]. by apply truthy_inv. }
  destruct (truthy (query o)) as [q|] eqn:Hq; [|done].
  apply truthy_inv in Hq as [Hq _].
  apply truthy_None in Hf as [Hf|Hf]; rewrite Hf; destruct (semantic o);
    repeat split; try done.
  unfold semantic_search. destruct (search chroma_query q (limit o * 2)); [|done].
  simpl. by rewrite enrich_empty_pattern.
Qed.

End CommandLine.

End SearchMain.

(** ** rag_indexer.py: building the index *)

Module Indexer.
Import Py Processor SearchMain.

(** A dictionary of [conversations], lines 104-113. *)
Record conversation : Type := Conversation {
  c_id : string;
  c_first_user_message : string;
  c_last_assistant_message : string;
  c_topics : list string;
  c_files_read : list string;
  c_files_written : list string;
  c_files_edited : list string;
  c_timestamp : string
}.

Definition of_row (row : metadata) : conversation :=
  Conversation (id row) (first_user_message row) (last_assistant_message row)
    (topics row) (files_read row) (files_written row) (files_edited row) (timestamp row).

(** _create_document_text, lines 117-135. *)
Definition _create_document_text (conversation : conversation) : string :=
  let parts := [] in
  let parts :=
    if String.eqb (c_first_user_message conversation) "" then parts
    else parts ++ ["User: " +:+ c_first_user_message conversation] in
  let parts :=
    if String.eqb (c_last_assistant_message conversation) "" then parts
    else parts ++ ["Assistant: " +:+ c_last_assistant_message conversation] in
  let parts :=
    match c_topics conversation with
    | [] => parts
    | topics => parts ++ ["Topics: " +:+ join_with ", " topics]
    end in
  let all_files := c_files_read conversation ++ c_files_written conversation
                   ++ c_files_edited conversation in
  let parts :=
    match all_files with
    | [] => parts
    | _ => parts ++ ["Files: " +:+ join_with ", " all_files]
    end in
  join_with (nl +:+ nl) parts.

(** What ChromaDB holds for one conversation: its id, the document, and
    the conversation the embedding and the metadata are made of. *)
Record entry : Type := Entry {
  entry_id : string;
  entry_document : string;
  entry_source : conversation
}.

Definition entry_of (conv : conversation) : entry :=
  Entry (c_id conv) (_create_document_text conv) conv.

Definition collection := list entry.

(** The index on disk as the indexer changes it: the collection, and the
    ids of each call of [collection.add] so far. *)
Record index : Type := Index {
  entries : collection;
  added : list (list string)
}.

(** [range(0, n, step)] *)
Definition range (n : nat) (step : Z) : res (list nat) :=
  if step =? 0 then Raise ValueError
  else if step <? 0 then Ok []
  else let s := Z.to_nat step in
       Ok (map (fun k => (k * s)%nat) (seq 0 ((n + s - 1) / s))).

(** [l[i:i + size]] for a positive size *)
Definition slice {A : Type} (i : nat) (size : Z) (l : list A) : list A :=
  take (Z.to_nat size) (drop i l).

Section Index.

(** The table conversations as RAGIndexer's connection sees it, and rows
    in the order of [ORDER BY timestamp DESC]. *)
Variable table : list metadata.
Variable by_timestamp_desc : list metadata -> list metadata.

(** The largest number of [?] that SQLite accepts in one statement. *)
Variable max_variables : nat.

(** [collection.add]: ChromaDB adds the batch, or raises. *)
Variable chroma_add : list entry -> collection -> res collection.

(** [collection.get(include=[])['ids']]: ChromaDB gives a list of ids, or
    raises. *)
Variable chroma_get : collection -> res (list string).

(** _get_indexed_conversation_ids, lines 62-68: the set of the ids that
    [collection.get] gives, and the empty set when it raises. *)
Definition _get_indexed_conversation_ids (ix : index) : list string :=
  match chroma_get (entries ix) with
  | Ok ids => remove_dups ids
  | Raise _ => []
  end.

(** [collection.get] returns, with the ids of the collection. *)
Definition get_returns (ix : index) : Prop :=
  exists ids, chroma_get (entries ix) = Ok ids
              /\ forall i, i ∈ ids <-> i ∈ entry_id <$> entries ix.

(** _fetch_conversations_to_index, lines 70-115. The statement of the
    incremental case has one [?] for every indexed id. *)
Definition _fetch_conversations_to_index (rebuild : bool) (ix : index)
    : res (list conversation) :=
  if rebuild then Ok (of_row <$> by_timestamp_desc table)
  else
    let indexed_ids := _get_indexed_conversation_ids ix in
    match indexed_ids with
    | [] => Ok (of_row <$> by_timestamp_desc table)
    | _ =>
        if (max_variables <? length indexed_ids)%nat then Raise OperationalError
        else Ok (of_row <$> by_timestamp_desc
                   (filter (fun row => id row ∉ indexed_ids) table))
    end.

(** The body of the loop, lines 172-195. *)
Definition index_batch (conversations : list conversation) (batch_size : Z)
    (st : index * nat) (i : nat) : index * res nat :=
  let '(ix, indexed_count) := st in
  let batch := slice i batch_size conversations in
  match chroma_add (entry_of <$> batch) (entries ix) with
  | Ok c => (Index c (added ix ++ [c_id <$> batch]), Ok (indexed_count + length batch)%nat)
  | Raise e => (ix, Raise e)
  end.

Fixpoint index_batches (conversations : list conversation) (batch_size : Z)
    (starts : list nat) (st : index * nat) : index * res nat :=
  match starts with
  | [] => (st.1, Ok st.2)
  | i :: rest =>
      match index_batch conversations batch_size st i with
      | (ix, Ok indexed_count) => index_batches conversations batch_size rest (ix, indexed_count)
      | (ix, Raise e) => (ix, Raise e)
      end
  end.

(** index_conversations, lines 147-199. *)
Definition index_conversations (rebuild : bool) (batch_size : Z) (ix : index)
    : index * res nat :=
  let ix := if rebuild then Index [] (added ix) else ix in
  match _fetch_conversations_to_index rebuild ix with
  | Raise e => (ix, Raise e)
  | Ok [] => (ix, Ok 0%nat)
  | Ok conversations =>
      match range (length conversations) batch_size with
      | Raise e => (ix, Raise e)
      | Ok starts => index_batches conversations batch_size starts (ix, 0%nat)
      end
  end.

(** *** Batches *)

Lemma range_slices {A : Type} (l : list A) (sz : nat) :
  (0 < sz)%nat ->
  let starts := map (fun k => (k * sz)%nat) (seq 0 ((length l + sz - 1) / sz)) in
  concat (map (fun i => take sz (drop i l)) starts) = l
  /\ Forall (fun b : list A => (0 < length b <= sz)%nat)
       (map (fun i => take sz (drop i l)) starts).
Proof.
  intros Hsz. cbv zeta.
  set (m := ((length l + sz - 1) / sz)%nat).
  assert (Hm : (length l <= m * sz)%nat /\ forall k, (k < m)%nat -> (k * sz < length l)%nat).
  { pose proof (Nat.div_mod_eq (length l + sz - 1) sz) as Hd.
    pose proof (Nat.mod_upper_bound (length l + sz - 1) sz ltac:(lia)) as Hr.
    fold m in Hd. split; [nia|]. intros k Hk. nia. }
  destruct Hm as [Hle Hlt]. clearbody m. split.
  - clear Hlt. rewrite map_map. revert l Hle. induction m as [|m IH]; intros l Hle; simpl.
    + destruct l; [done | simpl in Hle; lia].
    + rewrite <- seq_shift, map_map. simpl.
      etrans; [|apply (take_drop sz l)]. f_equal.
      etrans; [|apply (IH (drop sz l)); rewrite length_drop; lia].
      f_equal. apply map_ext. intros k. by rewrite drop_drop.
  - apply Forall_forall. intros b Hb.
    apply list_elem_of_In, in_map_iff in Hb as (i & <- & Hi).
    apply in_map_iff in Hi as (k & <- & Hk). apply in_seq in Hk.
    specialize (Hlt k ltac:(lia)).
    rewrite length_take, length_drop. lia.
Qed.

Lemma concat_ids (batches : list (list conversation)) :
  concat (map (fmap c_id) batches) = c_id <$> concat batches.
Proof.
  induction batches as [|b bs IH]; simpl; [done|]. by rewrite fmap_app, IH.
Qed.

(** The loop over the batches themselves. *)
Fixpoint add_batches (batches : list (list conversation)) (st : index * nat)
    : index * res nat :=
  match batches with
  | [] => (st.1, Ok st.2)
  | batch :: rest =>
      match chroma_add (entry_of <$> batch) (entries st.1) with
      | Ok c =>
          add_batches rest (Index c (added st.1 ++ [c_id <$> batch]),
                            (st.2 + length batch)%nat)
      | Raise e => (st.1, Raise e)
      end
  end.

Lemma index_batches_slices (conversations : list conversation) (batch_size : Z)
    (starts : list nat) (st : index * nat) :
  index_batches conversations batch_size starts st
    = add_batches (map (fun i => slice i batch_size conversations) starts) st.
Proof.
  revert st. induction starts as [|i rest IH]; intros [ix n]; simpl; [done|].
  destruct (chroma_add _ _) as [c|e]; [apply IH | done].
Qed.

(** ChromaDB adds a batch of new ids, none of them twice, at the end of
    the collection. *)
Hypothesis add_new :
  forall batch c, batch <> [] -> NoDup (entry_id <$> (c ++ batch)) ->
    chroma_add batch c = Ok (c ++ batch).

Lemma add_batches_new (batches : list (list conversation)) (ix : index) (n : nat) :
  Forall (fun b => b <> []) batches ->
  NoDup (entry_id <$> (entries ix ++ (entry_of <$> concat batches))) ->
  add_batches batches (ix, n)
    = (Index (entries ix ++ (entry_of <$> concat batches))
             (added ix ++ map (fmap c_id) batches),
       Ok (n + length (concat batches))%nat).
Proof.
  intros Hne. revert ix n. induction Hne as [|batch rest Hb Hrest IH]; intros ix n Hnd; simpl.
  - rewrite !app_nil_r, Nat.add_0_r. by destruct ix.
  - cbn [concat] in Hnd. rewrite (fmap_app entry_of), app_assoc in Hnd.
    rewrite add_new.
    + rewrite IH; simpl; [|done].
      rewrite fmap_app, <- !app_assoc, length_app. simpl.
      f_equal. f_equal. lia.
    + by destruct batch.
    + rewrite fmap_app in Hnd. by apply NoDup_app in Hnd as [? _].
Qed.

(** The order of the rows does not change which rows there are, and the
    ids of the table are its primary key. *)
Hypothesis order_permutes : forall rows, by_timestamp_desc rows ≡ₚ rows.
Hypothesis primary_key : NoDup (id <$> table).

Lemma entry_ids (conversations : list conversation) :
  entry_id <$> (entry_of <$> conversations) = c_id <$> conversations.
Proof. by rewrite <- list_fmap_compose. Qed.

Lemma row_ids (rows : list metadata) : c_id <$> (of_row <$> rows) = id <$> rows.
Proof. by rewrite <- list_fmap_compose. Qed.

Lemma fetched_ids (rows : list metadata) :
  c_id <$> (of_row <$> by_timestamp_desc rows) ≡ₚ id <$> rows.
Proof. rewrite row_ids. by rewrite order_permutes. Qed.

Lemma nil_permutation {A : Type} (l : list A) : l ≡ₚ [] -> l = [].
Proof. intros H. by apply Permutation_nil_r. Qed.

(** What a run has to index: every row with --rebuild, else the rows
    whose id is not in the collection. *)
Definition to_index (rebuild : bool) (ix : index) : list metadata :=
  if rebuild then table
  else filter (fun row => id row ∉ entry_id <$> entries ix) table.

Definition base (rebuild : bool) (ix : index) : index :=
  if rebuild then Index [] (added ix) else ix.

(** The set that _get_indexed_conversation_ids returns when
    [collection.get] returns. *)
Lemma indexed_ids_elem (ix : index) (i : string) :
  get_returns ix ->
  i ∈ _get_indexed_conversation_ids ix <-> i ∈ entry_id <$> entries ix.
Proof.
  intros (ids & Hget & Hids). unfold _get_indexed_conversation_ids.
  by rewrite Hget, elem_of_remove_dups.
Qed.

Lemma fetch_to_index (rebuild : bool) (ix : index) :
  (rebuild = false -> get_returns ix) ->
  (rebuild = false -> length (_get_indexed_conversation_ids ix) <= max_variables)%nat ->
  exists todo,
    _fetch_conversations_to_index rebuild (base rebuild ix) = Ok todo
    /\ c_id <$> todo ≡ₚ id <$> to_index rebuild ix.
Proof.
  intros Hget Hmax. unfold _fetch_conversations_to_index, to_index, base.
  destruct rebuild; [eexists; split; [done | apply fetched_ids]|].
  specialize (Hmax eq_refl). specialize (Hget eq_refl).
  pose proof (fun i => indexed_ids_elem ix i Hget) as Helem.
  destruct (_get_indexed_conversation_ids ix) as [|i ids] eqn:Hids.
  - eexists. split; [done|]. rewrite fetched_ids.
    rewrite filter_all; [done|].
    apply Forall_forall. intros row _ Hin. apply Helem in Hin. by apply elem_of_nil in Hin.
  - apply Nat.ltb_ge in Hmax. rewrite Hmax.
    eexists. split; [done|]. rewrite fetched_ids.
    rewrite (list_filter_iff _ (fun row => id row ∉ entry_id <$> entries ix)); [done|].
    intros row. by rewrite Helem.
Qed.

(** When [collection.get] raises, the indexer takes the collection for
    empty and fetches every row of the table. *)
Lemma get_failure_fetches_every_row (ix : index) (e : exn) :
  chroma_get (entries ix) = Raise e ->
  _fetch_conversations_to_index false ix = Ok (of_row <$> by_timestamp_desc table).
Proof.
  intros Hget. unfold _fetch_conversations_to_index, _get_indexed_conversation_ids.
  by rewrite Hget.
Qed.

Lemma index_conversations_run (rebuild : bool) (batch_size : Z) (ix : index) :
  0 < batch_size ->
  (rebuild = false -> get_returns ix) ->
  (rebuild = false -> NoDup (entry_id <$> entries ix)) ->
  (rebuild = false -> length (_get_indexed_conversation_ids ix) <= max_variables)%nat ->
  let '(ix', r) := index_conversations rebuild batch_size ix in
  exists todo calls,
    r = Ok (length todo)
    /\ c_id <$> todo ≡ₚ id <$> to_index rebuild ix
    /\ entries ix' = entries (base rebuild ix) ++ (entry_of <$> todo)
    /\ added ix' = added ix ++ calls
    /\ concat calls = c_id <$> todo
    /\ Forall (fun call => 0 < Z.of_nat (length call) <= batch_size) calls
    /\ (forall row, row ∈ table -> id row ∈ entry_id <$> entries ix').
Proof.
  intros Hsize Hget Hnd Hmax.
  destruct (fetch_to_index rebuild ix Hget Hmax) as (todo & Hfetch & Htodo).
  assert (Hcover : forall row, row ∈ table ->
            id row ∈ entry_id <$> (entries (base rebuild ix) ++ (entry_of <$> todo))).
  { intros row Hrow. rewrite fmap_app, entry_ids, elem_of_app, Htodo.
    unfold to_index, base. destruct rebuild.
    - right. by apply list_elem_of_fmap_2.
    - destruct (decide (id row ∈ entry_id <$> entries ix)) as [Hin|Hout]; [by left|].
      right. apply list_elem_of_fmap_2. by apply list_elem_of_filter. }
  assert (Hfresh : NoDup (entry_id <$> (entries (base rebuild ix) ++ (entry_of <$> todo)))).
  { rewrite fmap_app, entry_ids. apply NoDup_app.
    assert (Htodo_nd : NoDup (id <$> to_index rebuild ix)).
    { unfold to_index. destruct rebuild; [done|]. by apply filter_fmap_NoDup. }
    unfold base, to_index in *. destruct rebuild; simpl.
    - split; [constructor|]. split; [intros ? []%elem_of_nil|]. by rewrite Htodo.
    - split; [by apply Hnd|]. split; [|by rewrite Htodo].
      intros i Hi. rewrite Htodo. intros Hin.
      apply list_elem_of_fmap in Hin as (row & -> & Hrow).
      by apply list_elem_of_filter in Hrow as [? _]. }
  unfold index_conversations. fold (base rebuild ix). rewrite Hfetch.
  destruct todo as [|conv todo].
  { cbn. exists []. exists []. split; [done|]. split; [done|].
    split; [by rewrite app_nil_r|].
    split; [unfold base; destruct rebuild; simpl; by rewrite app_nil_r|].
    split; [done|]. split; [constructor|].
    intros row Hrow. specialize (Hcover row Hrow). by rewrite app_nil_r in Hcover. }
  set (conversations := conv :: todo) in *.
  unfold range. rewrite (proj2 (Z.eqb_neq _ _)), (proj2 (Z.ltb_ge _ _)) by lia.
  rewrite index_batches_slices. unfold slice.
  destruct (range_slices conversations (Z.to_nat batch_size) ltac:(lia)) as [Hconcat Hsizes].
  cbv zeta in Hconcat, Hsizes.
  set (batches := map (fun i => take (Z.to_nat batch_size) (drop i conversations)) _) in *.
  rewrite add_batches_new.
  - rewrite Hconcat. exists conversations, (map (fmap c_id) batches).
    split; [f_equal; simpl; lia|]. split; [done|]. split; [done|].
    split; [unfold base; by destruct rebuild|].
    split; [by rewrite concat_ids, Hconcat|].
    split; [|exact Hcover].
    apply Forall_forall. intros call Hcall.
    apply list_elem_of_In, in_map_iff in Hcall as (b & <- & Hb).
    rewrite Forall_forall in Hsizes. apply list_elem_of_In, Hsizes in Hb.
    rewrite length_fmap. lia.
  - eapply Forall_impl; [exact Hsizes|]. intros b Hb ->. simpl in Hb. lia.
  - by rewrite Hconcat.
Qed.

(** index_conversations with a positive batch size, on a collection
    whose ids [collection.get] returns (without --rebuild, where it is
    called), are in the table no more than once and few enough for one
    statement: it returns the number of conversations it had to index,
    the rows not yet in the collection or, with --rebuild, all rows; it
    adds one entry for each of them, after the entries it found (none
    with --rebuild), in calls of [collection.add] of at least one and at
    most batch_size entries; afterwards every row of the table is in the
    collection. *)
Theorem index_adds_what_is_missing (rebuild : bool) (batch_size : Z) (ix : index) :
  0 < batch_size ->
  (rebuild = false -> get_returns ix) ->
  (rebuild = false -> NoDup (entry_id <$> entries ix)) ->
  (rebuild = false -> length (_get_indexed_conversation_ids ix) <= max_variables)%nat ->
  let '(ix', r) := index_conversations rebuild batch_size ix in
  exists todo calls,
    r = Ok (length todo)
    /\ c_id <$> todo ≡ₚ id <$> to_index rebuild ix
    /\ entries ix' = entries (base rebuild ix) ++ (entry_of <$> todo)
    /\ added ix' = added ix ++ calls
    /\ concat calls = c_id <$> todo
    /\ Forall (fun call => 0 < Z.of_nat (length call) <= batch_size) calls
    /\ (forall row, row ∈ table -> id row ∈ entry_id <$> entries ix').
Proof. exact (index_conversations_run rebuild batch_size ix). Qed.

(** When every row of the table is in the collection, incremental
    indexing fetches nothing, adds nothing and returns 0, whatever the
    batch size. *)
Lemma index_complete (batch_size : Z) (ix : index) :
  get_returns ix ->
  (forall row, row ∈ table -> id row ∈ entry_id <$> entries ix) ->
  (length (_get_indexed_conversation_ids ix) <= max_variables)%nat ->
  index_conversations false batch_size ix = (ix, Ok 0%nat).
Proof.
  intros Hget Hall Hmax. unfold index_conversations, _fetch_conversations_to_index.
  pose proof (fun i => indexed_ids_elem ix i Hget) as Helem.
  destruct (_get_indexed_conversation_ids ix) as [|i ids] eqn:Hids.
  - assert (Htable : table = []).
    { destruct table as [|row rows]; [done|].
      specialize (Hall row ltac:(left)).
      apply Helem in Hall. by apply elem_of_nil in Hall. }
    rewrite Htable. by rewrite (nil_permutation _ (order_permutes [])).
  - apply Nat.ltb_ge in Hmax. rewrite Hmax.
    rewrite filter_none.
    + by rewrite (nil_permutation _ (order_permutes [])).
    + apply Forall_forall. intros row Hrow Hout. apply Hout.
      apply Helem. by apply Hall.
Qed.

(** After a run of index_conversations that returned, a run without
    --rebuild on the same table, in which [collection.get] returns the
    ids of the collection, adds nothing to the collection and returns 0. *)
Theorem index_again_adds_nothing (rebuild : bool) (batch_size batch_size' : Z)
    (ix : index) :
  0 < batch_size ->
  (rebuild = false -> get_returns ix) ->
  (rebuild = false -> NoDup (entry_id <$> entries ix)) ->
  (rebuild = false -> length (_get_indexed_conversation_ids ix) <= max_variables)%nat ->
  let ix' := (index_conversations rebuild batch_size ix).1 in
  get_returns ix' ->
  (length (_get_indexed_conversation_ids ix') <= max_variables)%nat ->
  index_conversations false batch_size' ix' = (ix', Ok 0%nat).
Proof.
  intros Hsize Hget Hnd Hmax.
  pose proof (index_conversations_run rebuild batch_size ix Hsize Hget Hnd Hmax) as Hrun.
  destruct (index_conversations rebuild batch_size ix) as [ix' r]. simpl.
  destruct Hrun as (todo & calls & _ & _ & _ & _ & _ & _ & Hcover).
  intros Hget' Hmax'. by apply index_complete.
Qed.

(** With --rebuild the collection is emptied before the batches are
    formed: a batch size of zero then makes [range] raise, and a negative
    one gives no batch at all, so that the run returns 0; either way the
    index is left empty although there are conversations. *)
Theorem rebuild_with_bad_batch_size (batch_size : Z) (ix : index) :
  table <> [] -> batch_size <= 0 ->
  index_conversations true batch_size ix
    = (Index [] (added ix),
       if batch_size =? 0 then Raise ValueError else Ok 0%nat).
Proof.
  intros Htable Hsize. unfold index_conversations, _fetch_conversations_to_index.
  destruct (of_row <$> by_timestamp_desc table) as [|conv todo] eqn:Hfetch.
  { apply fmap_nil_inv in Hfetch. pose proof (order_permutes table) as Hp.
    rewrite Hfetch in Hp. symmetry in Hp. by apply nil_permutation in Hp. }
  unfold range. destruct (batch_size =? 0) eqn:E; [done|].
  apply Z.eqb_neq in E. by rewrite (proj2 (Z.ltb_lt _ _)) by lia.
Qed.

End Index.

(** *** _create_document_text *)

Lemma join_with_empty (sep : string) (parts : list string) :
  Forall (fun part => part <> "") parts -> join_with sep parts = "" -> parts = [].
Proof.
  intros Hparts. destruct Hparts as [|part parts Hpart Hparts]; [done|].
  simpl. destruct parts; [done|]. destruct part; [done|]. simpl. discriminate.
Qed.

(** The part of a document for a text, and for a list: none when it is
    empty, otherwise the label and the text, or the items with commas. *)
Definition text_part (label text : string) : list string :=
  if String.eqb text "" then [] else [label +:+ text].

Definition list_part (label : string) (items : list string) : list string :=
  match items with
  | [] => []
  | _ => [label +:+ join_with ", " items]
  end.

Lemma string_app_assoc (a b c : string) : (a +:+ b) +:+ c = a +:+ (b +:+ c).
Proof.
  induction a as [|x a IH]; [done|].
  change (String x ((a +:+ b) +:+ c) = String x (a +:+ (b +:+ c))). by rewrite IH.
Qed.

Lemma string_app_empty (a : string) : a +:+ "" = a.
Proof.
  induction a as [|x a IH]; [done|].
  change (String x (a +:+ "") = String x a). by rewrite IH.
Qed.

(** Every string that is joined is in the result. *)
Lemma join_with_substring (sep part : string) (parts : list string) :
  part ∈ parts -> is_substring part (join_with sep parts) = true.
Proof.
  intros Hin. apply is_substring_spec.
  induction parts as [|first rest IH]; [by apply elem_of_nil in Hin|].
  apply elem_of_cons in Hin as [->|Hin].
  - destruct rest as [|second rest].
    + exists "", "". simpl. by rewrite string_app_empty.
    + exists "", (sep +:+ join_with sep (second :: rest)). done.
  - destruct (IH Hin) as (before & after & Heq).
    destruct rest as [|second rest]; [by apply elem_of_nil in Hin|].
    exists (first +:+ sep +:+ before), after.
    change (join_with sep (first :: second :: rest))
      with (first +:+ sep +:+ join_with sep (second :: rest)).
    by rewrite Heq, !string_app_assoc.
Qed.

(** The document of a conversation is the empty string exactly when the
    conversation has no first user message, no last assistant message, no
    topic and no file; in every case it is the parts that are not empty,
    in the order User, Assistant, Topics, Files, each under its label and
    the items of a list with commas, joined by blank lines, so that each
    part can be found in the document. *)
Theorem document_text_empty (conversation : conversation) :
  let files := c_files_read conversation ++ c_files_written conversation
               ++ c_files_edited conversation in
  let parts := text_part "User: " (c_first_user_message conversation)
               ++ text_part "Assistant: " (c_last_assistant_message conversation)
               ++ list_part "Topics: " (c_topics conversation)
               ++ list_part "Files: " files in
  (_create_document_text conversation = "" <->
     c_first_user_message conversation = ""
     /\ c_last_assistant_message conversation = ""
     /\ c_topics conversation = []
     /\ files = [])
  /\ _create_document_text conversation = join_with (nl +:+ nl) parts
  /\ Forall (fun part => is_substring part (_create_document_text conversation) = true) parts.
Proof.
  cbv zeta.
  assert (Hparts : _create_document_text conversation
            = join_with (nl +:+ nl)
                (text_part "User: " (c_first_user_message conversation)
                 ++ text_part "Assistant: " (c_last_assistant_message conversation)
                 ++ list_part "Topics: " (c_topics conversation)
                 ++ list_part "Files: " (c_files_read conversation
                      ++ c_files_written conversation ++ c_files_edited conversation))).
  { unfold _create_document_text, text_part, list_part. cbv zeta.
    destruct (String.eqb (c_first_user_message conversation) "");
    destruct (String.eqb (c_last_assistant_message conversation) "");
    destruct (c_topics conversation);
    destruct (c_files_read conversation ++ c_files_written conversation
              ++ c_files_edited conversation); reflexivity. }
  split; [|split; [exact Hparts|]].
  - rewrite Hparts. unfold text_part, list_part.
    destruct (String.eqb_spec (c_first_user_message conversation) "") as [Hu|Hu];
    destruct (String.eqb_spec (c_last_assistant_message conversation) "") as [Ha|Ha];
    destruct (c_topics conversation) as [|t ts];
    destruct (c_files_read conversation ++ c_files_written conversation
              ++ c_files_edited conversation) as [|f fs];
    (split; [|intros (? & ? & ? & ?); done]); intros H;
    apply join_with_empty in H; try done;
    simpl; repeat apply Forall_cons_2; try apply Forall_nil_2; discriminate.
  - rewrite Hparts. apply Forall_forall. intros part Hpart.
    by apply join_with_substring.
Qed.

(** *** A table of two conversations *)

Fixpoint insert_row (row : metadata) (rows : list metadata) : list metadata :=
  match rows with
  | [] => [row]
  | first :: rest =>
      if String.ltb (timestamp first) (timestamp row) then row :: rows
      else first :: insert_row row rest
  end.

Definition sort_rows (rows : list metadata) : list metadata := foldr insert_row [] rows.

Lemma sort_rows_permutes (rows : list metadata) : sort_rows rows ≡ₚ rows.
Proof.
  induction rows as [|row rows IH]; simpl; [done|].
  rewrite <- IH at 2. generalize (sort_rows rows). clear. intros l.
  induction l as [|x l IHl]; simpl; [done|].
  destruct (String.ltb _ _); [done|]. rewrite IHl. apply Permutation_swap.
Qed.

Definition add_checked (batch : list entry) (c : collection) : res collection :=
  if decide (batch <> [] /\ NoDup (entry_id <$> (c ++ batch))) then Ok (c ++ batch)
  else Raise ValueError.

Lemma add_checked_new (batch : list entry) (c : collection) :
  batch <> [] -> NoDup (entry_id <$> (c ++ batch)) -> add_checked batch c = Ok (c ++ batch).
Proof. intros H1 H2. unfold add_checked. by rewrite decide_True. Qed.

Lemma example_primary_key : NoDup (id <$> Search.example_table).
Proof. apply (bool_decide_unpack _). vm_compute. reflexivity. Qed.

(** A collection that can be read, and one that cannot. *)
Definition get_ids (c : collection) : res (list string) := Ok (entry_id <$> c).
Definition get_raises (c : collection) : res (list string) := Raise OperationalError.

Lemma get_ids_returns (ix : index) : get_returns get_ids ix.
Proof. by exists (entry_id <$> entries ix). Qed.

Definition example_run (rebuild : bool) (batch_size : Z) (ix : index) : index * res nat :=
  index_conversations Search.example_table sort_rows 999 add_checked get_ids
    rebuild batch_size ix.

Lemma index_adds_what_is_missing_witness :
  let '(ix', r) := example_run false 1 (Index [] []) in
  exists todo calls,
    r = Ok (length todo)
    /\ c_id <$> todo ≡ₚ id <$> to_index Search.example_table false (Index [] [])
    /\ entries ix' = entries (base false (Index [] [])) ++ (entry_of <$> todo)
    /\ added ix' = added (Index [] []) ++ calls
    /\ concat calls = c_id <$> todo
    /\ Forall (fun call => 0 < Z.of_nat (length call) <= 1) calls
    /\ (forall row, row ∈ Search.example_table -> id row ∈ entry_id <$> entries ix').
Proof.
  apply (index_adds_what_is_missing Search.example_table sort_rows 999 add_checked
           get_ids add_checked_new sort_rows_permutes example_primary_key
           false 1 (Index [] [])).
  - lia.
  - intros _. apply get_ids_returns.
  - intros _. constructor.
  - intros _. simpl. lia.
Defined.

Example example_index :
  example_run false 1 (Index [] [])
    = (Index (entry_of <$> (of_row <$> rev Search.example_table)) [["c2"]; ["c1"]],
       Ok 2%nat).
Proof. vm_compute. reflexivity. Qed.

Lemma index_again_adds_nothing_witness :
  let ix' := (example_run true 2 (Index [] [])).1 in
  example_run false 0 ix' = (ix', Ok 0%nat).
Proof.
  apply (index_again_adds_nothing Search.example_table sort_rows 999 add_checked
           get_ids add_checked_new sort_rows_permutes example_primary_key
           true 2 0 (Index [] [])).
  - lia.
  - discriminate.
  - discriminate.
  - discriminate.
  - apply get_ids_returns.
  - vm_compute. lia.
Defined.

(** When [collection.get] raises in the second run, every conversation is
    fetched and given to [collection.add] again. *)
Example index_again_when_get_raises :
  let ix' := (example_run true 2 (Index [] [])).1 in
  _fetch_conversations_to_index Search.example_table sort_rows 999 get_raises false ix'
    = Ok (of_row <$> sort_rows Search.example_table)
  /\ index_conversations Search.example_table sort_rows 999 add_checked get_raises
       false 2 ix' = (ix', Raise ValueError).
Proof. vm_compute. split; reflexivity. Qed.

Lemma rebuild_with_bad_batch_size_witness :
  let ix := (example_run false 1 (Index [] [])).1 in
  example_run true (-1) ix = (Index [] (added ix), Ok 0%nat).
Proof.
  apply (rebuild_with_bad_batch_size Search.example_table sort_rows 999 add_checked
           get_ids sort_rows_permutes (-1)).
  - discriminate.
  - lia.
Defined.

End Indexer.

(** ** validate-marketplace.py: what a passing run has checked *)

Module MarketplacePass.
Import Regex Py Marketplace.

(** A plugin entry that _validate_plugin_entry finds no fault with: an
    object with the five required fields, a string as source, a boolean
    as strict and an array as skills. *)
Definition plugin_ok (plugin : json) : Prop :=
  exists fields source strict skills,
    plugin = JObj fields
    /\ is_Some (assoc "name" fields)
    /\ is_Some (assoc "description" fields)
    /\ assoc "source" fields = Some (JStr source)
    /\ assoc "strict" fields = Some (JBool strict)
    /\ assoc "skills" fields = Some (JArr skills).

(** The name of a plugin entry, [None] when it has none. *)
Definition name_of (plugin : json) : option json :=
  match plugin with
  | JObj fields => assoc "name" fields
  | _ => None
  end.

Lemma errors_app_nil (v : validator) (l more : list message) :
  errors v ++ l ++ more = [] -> l = [].
Proof. intros H. apply app_eq_nil in H as [_ H]. by apply app_eq_nil in H as [? _]. Qed.

Lemma eq_hashable_str (s : string) (y : json) :
  eq_hashable (JStr s) y = true <-> y = JStr s.
Proof.
  destruct y; simpl; try (split; discriminate).
  rewrite String.eqb_eq. split; [by intros -> | by intros [= ->]].
Qed.

Lemma in_set_str (s : string) (names : list json) :
  existsb (eq_hashable (JStr s)) names = true <-> JStr s ∈ names.
Proof.
  rewrite existsb_exists. split.
  - intros (y & Hy & Heq). apply eq_hashable_str in Heq as ->. by apply list_elem_of_In.
  - intros Hin. exists (JStr s). split; [by apply list_elem_of_In | by apply eq_hashable_str].
Qed.

Lemma error_not_nil (v : validator) (text : string) (args : list json) :
  errors (error v text args) = [] -> False.
Proof. simpl. by destruct (errors v). Qed.

Lemma contains_dict (k : string) (fields : list (string * json)) :
  contains k (JObj fields) = Ok (bool_decide (is_Some (assoc k fields))).
Proof. done. Qed.

Lemma present (k : string) (fields : list (string * json)) (x : json) :
  assoc k fields = Some x -> bool_decide (is_Some (assoc k fields)) = true.
Proof. intros ->. apply bool_decide_eq_true_2. by eexists. Qed.

Lemma absent (k : string) (fields : list (string * json)) :
  assoc k fields = None -> bool_decide (is_Some (assoc k fields)) = false.
Proof. intros ->. apply bool_decide_eq_false_2. by intros [? ?]. Qed.

Lemma plugin_entry_no_errors (plugin : json) (idx : nat) (v v' : validator)
    (names names' : list json) :
  _validate_plugin_entry plugin idx (v, names) = Ok (v', names') ->
  errors v' = [] ->
  plugin_ok plugin
  /\ exists name, name_of plugin = Some name
       /\ existsb (eq_hashable name) names = false
       /\ names' = names ++ [name].
Proof.
  unfold _validate_plugin_entry. intros H Hnil.
  destruct plugin as [| | | | | |fields]; try done. cbn [get_method bind] in H.
  destruct (for_each _ _ v) as [v1|] eqn:E1; [|done]. cbn [bind contains] in H.
  match type of H with bind ?r _ = _ => destruct r as [[v2 names2]|] eqn:E2; [|done] end.
  cbn [bind contains] in H.
  match type of H with bind ?r _ = _ => destruct r as [v3|] eqn:E3; [|done] end.
  cbn [bind contains] in H.
  match type of H with bind ?r _ = _ => destruct r as [v4|] eqn:E4; [|done] end.
  cbn [bind contains] in H.
  match type of H with bind ?r _ = _ => destruct r as [v5|] eqn:E5; [|done] end.
  cbn [bind] in H. injection H as <- <-.
  (* the skills *)
  assert (S5 : errors v4 = [] /\
            (is_Some (assoc "skills" fields) ->
             exists skills, assoc "skills" fields = Some (JArr skills))).
  { destruct (assoc "skills" fields) as [skills|] eqn:Es.
    - rewrite bool_decide_eq_true_2 in E5 by (by eexists). cbn [subscript bind] in E5. rewrite Es in E5.
      cbn [bind] in E5. injection E5 as <-.
      destruct skills as [| | | | |[|skill rest]|]; try (by apply error_not_nil in Hnil);
        split; try done; intros _; by eexists.
    - rewrite bool_decide_eq_false_2 in E5 by (by intros [? ?]). injection E5 as <-. split; [done|]. by intros [? ?]. }
  destruct S5 as [Hnil4 Hskills].
  (* strict *)
  assert (S4 : errors v3 = [] /\
            (is_Some (assoc "strict" fields) ->
             exists b, assoc "strict" fields = Some (JBool b))).
  { destruct (assoc "strict" fields) as [strict|] eqn:Es.
    - rewrite bool_decide_eq_true_2 in E4 by (by eexists). cbn [subscript bind] in E4. rewrite Es in E4.
      cbn [bind] in E4. injection E4 as <-.
      destruct strict; try (by apply error_not_nil in Hnil4).
      split; [done|]. intros _. by eexists.
    - rewrite bool_decide_eq_false_2 in E4 by (by intros [? ?]). injection E4 as <-. split; [done|]. by intros [? ?]. }
  destruct S4 as [Hnil3 Hstrict].
  (* the source *)
  assert (S3 : errors v2 = [] /\
            (is_Some (assoc "source" fields) ->
             exists src, assoc "source" fields = Some (JStr src))).
  { destruct (assoc "source" fields) as [source|] eqn:Es.
    - rewrite bool_decide_eq_true_2 in E3 by (by eexists). cbn [subscript bind] in E3. rewrite Es in E3.
      cbn [bind] in E3. injection E3 as <-.
      destruct source; try (by apply error_not_nil in Hnil3).
      split; [|intros _; by eexists].
      by destruct (String.prefix "./" s).
    - rewrite bool_decide_eq_false_2 in E3 by (by intros [? ?]). injection E3 as <-. split; [done|]. by intros [? ?]. }
  destruct S3 as [Hnil2 Hsource].
  (* the name *)
  assert (S2 : errors v1 = [] /\
            (forall name, assoc "name" fields = Some name ->
               existsb (eq_hashable name) names = false /\ names2 = names ++ [name])).
  { destruct (assoc "name" fields) as [name|] eqn:Es.
    - rewrite bool_decide_eq_true_2 in E2 by (by eexists). cbn [subscript bind] in E2. rewrite Es in E2.
      cbn [bind] in E2. unfold in_set, set_add in E2.
      destruct name; try done; cbn [bind] in E2;
        match type of E2 with context [existsb ?f ?l] => destruct (existsb f l) eqn:Ed end;
        injection E2 as <- <-; try (by apply error_not_nil in Hnil2);
        (split; [done|]); by intros ? [= <-].
    - rewrite bool_decide_eq_false_2 in E2 by (by intros [? ?]). injection E2 as <- <-. split; [done|]. done. }
  destruct S2 as [Hnil1 Hname].
  (* the required fields *)
  assert (S1 : is_Some (assoc "name" fields) /\ is_Some (assoc "description" fields)
               /\ is_Some (assoc "source" fields) /\ is_Some (assoc "strict" fields)
               /\ is_Some (assoc "skills" fields)).
  { revert E1 Hnil1. clear. cbn [for_each bind]. rewrite !contains_dict. cbn [bind].
    intros E1 Hnil1.
    repeat match type of E1 with
      | context [bool_decide (is_Some ?x)] =>
          let E := fresh "E" in
          destruct (bool_decide (is_Some x)) eqn:E;
          [apply bool_decide_eq_true in E|]
      end; cbn [bind] in E1; injection E1 as <-;
      try (by repeat split);
      exfalso; simpl in Hnil1; repeat (apply app_eq_nil in Hnil1 as [Hnil1 ?]);
      discriminate. }
  destruct S1 as (N & D & So & St & Sk).
  destruct (Hsource So) as [src Hsrc], (Hstrict St) as [b Hb], (Hskills Sk) as [skills Hsk].
  destruct N as [name Hn]. destruct (Hname name Hn) as [Hdup Hnames].
  split.
  - exists fields, src, b, skills. rewrite Hn. repeat split; try done; by eexists.
  - exists name. simpl. done.
Qed.

(** The names are new one after the other: none is equal to a name
    before it. *)
Fixpoint fresh_names (names : list json) (ns : list json) : Prop :=
  match ns with
  | [] => True
  | n :: rest => existsb (eq_hashable n) names = false /\ fresh_names (names ++ [n]) rest
  end.

Lemma each_plugin_no_errors (plugins : list json) (idx : nat) (v v' : validator)
    (names names' : list json) :
  each_plugin plugins idx (v, names) = Ok (v', names') ->
  errors v' = [] ->
  Forall plugin_ok plugins
  /\ exists ns, Forall2 (fun p n => name_of p = Some n) plugins ns
       /\ names' = names ++ ns /\ fresh_names names ns.
Proof.
  revert idx v names. induction plugins as [|plugin rest IH]; intros idx v names H Hnil.
  - injection H as <- <-. split; [constructor|]. exists []. by rewrite app_nil_r.
  - cbn [each_plugin] in H.
    destruct (_validate_plugin_entry plugin idx (v, names)) as [[v1 names1]|] eqn:E;
      cbn [bind] in H; [|done].
    pose proof (each_plugin_keeps _ _ _ _ H) as K. simpl in K.
    pose proof (keeps_no_errors _ _ K Hnil) as Hnil1.
    destruct (plugin_entry_no_errors _ _ _ _ _ _ E Hnil1) as (Hok & name & Hname & Hnew & ->).
    destruct (IH _ _ _ H Hnil) as (Hrest & ns & Hns & -> & Hfresh).
    split; [by constructor|]. exists (name :: ns).
    split; [by constructor|]. split; [by rewrite <- app_assoc | by split].
Qed.

Lemma fresh_names_not_in (names ns : list json) (k : nat) (s : string) :
  JStr s ∈ names -> fresh_names names ns -> ns !! k = Some (JStr s) -> False.
Proof.
  revert names k. induction ns as [|n rest IH]; intros names k Hin Hfresh Hk; [done|].
  destruct Hfresh as [Hn Hfresh]. destruct k as [|k]; simpl in Hk.
  - injection Hk as ->. apply in_set_str in Hin. congruence.
  - eapply (IH (names ++ [n]) k); [|done..]. apply elem_of_app. by left.
Qed.

(** In a list of names that are new one after the other no string is the
    name at two places. *)
Lemma fresh_names_strings (names ns : list json) (i j : nat) (s : string) :
  fresh_names names ns -> ns !! i = Some (JStr s) -> ns !! j = Some (JStr s) -> i = j.
Proof.
  revert names i j. induction ns as [|n rest IH]; intros names i j Hfresh Hi Hj; [done|].
  destruct Hfresh as [_ Hfresh].
  destruct i as [|i], j as [|j]; simpl in *.
  - done.
  - injection Hi as ->. exfalso.
    eapply (fresh_names_not_in (names ++ [JStr s]) rest j s); [|done..].
    apply elem_of_app. right. left.
  - injection Hj as ->. exfalso.
    eapply (fresh_names_not_in (names ++ [JStr s]) rest i s); [|done..].
    apply elem_of_app. right. left.
  - f_equal. by eapply IH.
Qed.

(** *** A loop that ends without an error *)

Lemma for_each_no_errors {A S : Type} (proj : S -> validator) (f : S -> A -> res S)
    (P : A -> Prop) (l : list A) (s s' : S) :
  (forall s x s', f s x = Ok s' -> keeps (proj s) (proj s')) ->
  (forall s x s', f s x = Ok s' -> errors (proj s') = [] -> P x) ->
  for_each f l s = Ok s' -> errors (proj s') = [] ->
  errors (proj s) = [] /\ Forall P l.
Proof.
  intros Hkeeps HP. revert s. induction l as [|x l IH]; simpl; intros s H Hnil.
  - injection H as ->. split; [done | constructor].
  - destruct (f s x) as [s1|] eqn:E; [|done]. cbn [bind] in H.
    destruct (IH _ H Hnil) as [Hnil1 Hl].
    split; [|constructor; [by eapply HP | done]].
    eapply keeps_no_errors; [by eapply Hkeeps | done].
Qed.

(** The skills of a plugin entry. *)
Definition skills_of (plugin : json) : list json :=
  match plugin with
  | JObj fields =>
      match assoc "skills" fields with
      | Some (JArr skills) => skills
      | _ => []
      end
  | _ => []
  end.

Lemma name_and_skills_ok (plugin : json) :
  plugin_ok plugin ->
  exists name, name_and_skills plugin = Ok (Some (name, JArr (skills_of plugin))).
Proof.
  intros (fields & source & strict & skills & -> & [name Hn] & _ & _ & _ & Hs).
  exists name. unfold name_and_skills. cbn [contains bind].
  rewrite !bool_decide_eq_true_2 by (rewrite ?Hn, ?Hs; by eexists).
  cbn [andb negb subscript bind]. rewrite Hn, Hs. simpl. by rewrite Hs.
Qed.

(** The directory that _validate_skill_files looks at for a skill path,
    lines 287-290. *)
Definition skill_dir (e : env) (skill_path : string) : string :=
  if String.prefix "./" skill_path
  then path_join (repo_root e) (lstrip_dot_slash skill_path)
  else path_join (repo_root e) skill_path.

(** What lines 292-316 ask of a skill path: the directory exists and
    holds a SKILL.md that can be read and is not blank. *)
Definition skill_checked (e : env) (skill_path : string) : Prop :=
  path_exists e (skill_dir e skill_path) = true
  /\ path_is_dir e (skill_dir e skill_path) = true
  /\ path_exists e (path_join (skill_dir e skill_path) "SKILL.md") = true
  /\ exists content,
       read_text e (path_join (skill_dir e skill_path) "SKILL.md") = Ok content
       /\ is_blank content = false.

Lemma check_skill_dir_no_errors (e : env) (plugin_name : json) (skill_path : string)
    (v : validator) :
  errors (check_skill_dir e plugin_name skill_path v) = [] ->
  skill_checked e skill_path.
Proof.
  unfold check_skill_dir, skill_checked. fold (skill_dir e skill_path).
  destruct (path_exists e (skill_dir e skill_path)); simpl;
    [|by intros ?%error_not_nil].
  destruct (path_is_dir e (skill_dir e skill_path)); simpl;
    [|by intros ?%error_not_nil].
  destruct (path_exists e (path_join (skill_dir e skill_path) "SKILL.md")); simpl;
    [|by intros ?%error_not_nil].
  destruct (read_text e _) as [content|ex] eqn:Hread.
  - destruct (is_blank content) eqn:Hblank.
    + destruct (path_exists e _); simpl; by intros ?%error_not_nil.
    + intros _. repeat split. by exists content.
  - destruct (path_exists e _); simpl; by intros ?%error_not_nil.
Qed.

Lemma skill_files_fold (e : env) (plugin_name : json) (skills : list json) (v : validator) :
  errors (fold_left (fun v skill_path =>
            match skill_path with
            | JStr path => check_skill_dir e plugin_name path v
            | _ => v
            end) skills v) = [] ->
  errors v = []
  /\ Forall (fun skill_path => forall path, skill_path = JStr path -> skill_checked e path)
       skills.
Proof.
  revert v. induction skills as [|skill_path rest IH]; simpl; intros v Hnil.
  - split; [done | constructor].
  - apply IH in Hnil as [Hnil Hrest]. destruct skill_path;
      try (split; [done|]; constructor; [by intros ? [=] | done]).
    split.
    + eapply keeps_no_errors; [apply check_skill_dir_keeps | done].
    + constructor; [|done]. intros path [= <-]. by eapply check_skill_dir_no_errors.
Qed.

(** *** A run that ends with status 0 *)

Lemma passing_run (e : env) :
  main e = 0 ->
  exists m v1 v2 v3 v4 v5 v6 v7,
    marketplace_file e = Some (Ok m)
    /\ _validate_marketplace_structure m init = Ok v1 /\ errors v1 = []
    /\ _validate_owner m v1 = Ok v2 /\ errors v2 = []
    /\ _validate_metadata e m v2 = Ok v3 /\ errors v3 = []
    /\ _validate_plugins m v3 = Ok v4 /\ errors v4 = []
    /\ _validate_source_isolation m v4 = Ok v5 /\ errors v5 = []
    /\ _validate_skill_references m v5 = Ok v6 /\ errors v6 = []
    /\ _validate_skill_files e m v6 = Ok v7 /\ errors v7 = [].
Proof.
  intros (_ & m & v & Hm & Hrun & Hv & _)%status_0.
  unfold run_checks in Hrun.
  destruct (_validate_marketplace_structure m init) as [v1|] eqn:E1; [|done].
  cbn [bind] in Hrun.
  destruct (_validate_owner m v1) as [v2|] eqn:E2; [|done]. cbn [bind] in Hrun.
  destruct (_validate_metadata e m v2) as [v3|] eqn:E3; [|done]. cbn [bind] in Hrun.
  destruct (_validate_plugins m v3) as [v4|] eqn:E4; [|done]. cbn [bind] in Hrun.
  destruct (_validate_source_isolation m v4) as [v5|] eqn:E5; [|done]. cbn [bind] in Hrun.
  destruct (_validate_skill_references m v5) as [v6|] eqn:E6; [|done]. cbn [bind] in Hrun.
  pose proof (keeps_no_errors _ _ (skill_files_keeps _ _ _ _ Hrun) Hv) as H6.
  pose proof (keeps_no_errors _ _ (skill_references_keeps _ _ _ E6) H6) as H5.
  pose proof (keeps_no_errors _ _ (source_isolation_keeps _ _ _ E5) H5) as H4.
  pose proof (keeps_no_errors _ _ (plugins_keeps _ _ _ E4) H4) as H3.
  pose proof (keeps_no_errors _ _ (metadata_keeps _ _ _ _ E3) H3) as H2.
  pose proof (keeps_no_errors _ _ (owner_keeps _ _ _ E2) H2) as H1.
  exists m, v1, v2, v3, v4, v5, v6, v. repeat split; done.
Qed.

(** The top of a marketplace that passes: an object with a name, an owner
    that is an object with a name, a metadata object and an array of
    plugins. *)
Lemma passing_top (e : env) (m : json) (v1 v2 v3 v4 : validator) :
  _validate_marketplace_structure m init = Ok v1 -> errors v1 = [] ->
  _validate_owner m v1 = Ok v2 -> errors v2 = [] ->
  _validate_metadata e m v2 = Ok v3 -> errors v3 = [] ->
  _validate_plugins m v3 = Ok v4 -> errors v4 = [] ->
  exists fields owner metadata plugins,
    m = JObj fields
    /\ is_Some (assoc "name" fields)
    /\ assoc "owner" fields = Some (JObj owner) /\ is_Some (assoc "name" owner)
    /\ assoc "metadata" fields = Some (JObj metadata)
    /\ assoc "plugins" fields = Some (JArr plugins)
    /\ Forall plugin_ok plugins
    /\ exists ns, Forall2 (fun p n => name_of p = Some n) plugins ns /\ fresh_names [] ns.
Proof.
  intros E1 H1 E2 H2 E3 H3 E4 H4.
  destruct (structure_no_errors _ _ E1 H1) as [Howner _].
  destruct (owner_dict _ _ _ Howner E2) as [fields ->].
  exists fields.
  (* the four fields *)
  assert (F : is_Some (assoc "name" fields) /\ is_Some (assoc "owner" fields)
              /\ is_Some (assoc "metadata" fields) /\ is_Some (assoc "plugins" fields)).
  { revert E1 H1. clear. unfold _validate_marketplace_structure.
    cbn [for_each bind contains]. intros E1 H1.
    repeat match type of E1 with
      | context [bool_decide (is_Some ?x)] =>
          let E := fresh "E" in
          destruct (bool_decide (is_Some x)) eqn:E;
          [apply bool_decide_eq_true in E|]
      end; cbn [bind] in E1; injection E1 as <-;
      try (by repeat split);
      exfalso; simpl in H1; repeat (apply app_eq_nil in H1 as [H1 ?]); discriminate. }
  destruct F as (Fname & [owner Fowner] & [metadata Fmetadata] & [plugins Fplugins]).
  (* the owner *)
  assert (O : exists fields', owner = JObj fields' /\ is_Some (assoc "name" fields')).
  { revert E2 H2. clear - Fowner. unfold _validate_owner. cbn [contains bind subscript].
    rewrite bool_decide_eq_true_2 by (by eexists). rewrite Fowner. cbn [negb bind].
    destruct owner as [| | | | | |fields']; cbn [is_dict negb];
      try (intros [= <-]; by intros ?%error_not_nil).
    cbn [contains bind]. intros E2 H2. exists fields'. split; [done|].
    destruct (assoc "name" fields') as [name|]; [by eexists|].
    rewrite (bool_decide_eq_false_2 (is_Some None)) in E2 by (by intros [? ?]).
    exfalso. destruct (bool_decide _); injection E2 as <-; simpl in H2;
      by destruct (errors v1). }
  destruct O as (ofields & -> & Oname).
  (* the metadata *)
  assert (M : exists fields', metadata = JObj fields').
  { revert E3 H3. clear - Fmetadata. unfold _validate_metadata. cbn [contains bind subscript].
    rewrite bool_decide_eq_true_2 by (by eexists). rewrite Fmetadata. cbn [negb bind].
    destruct metadata as [| | | | | |fields']; cbn [is_dict negb];
      try (intros [= <-]; by intros ?%error_not_nil).
    intros _ _. by eexists. }
  destruct M as (mfields & ->).
  (* the plugins *)
  assert (P : exists items, plugins = JArr items /\ Forall plugin_ok items
              /\ exists ns, Forall2 (fun p n => name_of p = Some n) items ns
                            /\ fresh_names [] ns).
  { revert E4 H4. clear - Fplugins. unfold _validate_plugins. cbn [contains bind subscript].
    rewrite bool_decide_eq_true_2 by (by eexists). rewrite Fplugins. cbn [negb bind].
    destruct plugins as [| | | | |[|p items]|];
      try (intros [= <-]; by intros ?%error_not_nil).
    - intros _ _. exists []. split; [done|]. split; [constructor|]. exists []. split; constructor.
    - intros E4 H4.
      destruct (each_plugin (p :: items) 0 (v3, [])) as [[v' names']|] eqn:E; [|done].
      cbn [bind] in E4. injection E4 as <-. simpl in H4.
      destruct (each_plugin_no_errors _ _ _ _ _ _ E H4) as (Hok & ns & Hns & _ & Hfresh).
      exists (p :: items). split; [done|]. split; [done|]. by exists ns. }
  destruct P as (items & -> & Hok & ns & Hns & Hfresh).
  exists ofields, mfields, items. repeat split; try done. by exists ns.
Qed.

(** *** The skills of a passing marketplace *)

(** The body of the loop of _validate_skill_references on one skill. *)
Lemma skill_reference_step (plugin_name skill_path : json) (st st' : validator * list string) :
  (let '(v, all_skill_paths) := st in
   match skill_path with
   | JStr path =>
       let v := if String.prefix "./" path then v
                else warning v "Skill path should start with './'"
                       [plugin_name; skill_path] in
       let seen := existsb (String.eqb path) all_skill_paths in
       let v := if seen
                then warning v "Skill is referenced in multiple plugins" [skill_path]
                else v in
       Ok (v, if seen then all_skill_paths else all_skill_paths ++ [path])
   | _ => Ok (error v "Skill path must be a string" [plugin_name; skill_path],
              all_skill_paths)
   end) = Ok st' ->
  keeps st.1 st'.1 /\ (errors st'.1 = [] -> is_string skill_path = true).
Proof.
  destruct st as [v paths]. destruct skill_path; intros [= <-]; simpl;
    (split; [solve_keeps | try done; by intros ?%error_not_nil]).
Qed.

Lemma skill_references_no_errors (fields : list (string * json)) (plugins : list json)
    (v v' : validator) :
  assoc "plugins" fields = Some (JArr plugins) ->
  Forall plugin_ok plugins ->
  _validate_skill_references (JObj fields) v = Ok v' -> errors v' = [] ->
  Forall (fun p => Forall (fun skill_path => is_string skill_path = true) (skills_of p))
    plugins.
Proof.
  intros Hplugins Hok. unfold _validate_skill_references. cbn [contains bind subscript].
  rewrite bool_decide_eq_true_2 by (rewrite Hplugins; by eexists).
  rewrite Hplugins. cbn [negb bind iterate].
  destruct (for_each _ plugins (v, [])) as [st|] eqn:E; [|done]. cbn [bind].
  intros [= <-] Hnil.
  eapply (for_each_no_errors fst _
            (fun p => plugin_ok p ->
               Forall (fun skill_path => is_string skill_path = true) (skills_of p)))
    in E as [_ HP]; [| | |done].
  - apply Forall_forall. intros p Hp.
    rewrite Forall_forall in HP, Hok. by apply HP, Hok.
  - intros st0 plugin st1 Hs.
    destruct (name_and_skills plugin) as [[[plugin_name skills]|]|]; cbn [bind] in Hs;
      try done; [|injection Hs as ->; apply keeps_refl].
    destruct skills; try (injection Hs as ->; apply keeps_refl).
    revert Hs. apply (for_each_keeps fst). intros st2 skill_path st3 Hs.
    by apply skill_reference_step in Hs as [? _].
  - intros st0 plugin st1 Hs Hnil1 Hpok.
    destruct (name_and_skills_ok plugin Hpok) as [plugin_name Hns].
    rewrite Hns in Hs. cbn [bind] in Hs.
    eapply (for_each_no_errors fst _ (fun skill_path => is_string skill_path = true))
      in Hs as [_ HP]; [done| | |done].
    + intros st2 skill_path st3 Hs'. by apply skill_reference_step in Hs' as [? _].
    + intros st2 skill_path st3 Hs' Hnil3. by apply skill_reference_step in Hs' as [_ ?]; auto.
Qed.

Lemma skill_files_no_errors (e : env) (fields : list (string * json)) (plugins : list json)
    (v v' : validator) :
  assoc "plugins" fields = Some (JArr plugins) ->
  Forall plugin_ok plugins ->
  _validate_skill_files e (JObj fields) v = Ok v' -> errors v' = [] ->
  Forall (fun p => Forall (fun skill_path =>
                     forall path, skill_path = JStr path -> skill_checked e path)
                   (skills_of p)) plugins.
Proof.
  intros Hplugins Hok. unfold _validate_skill_files. cbn [contains bind subscript].
  rewrite bool_decide_eq_true_2 by (rewrite Hplugins; by eexists).
  rewrite Hplugins. cbn [negb bind iterate].
  intros E Hnil.
  eapply (for_each_no_errors id _
            (fun p => plugin_ok p ->
               Forall (fun skill_path =>
                         forall path, skill_path = JStr path -> skill_checked e path)
                      (skills_of p)))
    in E as [_ HP]; [| | |done].
  - apply Forall_forall. intros p Hp.
    rewrite Forall_forall in HP, Hok. by apply HP, Hok.
  - intros v0 plugin v1 Hs. unfold id.
    destruct (name_and_skills plugin) as [[[plugin_name skills]|]|]; cbn [bind] in Hs;
      try done; [|injection Hs as ->; apply keeps_refl].
    destruct skills as [| | | | |paths|]; try (injection Hs as ->; apply keeps_refl).
    injection Hs as <-. clear.
    revert v0. induction paths as [|skill_path rest IH]; intros v0; simpl.
    + apply keeps_refl.
    + eapply keeps_trans; [|apply IH].
      destruct skill_path; try apply keeps_refl. apply check_skill_dir_keeps.
  - intros v0 plugin v1 Hs Hnil1 Hpok. unfold id in *.
    destruct (name_and_skills_ok plugin Hpok) as [plugin_name Hns].
    rewrite Hns in Hs. cbn [bind] in Hs. injection Hs as <-.
    by apply skill_files_fold in Hnil1 as [_ ?].
Qed.

(** *** The sources of a passing marketplace *)

(** [source in ['./', '.', '']] *)
Definition root_source (plugin : json) : bool :=
  match plugin with
  | JObj fields =>
      match assoc "source" fields with
      | Some source => existsb (is_str source) ["./"; "."; ""]
      | None => false
      end
  | _ => false
  end.

Lemma source_isolation_loop (plugins : list json) (acc acc' : list json * list json) :
  Forall plugin_ok plugins ->
  for_each (fun (acc : list json * list json) plugin =>
      has_name <- contains "name" plugin ;;
      has_source <- (if has_name then contains "source" plugin else Ok false) ;;
      if negb (has_name && has_source) then Ok acc else
      plugin_name <- subscript plugin "name" ;;
      source <- subscript plugin "source" ;;
      skills <- get_method plugin "skills" (JArr []) ;;
      let has_skills := match skills with JArr (_ :: _) => true | _ => false end in
      Ok (if existsb (is_str source) ["./"; "."; ""] then
            if has_skills then (acc.1 ++ [plugin_name], acc.2)
            else (acc.1, acc.2 ++ [plugin_name])
          else acc))
    plugins acc = Ok acc' ->
  acc'.1 = [] ->
  acc.1 = [] /\ Forall (fun p => root_source p = true -> skills_of p = []) plugins.
Proof.
  intros Hok. revert acc. induction Hok as [|p plugins Hp Hok IH]; intros acc H Hnil.
  - injection H as ->. split; [done | constructor].
  - cbn [for_each] in H.
    destruct Hp as (fields & source & strict & skills & -> & [name Hn] & _ & Hso & _ & Hsk).
    cbn [contains bind subscript get_method] in H.
    rewrite !bool_decide_eq_true_2 in H by (rewrite ?Hn, ?Hso; by eexists).
    cbn [andb negb bind] in H. rewrite Hn, Hso, Hsk in H. cbn [bind default] in H.
    apply IH in H as [Hacc Hrest]; [|done].
    assert (Hp : acc.1 = []
              /\ (root_source (JObj fields) = true -> skills_of (JObj fields) = [])).
    { unfold root_source, skills_of. rewrite Hso, Hsk.
      destruct (existsb (is_str (JStr source)) ["./"; "."; ""]); [|done].
      destruct skills as [|skill rest]; simpl in Hacc; [done|]. by destruct (acc.1). }
    destruct Hp as [Hp1 Hp2]. split; [done | by constructor].
Qed.

Lemma source_isolation_no_errors (fields : list (string * json)) (plugins : list json)
    (v v' : validator) :
  assoc "plugins" fields = Some (JArr plugins) ->
  Forall plugin_ok plugins ->
  _validate_source_isolation (JObj fields) v = Ok v' -> errors v' = [] ->
  Forall (fun p => root_source p = true -> skills_of p = []) plugins.
Proof.
  intros Hplugins Hok. unfold _validate_source_isolation. cbn [contains bind subscript].
  rewrite bool_decide_eq_true_2 by (rewrite Hplugins; by eexists).
  rewrite Hplugins. cbn [negb bind].
  destruct (for_each _ plugins ([], [])) as [[with_skills hooks_only]|] eqn:E; [|done].
  cbn [bind]. intros H Hnil.
  destruct with_skills as [|n ns].
  { by apply source_isolation_loop in E as [_ ?]. }
  exfalso. destruct (join (n :: ns)) as [names|]; cbn [bind] in H; [|done].
  destruct hooks_only as [|h hs]; [injection H as <-; by apply error_not_nil in Hnil|].
  destruct (join (h :: hs)) as [names'|]; cbn [bind] in H; [|done].
  injection H as <-. by apply error_not_nil in Hnil.
Qed.

(** *** What status 0 says about marketplace.json *)

(** When the validator ends with status 0, marketplace.json is an object
    with a name, an owner that is an object with a name, a metadata object
    and an array of plugins; every plugin is an object with the fields
    name, description, source, strict and skills, its source a string, its
    strict a boolean and its skills an array. *)
Theorem passing_marketplace_is_well_formed (e : env) :
  main e = 0 ->
  exists fields owner metadata plugins,
    marketplace_file e = Some (Ok (JObj fields))
    /\ is_Some (assoc "name" fields)
    /\ assoc "owner" fields = Some (JObj owner) /\ is_Some (assoc "name" owner)
    /\ assoc "metadata" fields = Some (JObj metadata)
    /\ assoc "plugins" fields = Some (JArr plugins)
    /\ Forall plugin_ok plugins.
Proof.
  intros (m & v1 & v2 & v3 & v4 & v5 & v6 & v7 & Hm & E1 & H1 & E2 & H2 & E3 & H3
          & E4 & H4 & _)%passing_run.
  destruct (passing_top e m v1 v2 v3 v4 E1 H1 E2 H2 E3 H3 E4 H4)
    as (fields & owner & metadata & plugins & -> & Hname & Howner & Honame & Hmeta
        & Hplugins & Hok & _).
  by exists fields, owner, metadata, plugins.
Qed.

(** When the validator ends with status 0, no two plugins have the same
    string as name, and no plugin with a skill has the root of the
    repository ('./', '.' or '') as source. *)
Theorem passing_marketplace_names_and_sources (e : env) :
  main e = 0 ->
  exists fields plugins,
    marketplace_file e = Some (Ok (JObj fields))
    /\ assoc "plugins" fields = Some (JArr plugins)
    /\ (forall i j p q s,
          plugins !! i = Some p -> plugins !! j = Some q ->
          name_of p = Some (JStr s) -> name_of q = Some (JStr s) -> i = j)
    /\ Forall (fun p => root_source p = true -> skills_of p = []) plugins.
Proof.
  intros (m & v1 & v2 & v3 & v4 & v5 & v6 & v7 & Hm & E1 & H1 & E2 & H2 & E3 & H3
          & E4 & H4 & E5 & H5 & _)%passing_run.
  destruct (passing_top e m v1 v2 v3 v4 E1 H1 E2 H2 E3 H3 E4 H4)
    as (fields & owner & metadata & plugins & -> & _ & _ & _ & _
        & Hplugins & Hok & ns & Hns & Hfresh).
  exists fields, plugins. split; [done|]. split; [done|]. split.
  - intros i j p q s Hi Hj Hp Hq.
    destruct (Forall2_lookup_l _ _ _ _ _ Hns Hi) as (n & Hni & Hn).
    destruct (Forall2_lookup_l _ _ _ _ _ Hns Hj) as (n' & Hnj & Hn').
    rewrite Hp in Hn. rewrite Hq in Hn'. injection Hn as <-. injection Hn' as <-.
    by eapply fresh_names_strings.
  - by eapply source_isolation_no_errors.
Qed.

(** When the validator ends with status 0, every skill of every plugin is
    a string, and the directory it names below the root of the repository
    exists, is a directory and holds a SKILL.md that can be read and is
    not blank. *)
Theorem passing_marketplace_skills (e : env) :
  main e = 0 ->
  exists fields plugins,
    marketplace_file e = Some (Ok (JObj fields))
    /\ assoc "plugins" fields = Some (JArr plugins)
    /\ Forall (fun p => Forall (fun skill_path =>
                          exists path, skill_path = JStr path /\ skill_checked e path)
                        (skills_of p)) plugins.
Proof.
  intros (m & v1 & v2 & v3 & v4 & v5 & v6 & v7 & Hm & E1 & H1 & E2 & H2 & E3 & H3
          & E4 & H4 & E5 & H5 & E6 & H6 & E7 & H7)%passing_run.
  destruct (passing_top e m v1 v2 v3 v4 E1 H1 E2 H2 E3 H3 E4 H4)
    as (fields & owner & metadata & plugins & -> & _ & _ & _ & _
        & Hplugins & Hok & _).
  exists fields, plugins. split; [done|]. split; [done|].
  pose proof (skill_references_no_errors _ _ _ _ Hplugins Hok E6 H6) as Hstr.
  pose proof (skill_files_no_errors _ _ _ _ _ Hplugins Hok E7 H7) as Hdir.
  rewrite Forall_forall in Hstr, Hdir. apply Forall_forall. intros p Hp.
  specialize (Hstr p Hp). specialize (Hdir p Hp).
  rewrite Forall_forall in Hstr, Hdir. apply Forall_forall. intros skill_path Hs.
  specialize (Hstr _ Hs). specialize (Hdir _ Hs).
  destruct skill_path; try done. exists s. split; [done|]. by apply Hdir.
Qed.

Lemma passing_marketplace_is_well_formed_witness :
  exists fields owner metadata plugins,
    marketplace_file (example_env true) = Some (Ok (JObj fields))
    /\ is_Some (assoc "name" fields)
    /\ assoc "owner" fields = Some (JObj owner) /\ is_Some (assoc "name" owner)
    /\ assoc "metadata" fields = Some (JObj metadata)
    /\ assoc "plugins" fields = Some (JArr plugins)
    /\ Forall plugin_ok plugins.
Proof.
  apply (passing_marketplace_is_well_formed (example_env true)).
  vm_compute. reflexivity.
Defined.

Lemma passing_marketplace_names_and_sources_witness :
  exists fields plugins,
    marketplace_file (example_env true) = Some (Ok (JObj fields))
    /\ assoc "plugins" fields = Some (JArr plugins)
    /\ (forall i j p q s,
          plugins !! i = Some p -> plugins !! j = Some q ->
          name_of p = Some (JStr s) -> name_of q = Some (JStr s) -> i = j)
    /\ Forall (fun p => root_source p = true -> skills_of p = []) plugins.
Proof.
  apply (passing_marketplace_names_and_sources (example_env true)).
  vm_compute. reflexivity.
Defined.

Lemma passing_marketplace_skills_witness :
  exists fields plugins,
    marketplace_file (example_env true) = Some (Ok (JObj fields))
    /\ assoc "plugins" fields = Some (JArr plugins)
    /\ Forall (fun p => Forall (fun skill_path =>
                          exists path, skill_path = JStr path
                                       /\ skill_checked (example_env true) path)
                        (skills_of p)) plugins.
Proof.
  apply (passing_marketplace_skills (example_env true)).
  vm_compute. reflexivity.
Defined.

(** *** A version that is not a string *)

(** [re.match] raises for a version that is not a string, and nothing
    catches the exception: the validator ends with a traceback and status
    1, whatever the rest of marketplace.json. The exception that leaves
    validate is the TypeError of [re.match], unless the first line of the
    run could not be printed: then it is the exception of that [print]. *)
Theorem version_not_a_string_crashes (e : env) (fields metadata : list (string * json))
    (version : json) :
  marketplace_file e = Some (Ok (JObj fields)) ->
  assoc "metadata" fields = Some (JObj metadata) ->
  assoc "version" metadata = Some version ->
  is_string version = false ->
  validate e = Crashed (match print e banner [] with
                        | Ok _ => TypeError
                        | Raise ex => ex
                        end)
  /\ main e = 1.
Proof.
  intros Hm Hmeta Hversion Hstr.
  assert (Hval : validate e = Crashed (match print e banner [] with
                                       | Ok _ => TypeError
                                       | Raise ex => ex
                                       end)); [|by unfold main; rewrite Hval].
  unfold validate, run_checks. destruct (print e banner []); [|done]. rewrite Hm.
  unfold _validate_marketplace_structure. cbn [for_each bind contains].
  set (v1 := if bool_decide (is_Some (assoc "plugins" fields)) then _ else _).
  clearbody v1.
  assert (Howner : exists v2, _validate_owner (JObj fields) v1 = Ok v2).
  { unfold _validate_owner. cbn [contains bind subscript].
    destruct (assoc "owner" fields) as [owner|].
    - rewrite bool_decide_eq_true_2 by (by eexists). cbn [negb bind].
      destruct owner; cbn [is_dict negb contains bind]; by eexists.
    - rewrite bool_decide_eq_false_2 by (by intros [? ?]). by eexists. }
  destruct Howner as [v2 ->]. cbn [bind].
  unfold _validate_metadata. cbn [contains bind subscript].
  rewrite (bool_decide_eq_true_2 (is_Some (assoc "metadata" fields)))
    by (rewrite Hmeta; by eexists).
  rewrite Hmeta. cbn [negb is_dict bind contains subscript].
  rewrite (bool_decide_eq_true_2 (is_Some (assoc "version" metadata)))
    by (rewrite Hversion; by eexists).
  rewrite Hversion. cbn [negb bind].
  by destruct version.
Qed.

Lemma version_not_a_string_crashes_witness :
  let fields := [("name", JStr "claudex"); ("metadata", JObj [("version", JInt 2)])] in
  let e := machine (JObj fields) false in
  validate e = Crashed TypeError /\ main e = 1.
Proof.
  intros fields e.
  apply (version_not_a_string_crashes e fields [("version", JInt 2)] (JInt 2));
    reflexivity.
Defined.

(** *** A version with a newline at its end *)

Lemma newline_ascii : (code_point newline < 128)%N.
Proof. done. Qed.

(** The [$] of the pattern also matches before a newline that ends the
    string: every version that passes the check passes it with one
    newline after it, and not with two. *)
Theorem version_with_final_newline (e : env) (s : string) :
  _is_valid_semver e (JStr s) = Ok true ->
  newline ∉ list_ascii_of_string s ->
  _is_valid_semver e (JStr (s +:+ String newline "")) = Ok true
  /\ _is_valid_semver e (JStr (s +:+ String newline (String newline ""))) = Ok false.
Proof.
  simpl. intros [= H] Hn.
  apply (code_points_no_ascii s newline newline_ascii) in Hn.
  apply re_match_semver in H as [H|(w & Hw & _)].
  2: { exfalso. apply Hn. rewrite Hw. apply elem_of_app. right. left. }
  split; f_equal.
  - apply re_match_semver. right. exists (code_points s).
    by rewrite (code_points_ascii s "" newline newline_ascii).
  - apply not_true_iff_false. intros H2.
    assert (Hcp : code_points (s +:+ String newline (String newline ""))
                  = (code_points s ++ [code_point newline]) ++ [code_point newline]).
    { rewrite (code_points_ascii s (String newline "") newline newline_ascii).
      by rewrite <- app_assoc. }
    apply re_match_semver in H2 as [H2|(w & Hw & H2)].
    + apply basic_form_no_newline in H2. apply H2.
      rewrite Hcp. apply elem_of_app. right. left.
    + rewrite Hcp in Hw. apply app_inj_tail in Hw as [<- _].
      apply basic_form_no_newline in H2. apply H2. apply elem_of_app. right. left.
Qed.

Lemma version_with_final_newline_witness :
  let e := example_env true in
  _is_valid_semver e (JStr ("1.0.0" +:+ String newline "")) = Ok true
  /\ _is_valid_semver e (JStr ("1.0.0" +:+ String newline (String newline ""))) = Ok false.
Proof.
  apply (version_with_final_newline (example_env true) "1.0.0").
  - vm_compute. reflexivity.
  - intros H. simpl in H.
    repeat (apply elem_of_cons in H as [H|H]; [discriminate H|]).
    by apply elem_of_nil in H.
Defined.

(** *** The directory of a skill path *)

(** A character that [lstrip('./')] removes. *)
Definition dot_or_slash (c : ascii) : bool := (Ascii.eqb c "." || Ascii.eqb c "/")%bool.

Lemma lstrip_prefix (prefix rest : string) :
  forallb dot_or_slash (list_ascii_of_string prefix) = true ->
  lstrip_dot_slash (prefix +:+ rest) = lstrip_dot_slash rest.
Proof.
  induction prefix as [|c prefix IH]; simpl; [done|].
  intros [Hc Hp]%andb_true_iff. unfold dot_or_slash in Hc. rewrite Hc. by apply IH.
Qed.

(** [lstrip('./')] removes every leading dot and slash, not the two
    characters './': a skill path that starts with './' names the same
    directory whatever dots and slashes follow the './', so that './../x'
    and './.x' are looked for at x below the root of the repository; and a
    skill path that starts with '/' names that absolute path, not a path
    below the root. *)
Theorem skill_dir_of_dots_and_slashes (e : env) (prefix rest : string) :
  forallb dot_or_slash (list_ascii_of_string prefix) = true ->
  skill_dir e ("./" +:+ prefix +:+ rest) = skill_dir e ("./" +:+ rest)
  /\ skill_dir e ("/" +:+ rest) = "/" +:+ rest.
Proof.
  intros Hprefix. unfold skill_dir. split.
  - rewrite !(proj2 (prefix_spec "./" _)) by (by eexists).
    by rewrite (lstrip_prefix "./" (prefix +:+ rest)), (lstrip_prefix "./" rest),
      lstrip_prefix.
  - assert (Hno : String.prefix "./" ("/" +:+ rest) = false) by done.
    rewrite Hno. unfold path_join.
    by rewrite (proj2 (prefix_spec "/" _)) by (by eexists).
Qed.

Lemma skill_dir_of_dots_and_slashes_witness :
  skill_dir (example_env true) ("./" +:+ "../." +:+ "claude/skills")
    = skill_dir (example_env true) ("./" +:+ "claude/skills")
  /\ skill_dir (example_env true) ("/" +:+ "claude/skills") = "/" +:+ "claude/skills".
Proof.
  apply (skill_dir_of_dots_and_slashes (example_env true) "../." "claude/skills").
  reflexivity.
Defined.

End MarketplacePass.

(** ** remediation_planner.py: categories, order and effort *)

From Stdlib Require Import Qround.

Module Plan.
Import Planner.

(** *** The category of a finding *)

(** The category under which a finding is listed last. *)
Definition last_category (r : ref) (findings : findings_by_category) : option string :=
  fold_left (fun acc cf => if decide (r ∈ cf.2) then Some cf.1 else acc) findings None.

Lemma tag_category (category : string) (fs : list ref) (st : heap * list ref) (r : ref) :
  (fold_left (tag category) fs st).1 r !! "category"
    = if decide (r ∈ fs) then Some (VStr category) else st.1 r !! "category".
Proof.
  revert st. induction fs as [|r0 fs IH]; intros st; simpl.
  - destruct (decide (r ∈ [])) as [Hin|_]; [by apply elem_of_nil in Hin | done].
  - rewrite IH. simpl. unfold upd.
    destruct (decide (r ∈ fs)) as [Hin|Hout].
    + by rewrite (decide_True (P := r ∈ r0 :: fs)) by (by right).
    + destruct (decide (r = r0)) as [->|Hne].
      * rewrite (decide_True (P := r0 ∈ r0 :: fs)) by (by left).
        by rewrite lookup_insert_eq.
      * by rewrite (decide_False (P := r ∈ r0 :: fs)) by (by intros [?|?]%elem_of_cons).
Qed.

(** The category after tagging: that of the last list, or the one the
    finding came with. *)
Definition category_after (base : option value) (acc : option string) : option value :=
  match acc with
  | Some c => Some (VStr c)
  | None => base
  end.

Lemma flatten_category_from (findings : findings_by_category) (st : heap * list ref)
    (r : ref) (base : option value) (acc : option string) :
  st.1 r !! "category" = category_after base acc ->
  (fold_left (fun st cf => fold_left (tag cf.1) cf.2 st) findings st).1 r !! "category"
    = category_after base
        (fold_left (fun acc cf => if decide (r ∈ cf.2) then Some cf.1 else acc)
           findings acc).
Proof.
  revert st acc. induction findings as [|[c fs] findings IH]; intros st acc Hst; simpl.
  - done.
  - apply IH. rewrite tag_category. by destruct (decide (r ∈ fs)).
Qed.

Lemma flatten_last_category (findings : findings_by_category) (h : heap) (r : ref) :
  (flatten findings h).1 r !! "category"
    = category_after (h r !! "category") (last_category r findings).
Proof. unfold flatten, last_category. by apply flatten_category_from. Qed.

Lemma last_category_listed (findings : findings_by_category) (r : ref) (c : string) :
  last_category r findings = Some c -> r ∈ concat (findings.*2).
Proof.
  unfold last_category.
  assert (H : forall acc,
            fold_left (fun acc cf => if decide (r ∈ cf.2) then Some cf.1 else acc)
              findings acc = Some c ->
            acc = Some c \/ r ∈ concat (findings.*2)).
  { induction findings as [|[c' fs] findings IH]; intros acc; simpl; [by left|].
    intros [Hacc|Hin]%IH; rewrite elem_of_app; [|by auto].
    destruct (decide (r ∈ fs)); auto. }
  intros [?|?]%H; done.
Qed.

(** The score looks at the severity, the category and the effort only. *)
Lemma score_ext (f g : finding) :
  f !! "severity" = g !! "severity" -> f !! "category" = g !! "category" ->
  f !! "effort" = g !! "effort" ->
  calculate_priority_score f = calculate_priority_score g.
Proof.
  intros Hs Hc He. unfold calculate_priority_score, linear_score, get.
  by rewrite Hs, Hc, He.
Qed.

(** The category of a finding in the plan is the key of the dictionary
    under which it is listed, the last one when it is listed under
    several, whatever category field the finding came with; the frequency
    part of its score is that of this key. *)
Theorem category_is_the_key (findings : findings_by_category) (h : heap) :
  match generate_remediation_plan findings h with
  | Ok (h', b, doc) =>
      forall r c, last_category r findings = Some c ->
        r ∈ all_findings b
        /\ h' r !! "category" = Some (VStr c)
        /\ priority_score h' r
           = calculate_priority_score (<["category" := VStr c]> (h r))
  | Raise _ => True
  end.
Proof.
  unfold generate_remediation_plan.
  pose proof (prioritize_spec findings h) as Hp.
  destruct (prioritize findings h) as [[h' b]|e] eqn:Hprio; [|done]. simpl.
  destruct (render h' b) as [doc|e]; [|done]. simpl.
  intros r c Hlast. destruct Hp as (Hperm & _ & Hframe & Hscore & _).
  assert (Hin : r ∈ all_findings b).
  { eapply elem_of_Permutation_proper; [exact Hperm|]. by eapply last_category_listed. }
  assert (Hcat : h' r !! "category" = Some (VStr c)).
  { unfold prioritize in Hprio.
    destruct (flatten findings h) as [h1 all] eqn:Hfl.
    pose proof (flatten_last_category findings h r) as Hc. rewrite Hfl, Hlast in Hc.
    simpl in Hc.
    destruct (select _ "critical" _); [|done]. cbn [bind] in Hprio.
    destruct (select _ "high" _); [|done]. cbn [bind] in Hprio.
    destruct (select _ "medium" _); [|done]. cbn [bind] in Hprio.
    destruct (select _ "low" _); [|done]. cbn [bind] in Hprio.
    injection Hprio as <- _.
    by rewrite (proj1 (score_all_frame all h1 r)). }
  split; [done|]. split; [done|].
  rewrite Hscore by done. apply score_ext.
  - rewrite lookup_insert_ne by done. by apply Hframe.
  - by rewrite lookup_insert_eq.
  - rewrite lookup_insert_ne by done. by apply Hframe.
Qed.

Example shared_finding_category :
  match generate_remediation_plan example_findings example_heap with
  | Ok (h', b, doc) =>
      last_category 2%nat example_findings = Some "security"
      /\ h' 2%nat !! "category" = Some (VStr "security")
      /\ priority_score h' 2%nat = 104
  | Raise _ => False
  end.
Proof. vm_compute. repeat split; reflexivity. Qed.

(** *** Findings of the same score *)

Section Stable.
Context {A : Type} (key : A -> Z).

Lemma insert_desc_same_key (k : Z) (x : A) (l : list A) :
  filter (fun y => key y = k) (insert_desc key x l)
    = filter (fun y => key y = k) (x :: l).
Proof.
  induction l as [|y l IH]; simpl; [done|].
  destruct (key x <? key y) eqn:E; [|done].
  apply Z.ltb_lt in E. rewrite filter_cons, IH, !filter_cons.
  destruct (decide (key y = k)), (decide (key x = k)); try done. lia.
Qed.

Lemma sort_desc_same_key (k : Z) (l : list A) :
  filter (fun y => key y = k) (sort_desc key l) = filter (fun y => key y = k) l.
Proof.
  induction l as [|x l IH]; simpl; [done|].
  rewrite insert_desc_same_key, !filter_cons, IH. done.
Qed.

End Stable.

(** Findings with the same priority score stand in the plan in the order
    in which they were given (the lists of the categories one after the
    other), in all_findings and so in every bucket. *)
Theorem equal_scores_keep_order (findings : findings_by_category) (h : heap) (k : Z) :
  match generate_remediation_plan findings h with
  | Ok (h', b, doc) =>
      let same := fun r => priority_score h' r = k in
      filter same (all_findings b) = filter same (concat (findings.*2))
      /\ filter same (p0_issues b)
         = filter same (filter (has_severity h' "critical") (concat (findings.*2)))
      /\ filter same (p1_issues b)
         = filter same (filter (has_severity h' "high") (concat (findings.*2)))
      /\ filter same (p2_issues b)
         = filter same (filter (has_severity h' "medium") (concat (findings.*2)))
      /\ filter same (p3_issues b)
         = filter same (filter (has_severity h' "low") (concat (findings.*2)))
  | Raise _ => True
  end.
Proof.
  unfold generate_remediation_plan.
  pose proof (prioritize_spec findings h) as Hp.
  destruct (prioritize findings h) as [[h' b]|e] eqn:Hprio; [|done]. simpl.
  destruct (render h' b) as [doc|e]; [|done]. simpl.
  destruct Hp as (_ & _ & _ & _ & H0 & H1 & H2 & H3).
  assert (Hall : filter (fun r => priority_score h' r = k) (all_findings b)
                 = filter (fun r => priority_score h' r = k) (concat (findings.*2))).
  { unfold prioritize in Hprio.
    destruct (flatten findings h) as [h1 all] eqn:Hfl.
    pose proof (flatten_refs findings h) as Hrefs. rewrite Hfl in Hrefs. simpl in Hrefs.
    destruct (select _ "critical" _); [|done]. cbn [bind] in Hprio.
    destruct (select _ "high" _); [|done]. cbn [bind] in Hprio.
    destruct (select _ "medium" _); [|done]. cbn [bind] in Hprio.
    destruct (select _ "low" _); [|done]. cbn [bind] in Hprio.
    injection Hprio as <- <-. simpl. rewrite <- Hrefs. apply sort_desc_same_key. }
  assert (Hswap : forall sev (l : list ref),
            filter (fun r => priority_score h' r = k) (filter (has_severity h' sev) l)
            = filter (has_severity h' sev) (filter (fun r => priority_score h' r = k) l)).
  { intros sev l. rewrite !list_filter_filter. apply list_filter_iff. tauto. }
  split; [done|]. rewrite H0, H1, H2, H3, !Hswap, Hall. done.
Qed.

(** *** calculate_effort_summary *)

(** The numbers are Python numbers that are multiples of one half, which
    binary floating point represents and adds without error; they are
    modelled by exact rationals. *)

Definition effort_days : gmap string Q :=
  {[ "low" := (1 # 2)%Q; "medium" := 2%Q; "high" := 5%Q ]}.

(** [effort_days.get(f.get('effort', 'medium'), 2)] *)
Definition days (f : finding) : Q :=
  table_get effort_days (get f "effort" (VStr "medium")) 2%Q.

(** [f.get('severity') in [...]] and [f.get('severity') == '...']: [None]
    when the finding has no severity. *)
Definition severity_in (l : list string) (f : finding) : bool :=
  match f !! "severity" with
  | Some v => in_strs v l
  | None => false
  end.

(** [round(x, 1)], to the nearest multiple of one tenth, a tie to the
    even one. *)
Definition round1 (x : Q) : Q :=
  let t := (x * 10)%Q in
  let n := Qfloor t in
  let rest := (t - inject_Z n)%Q in
  let up :=
    match (rest ?= 1 # 2)%Q with
    | Lt => false
    | Gt => true
    | Eq => Z.odd n
    end in
  (inject_Z (if up then n + 1 else n) / 10)%Q.

Record effort_summary : Type := EffortSummary {
  critical_high : Q;
  medium : Q;
  low : Q;
  total : Q
}.

(** calculate_effort_summary, lines 201-241. *)
Definition calculate_effort_summary (findings : list finding) : effort_summary :=
  let critical_high_days :=
    Sqale.sum (map days (List.filter (severity_in ["critical"; "high"]) findings)) in
  let medium_days := Sqale.sum (map days (List.filter (severity_in ["medium"]) findings)) in
  let low_days := Sqale.sum (map days (List.filter (severity_in ["low"]) findings)) in
  EffortSummary (round1 critical_high_days) (round1 medium_days) (round1 low_days)
    (round1 (critical_high_days + medium_days + low_days)).

Lemma effort_days_lookup (s : string) :
  effort_days !! s =
    if decide (s = "low") then Some (1 # 2)%Q
    else if decide (s = "medium") then Some 2%Q
    else if decide (s = "high") then Some 5%Q
    else None.
Proof.
  unfold effort_days. rewrite !lookup_insert, lookup_singleton.
  repeat case_decide; congruence.
Qed.

(** The days of a finding are one half, two or five. *)
Lemma days_halves (f : finding) :
  exists n : Z, 0 <= n /\ (days f == inject_Z n / 2)%Q.
Proof.
  unfold days, get, table_get.
  destruct (f !! "effort") as [[s|z]|]; simpl; rewrite ?effort_days_lookup;
    repeat case_decide; simpl;
    first [by exists 1 | by exists 4 | by exists 10].
Qed.

Lemma sum_halves (l : list finding) :
  exists n : Z, 0 <= n /\ (Sqale.sum (map days l) == inject_Z n / 2)%Q.
Proof.
  induction l as [|f l (n & Hn & IH)]; simpl.
  - by exists 0.
  - destruct (days_halves f) as (m & Hm & Hf). exists (m + n). split; [lia|].
    unfold Sqale.sum in *. simpl. rewrite Sqale.sum_from.
    unfold Sqale.sum. rewrite IH, Hf, inject_Z_plus. field.
Qed.

(** Rounding to one decimal leaves a multiple of one half as it is. *)
Lemma round1_half (x : Q) (n : Z) : (x == inject_Z n / 2)%Q -> (round1 x == x)%Q.
Proof.
  intros Hx. unfold round1. cbv zeta.
  assert (Ht : (x * 10 == inject_Z (5 * n))%Q).
  { rewrite Hx, inject_Z_mult. field. }
  assert (Hfloor : Qfloor (x * 10) = 5 * n).
  { rewrite (Qfloor_comp _ _ Ht). apply Qfloor_Z. }
  rewrite Hfloor.
  assert (Hrest : ((x * 10 - inject_Z (5 * n)) ?= 1 # 2)%Q = Lt).
  { apply Qlt_alt. rewrite Ht. unfold Qminus. rewrite Qplus_opp_r. reflexivity. }
  rewrite Hrest. rewrite Hx, inject_Z_mult. field.
Qed.

Lemma sum_cons (x : Q) (l : list Q) : (Sqale.sum (x :: l) == x + Sqale.sum l)%Q.
Proof. unfold Sqale.sum. simpl. rewrite Sqale.sum_from. unfold Sqale.sum. ring. Qed.

Lemma filter_sum_cons (P : finding -> bool) (f : finding) (l : list finding) :
  (Sqale.sum (map days (List.filter P (f :: l)))
   == (if P f then days f else 0) + Sqale.sum (map days (List.filter P l)))%Q.
Proof. simpl. destruct (P f); simpl; [apply sum_cons | ring]. Qed.

(** The three parts count a finding of a known severity once. *)
Lemma severity_split (f : finding) (d : Q) :
  ((if severity_in ["critical"; "high"] f then d else 0)
   + (if severity_in ["medium"] f then d else 0)
   + (if severity_in ["low"] f then d else 0)
   == (if severity_in ["critical"; "high"; "medium"; "low"] f then d else 0))%Q.
Proof.
  unfold severity_in, in_strs, is_str. destruct (f !! "severity") as [v|]; simpl; [|ring].
  repeat case_bool_decide; simplify_eq; simpl; ring.
Qed.

(** calculate_effort_summary adds the days of the findings (low 0.5,
    medium or anything else 2, high 5) by severity: rounding changes none
    of the four numbers, the total is the sum of the three parts, and a
    finding whose severity is none of critical, high, medium and low adds
    to none of them. *)
Theorem effort_summary_by_severity (findings : list finding) :
  let s := calculate_effort_summary findings in
  let known := List.filter (severity_in ["critical"; "high"; "medium"; "low"]) findings in
  (critical_high s
     == Sqale.sum (map days (List.filter (severity_in ["critical"; "high"]) findings)))%Q
  /\ (medium s == Sqale.sum (map days (List.filter (severity_in ["medium"]) findings)))%Q
  /\ (low s == Sqale.sum (map days (List.filter (severity_in ["low"]) findings)))%Q
  /\ (total s == critical_high s + medium s + low s)%Q
  /\ (total s == Sqale.sum (map days known))%Q.
Proof.
  cbv zeta. unfold calculate_effort_summary. simpl.
  destruct (sum_halves (List.filter (severity_in ["critical"; "high"]) findings))
    as (a & Ha & Hca).
  destruct (sum_halves (List.filter (severity_in ["medium"]) findings)) as (b & Hb & Hcb).
  destruct (sum_halves (List.filter (severity_in ["low"]) findings)) as (c & Hc & Hcc).
  assert (Hknown :
    (Sqale.sum (map days (List.filter (severity_in ["critical"; "high"]) findings))
     + Sqale.sum (map days (List.filter (severity_in ["medium"]) findings))
     + Sqale.sum (map days (List.filter (severity_in ["low"]) findings))
     == Sqale.sum (map days (List.filter
                     (severity_in ["critical"; "high"; "medium"; "low"]) findings)))%Q).
  { clear. induction findings as [|f findings IH]; [reflexivity|].
    rewrite !filter_sum_cons, <- IH, <- (severity_split f (days f)). ring. }
  set (ch := Sqale.sum (map days (List.filter (severity_in ["critical"; "high"]) findings))) in *.
  set (me := Sqale.sum (map days (List.filter (severity_in ["medium"]) findings))) in *.
  set (lo := Sqale.sum (map days (List.filter (severity_in ["low"]) findings))) in *.
  assert (Rch : (round1 ch == ch)%Q) by (by eapply round1_half).
  assert (Rme : (round1 me == me)%Q) by (by eapply round1_half).
  assert (Rlo : (round1 lo == lo)%Q) by (by eapply round1_half).
  assert (Rtotal : (round1 (ch + me + lo) == ch + me + lo)%Q).
  { apply (round1_half _ (a + b + c)). rewrite Hca, Hcb, Hcc, !inject_Z_plus. field. }
  split; [done|]. split; [done|]. split; [done|].
  split; [by rewrite Rtotal, Rch, Rme, Rlo|].
  by rewrite Rtotal.
Qed.

Example effort_summary_example :
  calculate_effort_summary
    [ {[ "severity" := VStr "critical"; "effort" := VStr "low" ]};
      {[ "severity" := VStr "high" ]};
      {[ "severity" := VStr "medium"; "effort" := VStr "high" ]};
      {[ "severity" := VStr "info"; "effort" := VStr "high" ]};
      {[ "effort" := VStr "high" ]} ]
  = EffortSummary (25 # 10) (50 # 10) (0 # 10) (75 # 10).
Proof. vm_compute. reflexivity. Qed.

End Plan.

(** ** technical_debt.py: the order of the letters *)

Module Debt.
Import Num Sqale.

(** The computed ratio grows with the hours and falls with the
    development time. *)
Lemma computed_mono (h h' d d' : Q) :
  (0 <= h)%Q -> (h <= h')%Q -> (h' < 2 ^ 52)%Q -> (1 # 64 <= d')%Q -> (d' <= d)%Q ->
  exists q r q' r',
    Float64.round (h / d) = Float64.Fin q /\ Float64.round (q * 100) = Float64.Fin r
    /\ Float64.round (h' / d') = Float64.Fin q' /\ Float64.round (q' * 100) = Float64.Fin r'
    /\ (r <= r')%Q.
Proof.
  intros Hh Hhh' Hh' Hd' Hd.
  pose proof u_value as Hu. pose proof tiny as Hm.
  pose proof (Float64.pow2_pos (-1022)) as Hm0.
  pose proof pow2_52 as P52. pose proof pow2_58 as P58. pose proof pow2_66 as P66.
  set (v := Float64.u) in *. set (m := (2 ^ (-1022))%Q) in *.
  assert (HX : (h / d * d == h)%Q) by (field; lra).
  assert (HX' : (h' / d' * d' == h')%Q) by (field; lra).
  set (X := (h / d)%Q) in *. set (X' := (h' / d')%Q) in *.
  assert (HX0 : (0 <= X)%Q) by nra.
  assert (HX'0 : (0 <= X')%Q) by nra.
  assert (HXX' : (X <= X')%Q).
  { apply Qnot_lt_le. intros Hlt. nra. }
  assert (HX58 : (X' <= 2 ^ 58)%Q) by nra.
  pose proof (in_range X' 58 ltac:(lia) HX58) as Hrange.
  destruct (Float64.round_mono X X' HX0 HXX' Hrange) as (q & q' & Hq & Hq' & Hq0 & Hqq').
  destruct (Float64.round_fin X' HX'0 Hrange) as (q2 & Hq2 & _ & Hqs & Hqn).
  fold v m in Hqs, Hqn. rewrite Hq' in Hq2. injection Hq2 as <-.
  assert (Hq66 : (q' * 100 <= 2 ^ 66)%Q).
  { destruct (Qlt_le_dec X' m) as [Hs|Hn]; [specialize (Hqs ltac:(lra)) | specialize (Hqn Hn)]; nra. }
  destruct (Float64.round_mono (q * 100) (q' * 100) ltac:(lra) ltac:(lra)
              (in_range _ 66 ltac:(lia) Hq66)) as (r & r' & Hr & Hr' & _ & Hrr').
  by exists q, r, q', r'.
Qed.

(** For a positive total_loc within range and fewer than 2^49 findings,
    more findings never give a better letter, and the same findings in
    more lines of code never give a worse one. *)
Theorem rating_monotone (findings more : list dict) (total_loc total_loc' : Z) :
  Z.of_nat (length (findings ++ more)) < 2 ^ 49 ->
  0 < total_loc -> total_loc <= total_loc' ->
  (inject_Z total_loc' / 50 < Float64.out_of_range)%Q ->
  exists l l_more l_loc,
    calculate_sqale_rating findings total_loc = Ok l
    /\ calculate_sqale_rating (findings ++ more) total_loc = Ok l_more
    /\ calculate_sqale_rating findings total_loc' = Ok l_loc
    /\ (rank l <= rank l_more)%nat
    /\ (rank l_loc <= rank l)%nat.
Proof.
  intros Hlen Hloc Hloc' Hrange'.
  assert (Hlen1 : Z.of_nat (length findings) < 2 ^ 49) by (rewrite length_app in Hlen; lia).
  assert (Hdd : (inject_Z total_loc / 50 <= inject_Z total_loc' / 50)%Q).
  { rewrite Zle_Qle in Hloc'. apply Qle_shift_div_l; [lra|].
    assert (E : (inject_Z total_loc / 50 * 50 == inject_Z total_loc)%Q) by (field; lra).
    by rewrite E. }
  assert (Hrange : (inject_Z total_loc / 50 < Float64.out_of_range)%Q) by lra.
  destruct (sum_exact findings Hlen1) as (n & h & Hsum & Hh & Eh & H52).
  destruct (sum_exact (findings ++ more) Hlen) as (n2 & h2 & Hsum2 & Hh2 & Eh2 & H52').
  destruct (development_hours_fin total_loc Hloc Hrange) as (Hd & d1 & Hd1 & Hlo1 & _ & Hpos1).
  destruct (development_hours_fin total_loc' ltac:(lia) Hrange')
    as (_ & d2 & Hd2 & _ & _ & Hpos2).
  destruct (Float64.round_mono (inject_Z total_loc / 50) (inject_Z total_loc' / 50)
              ltac:(lra) Hdd Hrange') as (y & y' & Hy & Hy' & _ & Hyy').
  rewrite Hd1 in Hy. injection Hy as <-. rewrite Hd2 in Hy'. injection Hy' as <-.
  assert (Hd64 : (1 # 64 <= d1)%Q) by (pose proof u_value; nra).
  assert (Hh0 : (0 <= h)%Q) by (rewrite Eh; apply total_hours_nonnegative).
  assert (Hhh2 : (h <= h2)%Q).
  { rewrite Eh, Eh2, total_hours_app. pose proof (total_hours_nonnegative more). lra. }
  destruct (computed_mono h h2 d1 d1 Hh0 Hhh2 H52' Hd64 ltac:(lra))
    as (q & r & q2 & r2 & Hq & Hr & Hq2 & Hr2 & Hrr2).
  destruct (computed_mono h h d2 d1 Hh0 ltac:(lra) H52 Hd64 Hyy')
    as (q3 & r3 & q' & r' & Hq3 & Hr3 & Hq' & Hr' & Hr3r).
  rewrite Hq in Hq'. injection Hq' as <-. rewrite Hr in Hr'. injection Hr' as <-.
  exists (letter r), (letter r2), (letter r3).
  split; [apply (rating_computed findings total_loc n h d1 q r); try done; lra|].
  split; [apply (rating_computed (findings ++ more) total_loc n2 h2 d1 q2 r2); try done; lra|].
  split; [apply (rating_computed findings total_loc' n h d2 q3 r3); try done; lra|].
  split; by apply letter_monotone.
Qed.

Lemma rating_monotone_witness :
  let findings := [ {[ "severity" := VStr "critical" ]} : dict ] in
  let more := [ {[ "severity" := VStr "high" ]} : dict ] in
  exists l l_more l_loc,
    calculate_sqale_rating findings 1000 = Ok l
    /\ calculate_sqale_rating (findings ++ more) 1000 = Ok l_more
    /\ calculate_sqale_rating findings 2000 = Ok l_loc
    /\ (rank l <= rank l_more)%nat
    /\ (rank l_loc <= rank l)%nat.
Proof.
  intros findings more. apply (rating_monotone findings more 1000 2000).
  - simpl. lia.
  - lia.
  - lia.
  - apply (in_range _ 10); [lia|]. apply Qle_bool_iff. reflexivity.
Defined.

(** With no finding, or with a total_loc that is zero or negative, the
    letter is A whatever the (fewer than 2^49) findings: a negative
    total_loc gives a negative development time and a ratio that is not
    above 0. A total_loc whose fiftieth is out of the range of the floats
    is an OverflowError. *)
Theorem rating_A_without_debt_or_code (findings : list dict) (total_loc : Z) :
  Z.of_nat (length findings) < 2 ^ 49 ->
  (findings = [] \/ total_loc <= 0) ->
  ((inject_Z (Z.abs total_loc) / 50 < Float64.out_of_range)%Q ->
     calculate_sqale_rating findings total_loc = Ok A)
  /\ ((Float64.out_of_range <= inject_Z (Z.abs total_loc) / 50)%Q ->
        calculate_sqale_rating findings total_loc = Raise OverflowError).
Proof.
  intros Hlen Hcase.
  destruct (sum_exact findings Hlen) as (n & h & Hsum & Hh & Eh & H52).
  pose proof (total_hours_nonnegative findings) as HH0.
  destruct (Z.lt_trichotomy total_loc 0) as [Hneg|[->|Hpos]].
  - assert (Habs : (inject_Z (Z.abs total_loc) / 50 == - (inject_Z total_loc / 50))%Q).
    { rewrite Z.abs_neq by lia. rewrite inject_Z_opp. field. }
    rewrite Habs. split.
    + intros Hrange.
      assert (H1 : (inject_Z total_loc <= -1)%Q).
      { change (-1)%Q with (inject_Z (-1)). rewrite <- Zle_Qle. lia. }
      assert (Hd : (1 # 50 <= - (inject_Z total_loc / 50))%Q).
      { rewrite <- Habs. apply Qle_shift_div_l; [lra|].
        rewrite Z.abs_neq, inject_Z_opp by lia. lra. }
      pose proof u_value as Hu. pose proof tiny as Hm.
      pose proof pow2_52 as P52. pose proof pow2_58 as P58. pose proof pow2_66 as P66.
      pose proof (Float64.pow2_pos (-1022)) as Hm0.
      destruct (Float64.round_fin (- (inject_Z total_loc / 50)) ltac:(lra) Hrange)
        as (e & He & _ & _ & Hen).
      destruct (Hen ltac:(lra)) as [Helo _].
      pose proof (Float64.round_neg_fin _ _ He) as Hd'.
      set (d' := Qred (- e)) in *.
      assert (Ed : (d' == - e)%Q) by apply Qred_correct.
      assert (Hd64 : (d' <= - (1 # 64))%Q) by nra.
      set (v := Float64.u) in *. set (m := (2 ^ (-1022))%Q) in *.
      assert (HX : (- (h / d') * - d' == h)%Q) by (field; lra).
      set (X := (- (h / d'))%Q) in *.
      assert (HX0 : (0 <= X)%Q) by nra.
      assert (HX58 : (X <= 2 ^ 58)%Q) by nra.
      destruct (Float64.round_fin X HX0 (in_range X 58 ltac:(lia) HX58))
        as (q & Hq & Hq0 & Hqs & Hqn). fold v m in Hqs, Hqn.
      assert (Hq66 : (q * 100 <= 2 ^ 66)%Q).
      { destruct (Qlt_le_dec X m) as [Hs|Hn]; [specialize (Hqs ltac:(lra)) | specialize (Hqn Hn)]; nra. }
      apply Float64.round_neg_fin in Hq.
      assert (Eq : (- (Qred (- q) * 100) == q * 100)%Q) by (rewrite Qred_correct; ring).
      destruct (Float64.round_fin (- (Qred (- q) * 100)) ltac:(lra)
                  ltac:(rewrite Eq; apply (in_range _ 66); [lia | done]))
        as (r & Hr & Hr0 & _).
      apply Float64.round_neg_fin in Hr.
      rewrite (rating_computed findings total_loc n h d' (Qred (- q)) (Qred (- r)) Hsum Hh Hd'
                 ltac:(lra) Hq Hr).
      f_equal. apply (letter_spec (Qred (- r))). rewrite Qred_correct. lra.
    + intros Hout. apply (rating_overflow findings total_loc n true Hsum).
      rewrite (Float64.round_eq _ (- - (inject_Z total_loc / 50))) by ring.
      by rewrite Float64.round_opp, (Float64.round_overflow _ Hout).
  - split; [intros _; by apply (rating_zero findings n)|].
    intros Hout. exfalso.
    assert (Hin : (inject_Z (Z.abs 0) / 50 < Float64.out_of_range)%Q).
    { apply (in_range _ 10); [lia|]. apply Qle_bool_iff. reflexivity. }
    lra.
  - destruct Hcase as [->|Hloc]; [|lia]. rewrite Z.abs_eq by lia. split.
    + intros Hrange.
      destruct (rating_thresholds [] total_loc Hlen ltac:(lia) Hrange) as (r & Hr & Ht).
      rewrite Hr. f_equal. apply (letter_spec r). apply (Ht 5%Q); [lra|].
      pose proof eps_bounds. unfold debt_ratio. rewrite decide_False by lia.
      assert (E : (100 * total_hours [] / (inject_Z total_loc / 50) == 0)%Q).
      { simpl. unfold Qeq. simpl. lia. }
      rewrite E. lra.
    + intros Hout. apply (rating_overflow [] total_loc n false Hsum).
      by apply Float64.round_overflow.
Qed.

Lemma rating_A_without_debt_or_code_witness :
  let findings := [ {[ "severity" := VStr "critical" ]}; {[ "severity" := VStr "critical" ]} ] in
  calculate_sqale_rating findings (-10) = Ok A.
Proof.
  intros findings.
  apply (rating_A_without_debt_or_code findings (-10)).
  - simpl. lia.
  - right. lia.
  - apply (in_range _ 10); [lia|]. apply Qle_bool_iff. reflexivity.
Defined.

Example negative_or_empty :
  calculate_sqale_rating [] 1000 = Ok A
  /\ calculate_sqale_rating [ {[ "severity" := VStr "critical" ]} ] (-1000) = Ok A
  /\ calculate_sqale_rating [ {[ "severity" := VStr "critical" ]} ] (- 10 ^ 400)
     = Raise OverflowError.
Proof. vm_compute. repeat split; reflexivity. Qed.

End Debt.
